(** * SimpleEQ: a shallow embedding of the equaliser's filter chain,
      coefficient updates, block FIFO and response-curve sampling.

    Sources embedded here:
    - [SimpleEQ/Source/PluginProcessor.h]   (Fifo, SingleChannelSampleFifo,
      update, updateCutFilter, makeLowCutFilter, makeHighCutFilter)
    - [SimpleEQ/Source/PluginProcessor.cpp] (isBusesLayoutSupported,
      processBlock, getChainSettings, makePeakFilter, updateCoefficients,
      updateLowCutFilters, updateHighCutFilters, updateFilters)
    - the editor translation unit (ResponseCurveComponent::paint,
      parameterValueChanged, timerCallback, updateChain).

    Conventions.
    - Values of C++ [float] and [double] are rationals; rounding is not
      modelled.  The numerical work done inside the JUCE library on
      coefficient objects (the taps of a designed filter, the magnitude of
      its response) is never evaluated: a coefficient object is identified
      by the JUCE factory call that produces it.
    - The values of the response curve (magnitudes, frequencies, decibels)
      are real numbers, since the program computes them with logarithms and
      powers: [Decibels::gainToDecibels] and [mapToLog10] are written out.
    - Two statements of the source do not compile once the templates they
      are in are instantiated, as the program does.  [Fifo::pull] takes its
      argument as [const T&] and assigns to it; and
      [SingleChannelSampleFifo::prepare] calls [audioBufferFifo.prepare],
      a member that [Fifo] does not declare.  The embedding does not repair
      them: the argument of [pull] is left as it was, which is all a
      reference to const allows, and what the undeclared member does to the
      Fifo is a parameter about which nothing is assumed ([Fifo_prepare]).
    - [int] values are integers; every [int] of this program stays far
      below 2^31, so no wrap-around is written out.
    - An access outside an array or through a null pointer is undefined
      behaviour in C++; the embedding reports it as a [fault].  The fault
      [LoopCutOff] is not one of the program: it marks that the bound the
      embedding puts on a [while] loop was reached.
    - [jassert] is a debug-build check and has no effect on the state. *)

From Stdlib Require Import ZArith QArith Reals Lia Lra.
From stdpp Require Import base option list list_numbers vector fin gmap.

Local Open Scope Z_scope.

(** ** Faults and the error monad *)

Inductive fault : Type :=
| NullPointer
| ChannelOutOfBounds (channel : Z)
| SampleOutOfBounds (index : Z)
| LoopCutOff.

Inductive result (A : Type) : Type :=
| Ok (a : A)
| Err (f : fault).
Arguments Ok {A} a.
Arguments Err {A} f.

#[global] Instance result_ret : MRet result := @Ok.
#[global] Instance result_bind : MBind result := λ A B f r,
  match r with Ok a => f a | Err e => Err e end.

Definition is_Ok {A} (r : result A) : Prop := ∃ a, r = Ok a.

(** A lookup that faults when the option is empty. *)
Definition orFault {A} (f : fault) (o : option A) : result A :=
  match o with Some a => Ok a | None => Err f end.

(** ** Numbers *)

Definition float : Type := Q.

(** ** Parameters of the chain (PluginProcessor.h) *)

Inductive Slope : Type := Slope_12 | Slope_24 | Slope_36 | Slope_48.

(** The integer value of the enumerator. *)
Definition Slope_value (s : Slope) : Z :=
  match s with
  | Slope_12 => 0
  | Slope_24 => 1
  | Slope_36 => 2
  | Slope_48 => 3
  end.

Record ChainSettings : Type := mkChainSettings {
  peakFreq : float;
  peakGainInDecibels : float;
  peakQuality : float;
  lowCutFreq : float;
  highCutFreq : float;
  lowCutSlope : Slope;
  highCutSlope : Slope
}.

(** The default member initialisers of the struct. *)
Definition ChainSettings_default : ChainSettings :=
  {| peakFreq := 0%Q; peakGainInDecibels := 0%Q; peakQuality := 1%Q;
     lowCutFreq := 0%Q; highCutFreq := 0%Q;
     lowCutSlope := Slope_12; highCutSlope := Slope_12 |}.

(** ** The JUCE filter-design interface

    [juce::dsp::IIR::Coefficients<float>] and [juce::dsp::FilterDesign<float>]
    belong to the JUCE library.  A coefficient object is represented by the
    factory call that builds it, with the arguments it received; the shape
    of the arrays returned by the high-order Butterworth methods follows the
    library: one first-order section when the order is odd, then [order / 2]
    second-order sections. *)

Module IIR.

(** Quality factor of a section: given by the caller, or the one the
    Butterworth method derives for section [i] of a filter of order
    [order]. *)
Inductive quality : Type :=
| QGiven (q : float)
| QButterworth (i order : Z).

(** [juce::Decibels::decibelsToGain], unevaluated. *)
Inductive gain : Type :=
| decibelsToGain (dB : float).

Inductive Coefficients : Type :=
| Taps (b0 b1 a0 a1 : float)
| makeFirstOrderHighPass (sampleRate frequency : float)
| makeFirstOrderLowPass (sampleRate frequency : float)
| makeHighPass (sampleRate frequency : float) (q : quality)
| makeLowPass (sampleRate frequency : float) (q : quality)
| makePeakFilter (sampleRate frequency Q : float) (gainFactor : gain).

(** The frequency, sample rate and quality a design was requested with. *)
Definition requestedFrequency (c : Coefficients) : option float :=
  match c with
  | Taps _ _ _ _ => None
  | makeFirstOrderHighPass _ f | makeFirstOrderLowPass _ f
  | makeHighPass _ f _ | makeLowPass _ f _ | makePeakFilter _ f _ _ => Some f
  end.

Definition requestedSampleRate (c : Coefficients) : option float :=
  match c with
  | Taps _ _ _ _ => None
  | makeFirstOrderHighPass sr _ | makeFirstOrderLowPass sr _
  | makeHighPass sr _ _ | makeLowPass sr _ _ | makePeakFilter sr _ _ _ => Some sr
  end.

Definition requestedQuality (c : Coefficients) : option quality :=
  match c with
  | makeHighPass _ _ q | makeLowPass _ _ q => Some q
  | makePeakFilter _ _ q _ => Some (QGiven q)
  | _ => None
  end.

(** The coefficients a default-constructed [IIR::Filter] allocates. *)
Definition passThrough : Coefficients := Taps 1%Q 0%Q 1%Q 0%Q.

End IIR.

Module FilterDesign.

(** [order % 2] and [order / 2] are C++ integer operations: they truncate. *)
Definition designIIRHighpassHighOrderButterworthMethod
    (frequency sampleRate : float) (order : Z) : list IIR.Coefficients :=
  if Z.rem order 2 =? 1 then
    IIR.makeFirstOrderHighPass sampleRate frequency ::
    ((λ i, IIR.makeHighPass sampleRate frequency (IIR.QButterworth i order))
       <$> seqZ 0 (Z.quot order 2))
  else
    (λ i, IIR.makeHighPass sampleRate frequency (IIR.QButterworth i order))
      <$> seqZ 0 (Z.quot order 2).

Definition designIIRLowpassHighOrderButterworthMethod
    (frequency sampleRate : float) (order : Z) : list IIR.Coefficients :=
  if Z.rem order 2 =? 1 then
    IIR.makeFirstOrderLowPass sampleRate frequency ::
    ((λ i, IIR.makeLowPass sampleRate frequency (IIR.QButterworth i order))
       <$> seqZ 0 (Z.quot order 2))
  else
    (λ i, IIR.makeLowPass sampleRate frequency (IIR.QButterworth i order))
      <$> seqZ 0 (Z.quot order 2).

End FilterDesign.

(** ** The coefficient designers (PluginProcessor.h, PluginProcessor.cpp) *)

Definition makePeakFilter (chainSettings : ChainSettings) (sampleRate : float)
    : IIR.Coefficients :=
  IIR.makePeakFilter sampleRate
                     (peakFreq chainSettings)
                     (peakQuality chainSettings)
                     (IIR.decibelsToGain (peakGainInDecibels chainSettings)).

Definition makeLowCutFilter (chainSettings : ChainSettings) (sampleRate : float)
    : list IIR.Coefficients :=
  FilterDesign.designIIRHighpassHighOrderButterworthMethod
    (lowCutFreq chainSettings) sampleRate
    ((Slope_value (lowCutSlope chainSettings) + 1) * 2).

Definition makeHighCutFilter (chainSettings : ChainSettings) (sampleRate : float)
    : list IIR.Coefficients :=
  FilterDesign.designIIRLowpassHighOrderButterworthMethod
    (highCutFreq chainSettings) sampleRate
    ((Slope_value (highCutSlope chainSettings) + 1) * 2).

(** ** Coefficient objects and the filters that refer to them

    [Filter::CoefficientsPtr] is a reference-counted pointer to a coefficient
    object.  The objects live in a store; a pointer is a location of the
    store, or null. *)

Definition loc : Type := positive.
Abbreviation heap := (gmap loc IIR.Coefficients).

Definition Coefficients : Type := option loc.

(** [juce::dsp::IIR::Filter<float>]: the pointer to its coefficients and its
    delay line. *)
Record Filter : Type := mkFilter {
  coefficients : Coefficients;
  state : list float
}.

(** [juce::dsp::ProcessorChain<Filter, Filter, Filter, Filter>]. *)
Record CutFilter : Type := mkCutFilter {
  stages : vec Filter 4;
  bypassed : vec bool 4
}.

Definition get (Index : fin 4) (chain : CutFilter) : Filter :=
  stages chain !!! Index.
Definition isBypassed (Index : fin 4) (chain : CutFilter) : bool :=
  bypassed chain !!! Index.
Definition setBypassed (Index : fin 4) (b : bool) (chain : CutFilter) : CutFilter :=
  {| stages := stages chain; bypassed := vinsert Index b (bypassed chain) |}.

(** [juce::dsp::ProcessorChain<CutFilter, Filter, CutFilter>], addressed by
    [ChainPositions]. *)
Inductive ChainPositions : Type := LowCut | Peak | HighCut.

Record MonoChain : Type := mkMonoChain {
  lowCut : CutFilter;
  peak : Filter;
  highCut : CutFilter;
  lowCutBypassed : bool;
  peakBypassed : bool;
  highCutBypassed : bool
}.

Definition MonoChain_isBypassed (p : ChainPositions) (chain : MonoChain) : bool :=
  match p with
  | LowCut => lowCutBypassed chain
  | Peak => peakBypassed chain
  | HighCut => highCutBypassed chain
  end.

(** The value a pointer refers to; a null or dangling pointer faults. *)
Definition deref (h : heap) (p : Coefficients) : result IIR.Coefficients :=
  orFault NullPointer (p ≫= (h !!.)).

(** [*old = *replacements;] the object [old] points to is assigned the value
    of the object [replacements] points to. *)
Definition updateCoefficients (old replacements : Coefficients) (h : heap)
    : result heap :=
  v ← deref h replacements;
  _ ← deref h old;
  match old with
  | Some o => Ok (<[o := v]> h)
  | None => Err NullPointer
  end.

(** [juce::ReferenceCountedArray::operator[]] returns a null pointer for an
    index outside the array. *)
Definition array_at (a : list loc) (Index : fin 4) : Coefficients :=
  a !! fin_to_nat Index.

(** [update<Index>(chain, coefficients)] *)
Definition update (Index : fin 4) (coeffs : list loc) (st : heap * CutFilter)
    : result (heap * CutFilter) :=
  h' ← updateCoefficients (coefficients (get Index st.2)) (array_at coeffs Index) st.1;
  Ok (h', setBypassed Index false st.2).

(** The [switch] of [updateCutFilter] has no [break]: entering at a label
    runs that label and every label below it. *)
Definition case_Slope_12 (coeffs : list loc) (st : heap * CutFilter) :=
  update 0%fin coeffs st.
Definition case_Slope_24 (coeffs : list loc) (st : heap * CutFilter) :=
  update 1%fin coeffs st ≫= case_Slope_12 coeffs.
Definition case_Slope_36 (coeffs : list loc) (st : heap * CutFilter) :=
  update 2%fin coeffs st ≫= case_Slope_24 coeffs.
Definition case_Slope_48 (coeffs : list loc) (st : heap * CutFilter) :=
  update 3%fin coeffs st ≫= case_Slope_36 coeffs.

Definition updateCutFilter (chain : CutFilter) (coeffs : list loc) (slope : Slope)
    (h : heap) : result (heap * CutFilter) :=
  let chain := setBypassed 0%fin true chain in
  let chain := setBypassed 1%fin true chain in
  let chain := setBypassed 2%fin true chain in
  let chain := setBypassed 3%fin true chain in
  match slope with
  | Slope_48 => case_Slope_48 coeffs (h, chain)
  | Slope_36 => case_Slope_36 coeffs (h, chain)
  | Slope_24 => case_Slope_24 coeffs (h, chain)
  | Slope_12 => case_Slope_12 coeffs (h, chain)
  end.

(** The stage index a slope reaches: the integer value of the enumerator. *)
Definition Slope_stage (s : Slope) : nat := Z.to_nat (Slope_value s).

(** A pointer is valid in a store when dereferencing it does not fault. *)
Definition valid (h : heap) (p : Coefficients) : Prop := is_Ok (deref h p).

(** The pointers that are valid in [h] are valid in [h']. *)
Definition keeps_valid (h h' : heap) : Prop := ∀ p, valid h p → valid h' p.

(** ** The parameter tree (PluginProcessor.cpp)

    [createParameterLayout] registers five float parameters and two choice
    parameters over the four strings "12 db/Oct" .. "48 db/Oct"; the raw
    value of a choice parameter is the index of the choice, which
    [static_cast<Slope>] names. *)
Record AudioProcessorValueTreeState : Type := mkApvts {
  LowCut_Freq : float;
  HighCut_Freq : float;
  Peak_Freq : float;
  Peak_Gain : float;
  Peak_Quality : float;
  LowCut_Slope : Slope;
  HighCut_Slope : Slope
}.

(** The default values given in [createParameterLayout]. *)
Definition createParameterLayout : AudioProcessorValueTreeState :=
  {| LowCut_Freq := 20%Q; HighCut_Freq := 20000%Q; Peak_Freq := 750%Q;
     Peak_Gain := 0%Q; Peak_Quality := 1%Q;
     LowCut_Slope := Slope_12; HighCut_Slope := Slope_12 |}.

Definition getChainSettings (apvts : AudioProcessorValueTreeState) : ChainSettings :=
  {| lowCutFreq := LowCut_Freq apvts;
     highCutFreq := HighCut_Freq apvts;
     peakFreq := Peak_Freq apvts;
     peakGainInDecibels := Peak_Gain apvts;
     peakQuality := Peak_Quality apvts;
     lowCutSlope := LowCut_Slope apvts;
     highCutSlope := HighCut_Slope apvts |}.

(** A design is requested below the Nyquist frequency of [sampleRate]. *)
Definition belowNyquist (sampleRate : float) (c : IIR.Coefficients) : Prop :=
  match IIR.requestedFrequency c with
  | Some f => (f < sampleRate / 2)%Q
  | None => True
  end.

(** Every stage the slope reaches has valid coefficients, and the array has
    a valid entry for it. *)
Definition reachable_valid (h : heap) (chain : CutFilter) (coeffs : list loc)
    (slope : Slope) : Prop :=
  ∀ i : fin 4, (fin_to_nat i ≤ Slope_stage slope)%nat →
    valid h (coefficients (get i chain)) ∧ valid h (array_at coeffs i).

(** The coefficient objects of the stages are distinct from one another and
    from the objects of the array: every filter allocates its own. *)
Definition separate (chain : CutFilter) (coeffs : list loc) : Prop :=
  (∀ (i j : fin 4) o, i ≠ j → coefficients (get i chain) = Some o →
                      coefficients (get j chain) ≠ Some o)
  ∧ (∀ (i j : fin 4) o, coefficients (get i chain) = Some o →
                        array_at coeffs j ≠ Some o).

(** ** Audio buffers

    A [juce::AudioBuffer<float>] is a list of channels, every channel a list
    of samples of the same length.  A channel index that is not below the
    number of channels, or a sample index that is not below the number of
    samples, is outside the buffer: JUCE asserts against it, which has no
    effect, and goes on.  Taking the pointer to such a channel is not yet an
    access; reading or writing a sample through it is. *)

Abbreviation AudioBuffer := (list (list float)).

Definition getNumChannels (b : AudioBuffer) : Z := Z.of_nat (length b).

(** The number of samples is the length of the channels.  A buffer without
    channels is taken to hold no samples: one with no channel and a
    positive number of samples is not represented. *)
Definition getNumSamples (b : AudioBuffer) : Z :=
  match b with
  | [] => 0
  | c :: _ => Z.of_nat (length c)
  end.

(** [setSize (newNumChannels, newNumSamples, false, true, true)]: nothing
    happens when the buffer already has that many channels and samples, so
    its samples stay; otherwise the buffer gets the new size and, the extra
    space being cleared, every sample is zero. *)
Definition setSize (newNumChannels newNumSamples : Z) (b : AudioBuffer) : AudioBuffer :=
  if (newNumSamples =? getNumSamples b) && (newNumChannels =? getNumChannels b)
  then b
  else replicate (Z.to_nat newNumChannels) (replicate (Z.to_nat newNumSamples) 0%Q).

(** [clear ()]: every sample becomes zero. *)
Definition clear (b : AudioBuffer) : AudioBuffer :=
  (λ c : list float, replicate (length c) 0%Q) <$> b.

(** [getReadPointer (channelNumber)] and [getWritePointer (channelNumber)]:
    the pointer to the samples of a channel, [channels[channelNumber]].
    Taking it reads no sample.  For a channel the buffer does not have the
    result is [None]: a pointer that refers to no channel (the null pointer
    that ends the array of channel pointers, for the index
    [getNumChannels ()]). *)
Definition getReadPointer (channelNumber : Z) (b : AudioBuffer) : option (list float) :=
  if (0 <=? channelNumber) && (channelNumber <? getNumChannels b)
  then b !! Z.to_nat channelNumber
  else None.

(** The samples [channelPtr[0]], ..., [channelPtr[numSamples - 1]] that a loop
    over the samples of the buffer reads through a channel pointer.  Every
    channel has [numSamples] samples, so through the pointer to a channel
    they are the samples of the channel.  Through a pointer that refers to
    no channel the first read is an access through a null pointer; with no
    sample to read there is no such read. *)
Definition readSamples (channelPtr : option (list float)) (numSamples : Z)
    : result (list float) :=
  match channelPtr with
  | Some samples => Ok samples
  | None => if numSamples <=? 0 then Ok [] else Err NullPointer
  end.

(** [*(channels[destChannel] + destSample) = newValue]: the sample is
    written through the channel pointer, whatever the indices are. *)
Definition setSample (destChannel destSample : Z) (newValue : float) (b : AudioBuffer)
    : result AudioBuffer :=
  match getReadPointer destChannel b with
  | None => Err (ChannelOutOfBounds destChannel)
  | Some c =>
      if (0 <=? destSample) && (destSample <? Z.of_nat (length c))
      then Ok (<[Z.to_nat destChannel := <[Z.to_nat destSample := newValue]> c]> b)
      else Err (SampleOutOfBounds destSample)
  end.

(** [clear (channel, 0, getNumSamples ())]: the samples of the channel are
    set to zero through its pointer; with no sample nothing is written.
    (The flag by which a buffer remembers that it is all zeros, and skips
    the writing, is not modelled.) *)
Definition clearChannel (channel : Z) (b : AudioBuffer) : result AudioBuffer :=
  match getReadPointer channel b with
  | Some c => Ok (<[Z.to_nat channel := replicate (length c) 0%Q]> b)
  | None => if getNumSamples b <=? 0 then Ok b else Err (ChannelOutOfBounds channel)
  end.

(** ** [juce::AbstractFifo]

    The index bookkeeping of a ring buffer, from the JUCE library.  One slot
    of the [bufferSize] is always left unused, so that equal indices mean
    empty.  A [ScopedWrite] or [ScopedRead] obtained from [write (n)] or
    [read (n)] prepares the indices and, when it leaves scope, finishes
    with [blockSize1 + blockSize2]. *)

Module AbstractFifo.

Record t : Type := mk {
  bufferSize : Z;
  validStart : Z;
  validEnd : Z
}.

Definition create (capacity : Z) : t :=
  {| bufferSize := capacity; validStart := 0; validEnd := 0 |}.

Definition getNumReady (f : t) : Z :=
  let vs := validStart f in
  let ve := validEnd f in
  if ve >=? vs then ve - vs else bufferSize f - (vs - ve).

Definition getFreeSpace (f : t) : Z := bufferSize f - getNumReady f - 1.

Record scoped : Type := mkScoped {
  startIndex1 : Z;
  blockSize1 : Z;
  startIndex2 : Z;
  blockSize2 : Z
}.

Definition prepareToWrite (f : t) (numToWrite : Z) : scoped :=
  let vs := validStart f in
  let ve := validEnd f in
  let freeSpace := if ve >=? vs then bufferSize f - (ve - vs) else vs - ve in
  let numToWrite := Z.min numToWrite (freeSpace - 1) in
  if numToWrite <=? 0 then
    {| startIndex1 := 0; startIndex2 := 0; blockSize1 := 0; blockSize2 := 0 |}
  else
    let blockSize1 := Z.min (bufferSize f - ve) numToWrite in
    let numToWrite := numToWrite - blockSize1 in
    {| startIndex1 := ve; startIndex2 := 0; blockSize1 := blockSize1;
       blockSize2 := if numToWrite <=? 0 then 0 else Z.min numToWrite vs |}.

Definition finishedWrite (f : t) (numWritten : Z) : t :=
  let newEnd := validEnd f + numWritten in
  let newEnd := if newEnd >=? bufferSize f then newEnd - bufferSize f else newEnd in
  {| bufferSize := bufferSize f; validStart := validStart f; validEnd := newEnd |}.

Definition prepareToRead (f : t) (numWanted : Z) : scoped :=
  let vs := validStart f in
  let ve := validEnd f in
  let numReady := if ve >=? vs then ve - vs else bufferSize f - (vs - ve) in
  let numWanted := Z.min numWanted numReady in
  if numWanted <=? 0 then
    {| startIndex1 := 0; startIndex2 := 0; blockSize1 := 0; blockSize2 := 0 |}
  else
    let blockSize1 := Z.min (bufferSize f - vs) numWanted in
    let numWanted := numWanted - blockSize1 in
    {| startIndex1 := vs; startIndex2 := 0; blockSize1 := blockSize1;
       blockSize2 := if numWanted <=? 0 then 0 else Z.min numWanted ve |}.

Definition finishedRead (f : t) (numRead : Z) : t :=
  let newStart := validStart f + numRead in
  let newStart :=
    if newStart >=? bufferSize f then newStart - bufferSize f else newStart in
  {| bufferSize := bufferSize f; validStart := newStart; validEnd := validEnd f |}.

(** The indices stay inside the buffer. *)
Definition wf (f : t) : Prop :=
  0 < bufferSize f
  ∧ 0 <= validStart f < bufferSize f
  ∧ 0 <= validEnd f < bufferSize f.

End AbstractFifo.

(** ** [Fifo<T>] (PluginProcessor.h) *)

Module Fifo.

Definition Capacity : Z := 30.

Record t (T : Type) : Type := mk {
  buffers : list T;
  fifo : AbstractFifo.t
}.
Arguments mk {T} buffers fifo.
Arguments buffers {T} _.
Arguments fifo {T} _.

(** A newly constructed Fifo: [Capacity] default-constructed elements and an
    empty [AbstractFifo {Capacity}]. *)
Definition create {T} (dflt : T) : t T :=
  {| buffers := replicate (Z.to_nat Capacity) dflt;
     fifo := AbstractFifo.create Capacity |}.

(** [prepared (numChannels, numSamples)], for [T = juce::AudioBuffer<float>]:
    every slot is sized and then cleared. *)
Definition prepared (numChannels numSamples : Z) (f : t AudioBuffer) : t AudioBuffer :=
  {| buffers := (λ buffer, clear (setSize numChannels numSamples buffer)) <$> buffers f;
     fifo := fifo f |}.

Definition push {T} (x : T) (f : t T) : bool * t T :=
  let write := AbstractFifo.prepareToWrite (fifo f) 1 in
  let finished :=
    AbstractFifo.finishedWrite (fifo f)
      (AbstractFifo.blockSize1 write + AbstractFifo.blockSize2 write) in
  if AbstractFifo.blockSize1 write >? 0 then
    (true, {| buffers := <[Z.to_nat (AbstractFifo.startIndex1 write) := x]> (buffers f);
              fifo := finished |})
  else
    (false, {| buffers := buffers f; fifo := finished |}).

(** [pull (const T& t)].  The second component of the result is the
    argument after the call.  The body says [t = buffers[read.startIndex1]],
    but [t] is a reference to const: the statement cannot assign to the
    caller's object (and does not compile for [T = juce::AudioBuffer<float>]),
    so the argument is what it was.  What is left of [pull] is the read
    cursor, which moves past the oldest block, and the answer. *)
Definition pull {T} (x : T) (f : t T) : bool * T * t T :=
  let read := AbstractFifo.prepareToRead (fifo f) 1 in
  let finished :=
    AbstractFifo.finishedRead (fifo f)
      (AbstractFifo.blockSize1 read + AbstractFifo.blockSize2 read) in
  if AbstractFifo.blockSize1 read >? 0 then
    (true, x, {| buffers := buffers f; fifo := finished |})
  else
    (false, x, {| buffers := buffers f; fifo := finished |}).

Definition getNumAvailableForReading {T} (f : t T) : Z :=
  AbstractFifo.getNumReady (fifo f).

Definition wf {T} (f : t T) : Prop :=
  AbstractFifo.wf (fifo f)
  ∧ AbstractFifo.bufferSize (fifo f) = Capacity
  ∧ length (buffers f) = Z.to_nat Capacity.

(** Pushing a sequence of elements, one after the other, without a pull. *)
Definition pushAll {T} (xs : list T) (f : t T) : t T :=
  foldl (λ f x, (push x f).2) f xs.

End Fifo.

(** ** [SingleChannelSampleFifo<juce::AudioBuffer<float>>] (PluginProcessor.h) *)

Inductive Channel : Type := Right | Left.

(** [Right] is the first enumerator and [Left] the second. *)
Definition Channel_value (c : Channel) : Z :=
  match c with
  | Right => 0
  | Left => 1
  end.

(** [SingleChannelSampleFifo::prepare] calls
    [audioBufferFifo.prepare (1, bufferSize)].  [Fifo] declares no member
    [prepare] (the member that sizes and clears the slots is named
    [prepared]), so the source does not say what the call does.  The Fifo
    after the call is a parameter of the embedding, without any law. *)
Class UndeclaredMember : Type :=
  Fifo_prepare : Z → Z → Fifo.t AudioBuffer → Fifo.t AudioBuffer.

Module SingleChannelSampleFifo.

Record t : Type := mk {
  channelToUse : Channel;
  fifoIndex : Z;
  audioBufferFifo : Fifo.t AudioBuffer;
  bufferToFill : AudioBuffer;
  prepared : bool;
  size : Z
}.

(** The constructor: members take their default initialisers, buffers are
    empty. *)
Definition create (ch : Channel) : t :=
  {| channelToUse := ch; fifoIndex := 0;
     audioBufferFifo := Fifo.create [];
     bufferToFill := [];
     prepared := false; size := 0 |}.

(** [prepare (bufferSize)].  [bufferToFill] is sized and not cleared: a
    block that already has the size keeps its samples. *)
Definition prepare `{UndeclaredMember} (bufferSize : Z) (s : t) : t :=
  {| channelToUse := channelToUse s;
     fifoIndex := 0;
     audioBufferFifo := Fifo_prepare 1 bufferSize (audioBufferFifo s);
     bufferToFill := setSize 1 bufferSize (bufferToFill s);
     prepared := true;
     size := bufferSize |}.

Definition getNumCompleteBuffersAvailable (s : t) : Z :=
  Fifo.getNumAvailableForReading (audioBufferFifo s).
Definition isPrepared (s : t) : bool := prepared s.
Definition getSize (s : t) : Z := size s.

Definition getAudioBuffer (buf : AudioBuffer) (s : t) : bool * AudioBuffer * t :=
  let '(ok, buf', f) := Fifo.pull buf (audioBufferFifo s) in
  (ok, buf',
   {| channelToUse := channelToUse s; fifoIndex := fifoIndex s;
      audioBufferFifo := f; bufferToFill := bufferToFill s;
      prepared := prepared s; size := size s |}).

(** The second component of the result lists the blocks handed to
    [audioBufferFifo.push] during the call, in order: it is how the number
    of pushes is observed.  The boolean that [push] returns is ignored, as
    in the source. *)
Definition pushNextSampleIntoFifo (sample : float) (s : t)
    : result (t * list AudioBuffer) :=
  let '(index, f, pushed) :=
    if fifoIndex s =? getNumSamples (bufferToFill s) then
      (0, (Fifo.push (bufferToFill s) (audioBufferFifo s)).2, [bufferToFill s])
    else
      (fifoIndex s, audioBufferFifo s, []) in
  b ← setSample 0 index sample (bufferToFill s);
  Ok ({| channelToUse := channelToUse s; fifoIndex := index + 1;
         audioBufferFifo := f; bufferToFill := b;
         prepared := prepared s; size := size s |}, pushed).

(** The loop of [update] over the samples read through the channel
    pointer. *)
Fixpoint pushSamples (samples : list float) (s : t) : result (t * list AudioBuffer) :=
  match samples with
  | [] => Ok (s, [])
  | sample :: rest =>
      '(s1, pushed1) ← pushNextSampleIntoFifo sample s;
      '(s2, pushed2) ← pushSamples rest s1;
      Ok (s2, pushed1 ++ pushed2)
  end.

Definition update (buffer : AudioBuffer) (s : t) : result (t * list AudioBuffer) :=
  let channelPtr := getReadPointer (Channel_value (channelToUse s)) buffer in
  samples ← readSamples channelPtr (getNumSamples buffer);
  pushSamples samples s.

(** A collector as [prepare] leaves it (for a size of at least 1) and
    [update] keeps it: one channel of at least one sample to fill, the
    cursor inside it or just past it. *)
Definition wf (s : t) : Prop :=
  ∃ block, bufferToFill s = [block]
           ∧ (0 < length block)%nat
           ∧ 0 <= fifoIndex s <= Z.of_nat (length block).

End SingleChannelSampleFifo.

(** ** Allocation of coefficient objects

    The designers return newly allocated objects: each is placed at a
    location the store does not use yet.  Objects are reference counted;
    releasing them is not modelled, an object that is no longer referred to
    simply stays in the store. *)

Definition alloc (v : IIR.Coefficients) (h : heap) : loc * heap :=
  let l := fresh (dom h) in (l, <[l := v]> h).

Fixpoint allocArray (vs : list IIR.Coefficients) (h : heap) : list loc * heap :=
  match vs with
  | [] => ([], h)
  | v :: vs =>
      let '(l, h1) := alloc v h in
      let '(ls, h2) := allocArray vs h1 in
      (l :: ls, h2)
  end.

(** All nine filters of a chain refer to coefficient objects of the store. *)
Definition MonoChain_valid (h : heap) (chain : MonoChain) : Prop :=
  (∀ i : fin 4, valid h (coefficients (get i (lowCut chain))))
  ∧ valid h (coefficients (peak chain))
  ∧ (∀ i : fin 4, valid h (coefficients (get i (highCut chain)))).

Definition MonoChain_setLowCut (c : CutFilter) (chain : MonoChain) : MonoChain :=
  {| lowCut := c; peak := peak chain; highCut := highCut chain;
     lowCutBypassed := lowCutBypassed chain; peakBypassed := peakBypassed chain;
     highCutBypassed := highCutBypassed chain |}.

Definition MonoChain_setHighCut (c : CutFilter) (chain : MonoChain) : MonoChain :=
  {| lowCut := lowCut chain; peak := peak chain; highCut := c;
     lowCutBypassed := lowCutBypassed chain; peakBypassed := peakBypassed chain;
     highCutBypassed := highCutBypassed chain |}.

(** ** Numerical routines of JUCE that the program calls

    Two are left abstract: what the chain does to the samples of a block
    ([ProcessorChain::process], which reads the coefficient objects of the
    store), and the magnitude of a coefficient object's transfer function
    at a frequency, [Coefficients::getMagnitudeForFrequency (frequency,
    sampleRate)]. *)
Class JuceNumerics : Type := {
  MonoChain_process : heap → MonoChain → list float → MonoChain * list float;
  getMagnitudeForFrequency : IIR.Coefficients → R → R → R
}.

(** [std::log10] *)
Definition log10 (x : R) : R := (ln x / ln 10)%R.

(** [Decibels::gainToDecibels (gain)], with the default floor of -100 dB:
    [gain > 0 ? jmax (minusInfinityDb, log10 (gain) * 20) : minusInfinityDb]. *)
Definition gainToDecibels (gain : R) : R :=
  let minusInfinityDb := (-100)%R in
  if Rlt_dec 0 gain then Rmax minusInfinityDb (log10 gain * 20) else minusInfinityDb.

(** [mapToLog10 (value0To1, logRangeMin, logRangeMax)]:
    [pow (10, value0To1 * (logMax - logMin) + logMin)]. *)
Definition mapToLog10 (value0To1 logRangeMin logRangeMax : R) : R :=
  let logMin := log10 logRangeMin in
  let logMax := log10 logRangeMax in
  Rpower 10 (value0To1 * (logMax - logMin) + logMin).

(** The preprocessor switches of the plug-in project. *)
Class JucePlugin : Type := {
  JucePlugin_IsMidiEffect : bool;
  JucePlugin_IsSynth : bool
}.

(** ** The processor (PluginProcessor.h, PluginProcessor.cpp) *)

Inductive AudioChannelSet : Type :=
| mono
| stereo
| otherChannelSet (numChannels : Z).

Definition AudioChannelSet_size (s : AudioChannelSet) : Z :=
  match s with
  | mono => 1
  | stereo => 2
  | otherChannelSet n => n
  end.

Definition AudioChannelSet_eqb (a b : AudioChannelSet) : bool :=
  match a, b with
  | mono, mono | stereo, stereo => true
  | otherChannelSet n, otherChannelSet m => n =? m
  | _, _ => false
  end.

Record BusesLayout : Type := mkBusesLayout {
  getMainInputChannelSet : AudioChannelSet;
  getMainOutputChannelSet : AudioChannelSet
}.

Definition isBusesLayoutSupported `{JucePlugin} (layouts : BusesLayout) : bool :=
  if JucePlugin_IsMidiEffect then true
  else if negb (AudioChannelSet_eqb (getMainOutputChannelSet layouts) mono)
          && negb (AudioChannelSet_eqb (getMainOutputChannelSet layouts) stereo)
  then false
  else if negb JucePlugin_IsSynth
          && negb (AudioChannelSet_eqb (getMainOutputChannelSet layouts)
                                       (getMainInputChannelSet layouts))
  then false
  else true.

Record SimpleEQAudioProcessor : Type := mkProcessor {
  apvts : AudioProcessorValueTreeState;
  getSampleRate : float;
  getTotalNumInputChannels : Z;
  getTotalNumOutputChannels : Z;
  leftChannelFifo : SingleChannelSampleFifo.t;
  rightChannelFifo : SingleChannelSampleFifo.t;
  leftChain : MonoChain;
  rightChain : MonoChain
}.

Definition setChains (l r : MonoChain) (p : SimpleEQAudioProcessor)
    : SimpleEQAudioProcessor :=
  {| apvts := apvts p; getSampleRate := getSampleRate p;
     getTotalNumInputChannels := getTotalNumInputChannels p;
     getTotalNumOutputChannels := getTotalNumOutputChannels p;
     leftChannelFifo := leftChannelFifo p; rightChannelFifo := rightChannelFifo p;
     leftChain := l; rightChain := r |}.

Definition setFifos (l r : SingleChannelSampleFifo.t) (p : SimpleEQAudioProcessor)
    : SimpleEQAudioProcessor :=
  {| apvts := apvts p; getSampleRate := getSampleRate p;
     getTotalNumInputChannels := getTotalNumInputChannels p;
     getTotalNumOutputChannels := getTotalNumOutputChannels p;
     leftChannelFifo := l; rightChannelFifo := r;
     leftChain := leftChain p; rightChain := rightChain p |}.

Definition updatePeakFilter (chainSettings : ChainSettings)
    (p : SimpleEQAudioProcessor) (h : heap) : result heap :=
  let '(peakCoefficients, h) := alloc (makePeakFilter chainSettings (getSampleRate p)) h in
  h ← updateCoefficients (coefficients (peak (leftChain p))) (Some peakCoefficients) h;
  updateCoefficients (coefficients (peak (rightChain p))) (Some peakCoefficients) h.

Definition updateLowCutFilters (chainSettings : ChainSettings)
    (p : SimpleEQAudioProcessor) (h : heap) : result (heap * SimpleEQAudioProcessor) :=
  let '(lowCutCoefficients, h) :=
    allocArray (makeLowCutFilter chainSettings (getSampleRate p)) h in
  '(h, leftLowCut) ←
    updateCutFilter (lowCut (leftChain p)) lowCutCoefficients
                    (lowCutSlope chainSettings) h;
  '(h, rightLowCut) ←
    updateCutFilter (lowCut (rightChain p)) lowCutCoefficients
                    (lowCutSlope chainSettings) h;
  Ok (h, setChains (MonoChain_setLowCut leftLowCut (leftChain p))
                   (MonoChain_setLowCut rightLowCut (rightChain p)) p).

Definition updateHighCutFilters (chainSettings : ChainSettings)
    (p : SimpleEQAudioProcessor) (h : heap) : result (heap * SimpleEQAudioProcessor) :=
  let '(highCutCoefficients, h) :=
    allocArray (makeHighCutFilter chainSettings (getSampleRate p)) h in
  '(h, leftHighCut) ←
    updateCutFilter (highCut (leftChain p)) highCutCoefficients
                    (highCutSlope chainSettings) h;
  '(h, rightHighCut) ←
    updateCutFilter (highCut (rightChain p)) highCutCoefficients
                    (highCutSlope chainSettings) h;
  Ok (h, setChains (MonoChain_setHighCut leftHighCut (leftChain p))
                   (MonoChain_setHighCut rightHighCut (rightChain p)) p).

Definition updateFilters (p : SimpleEQAudioProcessor) (h : heap)
    : result (heap * SimpleEQAudioProcessor) :=
  let chainSettings := getChainSettings (apvts p) in
  '(h, p) ← updateLowCutFilters chainSettings p h;
  h ← updatePeakFilter chainSettings p h;
  updateHighCutFilters chainSettings p h.

(** The loop that clears the output channels without input. *)
Fixpoint clearChannels (channels : list Z) (buffer : AudioBuffer) : result AudioBuffer :=
  match channels with
  | [] => Ok buffer
  | i :: rest => buffer ← clearChannel i buffer; clearChannels rest buffer
  end.

(** [AudioBlock::getSingleChannelBlock (channel)]: the block of one channel,
    made by pointer arithmetic on the array of channel pointers.  It is the
    pointer to the channel together with the number of samples of the
    block; no sample is read. *)
Definition getSingleChannelBlock (channel : Z) (block : AudioBuffer)
    : option (list float) * Z :=
  (getReadPointer channel block, getNumSamples block).

(** [leftChain.process (leftContext)] reads the samples of the block through
    its channel pointer and writes the filtered samples in their place; it
    is here that a block of a channel the buffer does not have is first
    accessed, when it has a sample.  (A chain whose links are all bypassed
    reads nothing; the collector that reads the same channel right after
    then makes the same access, with the same outcome.) *)
Definition processBlock `{JuceNumerics} (buffer : AudioBuffer)
    (p : SimpleEQAudioProcessor) (h : heap)
    : result (heap * SimpleEQAudioProcessor * AudioBuffer) :=
  let totalNumInputChannels := getTotalNumInputChannels p in
  let totalNumOutputChannels := getTotalNumOutputChannels p in
  buffer ← clearChannels
             (seqZ totalNumInputChannels (totalNumOutputChannels - totalNumInputChannels))
             buffer;
  '(h, p) ← updateFilters p h;
  let leftBlock := getSingleChannelBlock 0 buffer in
  let rightBlock := getSingleChannelBlock 1 buffer in
  leftSamples ← readSamples leftBlock.1 leftBlock.2;
  let '(leftChain', leftOut) := MonoChain_process h (leftChain p) leftSamples in
  let buffer := <[0%nat := leftOut]> buffer in
  rightSamples ← readSamples rightBlock.1 rightBlock.2;
  let '(rightChain', rightOut) := MonoChain_process h (rightChain p) rightSamples in
  let buffer := <[1%nat := rightOut]> buffer in
  '(leftFifo, _) ← SingleChannelSampleFifo.update buffer (leftChannelFifo p);
  '(rightFifo, _) ← SingleChannelSampleFifo.update buffer (rightChannelFifo p);
  Ok (h, setFifos leftFifo rightFifo (setChains leftChain' rightChain' p), buffer).

(** ** The response-curve component (editor) *)

(** The calls the component makes that the timer is there to trigger,
    most recent first; kept to state how often they happen. *)
Inductive EditorCall : Type := CallUpdateChain | CallRepaint.

#[global] Instance EditorCall_eq_dec : EqDecision EditorCall.
Proof. solve_decision. Defined.

Record ResponseCurveComponent : Type := mkComponent {
  parametersChanged : bool;
  monoChain : MonoChain;
  calls : list EditorCall
}.

Definition parameterValueChanged (parameterIndex : Z) (newValue : float)
    (c : ResponseCurveComponent) : ResponseCurveComponent :=
  {| parametersChanged := true; monoChain := monoChain c; calls := calls c |}.

Definition updateChain (audioProcessor : SimpleEQAudioProcessor)
    (c : ResponseCurveComponent) (h : heap) : result (heap * ResponseCurveComponent) :=
  let chainSettings := getChainSettings (apvts audioProcessor) in
  let '(peakCoefficients, h) :=
    alloc (makePeakFilter chainSettings (getSampleRate audioProcessor)) h in
  h ← updateCoefficients (coefficients (peak (monoChain c))) (Some peakCoefficients) h;
  let '(lowCutCoefficients, h) :=
    allocArray (makeLowCutFilter chainSettings (getSampleRate audioProcessor)) h in
  let '(highCutCoefficients, h) :=
    allocArray (makeHighCutFilter chainSettings (getSampleRate audioProcessor)) h in
  '(h, low) ← updateCutFilter (lowCut (monoChain c)) lowCutCoefficients
                              (lowCutSlope chainSettings) h;
  '(h, high) ← updateCutFilter (highCut (monoChain c)) highCutCoefficients
                               (highCutSlope chainSettings) h;
  Ok (h, {| parametersChanged := parametersChanged c;
            monoChain := MonoChain_setHighCut high (MonoChain_setLowCut low (monoChain c));
            calls := CallUpdateChain :: calls c |}).

Definition repaint (c : ResponseCurveComponent) : ResponseCurveComponent :=
  {| parametersChanged := parametersChanged c; monoChain := monoChain c;
     calls := CallRepaint :: calls c |}.

(** [while (getNumCompleteBuffersAvailable () > 0) getAudioBuffer (temp);]
    The loop is cut off after [fuel] iterations. *)
Fixpoint drainFifo (fuel : nat) (tempIncomingBuffer : AudioBuffer)
    (s : SingleChannelSampleFifo.t) : result SingleChannelSampleFifo.t :=
  match fuel with
  | O => Err LoopCutOff
  | S fuel =>
      if SingleChannelSampleFifo.getNumCompleteBuffersAvailable s >? 0 then
        let '(_, temp, s) :=
          SingleChannelSampleFifo.getAudioBuffer tempIncomingBuffer s in
        drainFifo fuel temp s
      else Ok s
  end.

(** [parametersChanged.compareAndSetBool (false, true)]: when the flag is
    true it becomes false and the call answers true. *)
Definition compareAndSetBool (newValue valueToCompare : bool) (flag : bool)
    : bool * bool :=
  if eqb flag valueToCompare then (true, newValue) else (false, flag).

(** The state the timer callback works on: the store, the processor whose
    left-channel collector the component drains, and the component. *)
Record Plugin : Type := mkPlugin {
  store : heap;
  audioProcessor : SimpleEQAudioProcessor;
  responseCurveComponent : ResponseCurveComponent
}.

Definition timerCallback (fuel : nat) (w : Plugin) : result Plugin :=
  let p := audioProcessor w in
  let c := responseCurveComponent w in
  leftChanelFifo ← drainFifo fuel [] (leftChannelFifo p);
  let p := setFifos leftChanelFifo (rightChannelFifo p) p in
  let '(changed, flag) := compareAndSetBool false true (parametersChanged c) in
  let c := {| parametersChanged := flag; monoChain := monoChain c; calls := calls c |} in
  if changed then
    '(h, c) ← updateChain p c (store w);
    Ok {| store := h; audioProcessor := p; responseCurveComponent := repaint c |}
  else
    Ok {| store := store w; audioProcessor := p; responseCurveComponent := c |}.

(** What happens to the component after it is constructed; the constructor
    itself runs [updateChain] once and starts the timer at 60 Hz. *)
Inductive Event : Type :=
| ParameterValueChanged (parameterIndex : Z) (newValue : float)
| TimerCallback.

Definition isTimerCallback (e : Event) : bool :=
  match e with TimerCallback => true | _ => false end.

Definition handle (fuel : nat) (w : Plugin) (e : Event) : result Plugin :=
  match e with
  | ParameterValueChanged i x =>
      Ok {| store := store w; audioProcessor := audioProcessor w;
            responseCurveComponent :=
              parameterValueChanged i x (responseCurveComponent w) |}
  | TimerCallback => timerCallback fuel w
  end.

Fixpoint run (fuel : nat) (events : list Event) (w : Plugin) : result Plugin :=
  match events with
  | [] => Ok w
  | e :: rest => w ← handle fuel w e; run fuel rest w
  end.

Definition updateChainCalls (c : ResponseCurveComponent) : nat :=
  length (filter (λ call, call = CallUpdateChain) (calls c)).

(** The mirror chain of the component refers to objects of the store and the
    collector it drains is well formed. *)
Definition Plugin_wf (w : Plugin) : Prop :=
  MonoChain_valid (store w) (monoChain (responseCurveComponent w))
  ∧ Fifo.wf (SingleChannelSampleFifo.audioBufferFifo
               (leftChannelFifo (audioProcessor w))).

(** The loop of [ResponseCurveComponent::paint] that fills [magnitudes]. *)
Section Paint.

Context `{JuceNumerics}.

Definition stageMagnitude (h : heap) (chain : CutFilter) (Index : fin 4)
    (freq sampleRate : R) (mag : R) : result R :=
  if negb (isBypassed Index chain) then
    c ← deref h (coefficients (get Index chain));
    Ok (mag * getMagnitudeForFrequency c freq sampleRate)%R
  else Ok mag.

(** The frequency of column [i] of [w]:
    [mapToLog10 (double (i) / double (w), 20.0, 20000.0)]. *)
Definition sampledFrequency (w i : Z) : R :=
  mapToLog10 (IZR i / IZR w)%R 20%R 20000%R.

(** The body of the loop, for column [i]. *)
Definition magnitudeAt (h : heap) (chain : MonoChain) (sampleRate : float)
    (w i : Z) : result R :=
  let sampleRate := Q2R sampleRate in
  let mag := 1%R in
  let freq := sampledFrequency w i in
  mag ← (if negb (MonoChain_isBypassed Peak chain) then
           c ← deref h (coefficients (peak chain));
           Ok (mag * getMagnitudeForFrequency c freq sampleRate)%R
         else Ok mag);
  mag ← stageMagnitude h (lowCut chain) 0%fin freq sampleRate mag;
  mag ← stageMagnitude h (lowCut chain) 1%fin freq sampleRate mag;
  mag ← stageMagnitude h (lowCut chain) 2%fin freq sampleRate mag;
  mag ← stageMagnitude h (lowCut chain) 3%fin freq sampleRate mag;
  mag ← stageMagnitude h (highCut chain) 0%fin freq sampleRate mag;
  mag ← stageMagnitude h (highCut chain) 1%fin freq sampleRate mag;
  mag ← stageMagnitude h (highCut chain) 2%fin freq sampleRate mag;
  mag ← stageMagnitude h (highCut chain) 3%fin freq sampleRate mag;
  Ok (gainToDecibels mag).

Fixpoint fillMagnitudes (h : heap) (chain : MonoChain) (sampleRate : float)
    (w : Z) (indices : list Z) : result (list R) :=
  match indices with
  | [] => Ok []
  | i :: rest =>
      m ← magnitudeAt h chain sampleRate w i;
      ms ← fillMagnitudes h chain sampleRate w rest;
      Ok (m :: ms)
  end.

Definition paint_magnitudes (h : heap) (chain : MonoChain) (sampleRate : float)
    (w : Z) : result (list R) :=
  fillMagnitudes h chain sampleRate w (seqZ 0 w).

(** *** The response curve in the words of the specification

    For [i] in [0, width), map [i / width] log-uniformly onto
    [20 Hz, 20000 Hz]; at that frequency start with unit gain and multiply
    in the magnitude response of every stage that is not bypassed; convert
    the accumulated magnitude to decibels, [20 * log10], with a floor for a
    magnitude that is not positive.  These definitions are not taken from
    the code: the loop of [paint] is compared with them. *)

(** The stages of a chain with their bypass flags, in the order of [paint]. *)
Definition spec_stages (chain : MonoChain) : list (bool * Coefficients) :=
  (MonoChain_isBypassed Peak chain, coefficients (peak chain))
  :: ((λ i, (isBypassed i (lowCut chain), coefficients (get i (lowCut chain))))
        <$> [0%fin; 1%fin; 2%fin; 3%fin])
  ++ ((λ i, (isBypassed i (highCut chain), coefficients (get i (highCut chain))))
        <$> [0%fin; 1%fin; 2%fin; 3%fin]).

Definition spec_logUniform (x lo hi : R) : R := (lo * Rpower (hi / lo) x)%R.

Definition spec_decibels (magnitude : R) : R :=
  if Rlt_dec 0 magnitude then Rmax (-100) (20 * log10 magnitude) else (-100)%R.

Fixpoint spec_multiplyIn (h : heap) (freq sampleRate : R)
    (stages : list (bool * Coefficients)) (mag : R) : result R :=
  match stages with
  | [] => Ok mag
  | (stageBypassed, stageCoefficients) :: rest =>
      mag ← (if stageBypassed then Ok mag
             else c ← deref h stageCoefficients;
                  Ok (mag * getMagnitudeForFrequency c freq sampleRate)%R);
      spec_multiplyIn h freq sampleRate rest mag
  end.

Definition spec_responseAt (h : heap) (chain : MonoChain) (sampleRate : float)
    (freq : R) : result R :=
  mag ← spec_multiplyIn h freq (Q2R sampleRate) (spec_stages chain) 1%R;
  Ok (spec_decibels mag).

Definition spec_sampleResponse (h : heap) (chain : MonoChain) (sampleRate : float)
    (width : Z) : result (list R) :=
  mapM (λ i, spec_responseAt h chain sampleRate
               (spec_logUniform (IZR i / IZR width) 20 20000))
       (seqZ 0 width).

End Paint.

(** A processor whose chains refer to objects of the store, whose collectors
    are prepared, and whose input and output buses have the same channel
    count, as [isBusesLayoutSupported] demands of an effect. *)
Definition Processor_wf (h : heap) (p : SimpleEQAudioProcessor) : Prop :=
  MonoChain_valid h (leftChain p)
  ∧ MonoChain_valid h (rightChain p)
  ∧ SingleChannelSampleFifo.wf (leftChannelFifo p)
  ∧ SingleChannelSampleFifo.wf (rightChannelFifo p)
  ∧ SingleChannelSampleFifo.channelToUse (leftChannelFifo p) = Left
  ∧ SingleChannelSampleFifo.channelToUse (rightChannelFifo p) = Right
  ∧ getTotalNumInputChannels p = getTotalNumOutputChannels p.

(** ** Concrete states

    A store in which the filters of newly constructed chains own their
    pass-through coefficients, and chains, collectors and a processor built
    on it, as the constructors and [prepareToPlay] leave them. *)

(** A cut filter whose four stages own the objects at [l], [l+1], [l+2] and
    [l+3]; no stage is bypassed. *)
Definition CutFilter_at (l : loc) : CutFilter :=
  {| stages := [# mkFilter (Some l) []; mkFilter (Some (l + 1)%positive) [];
                  mkFilter (Some (l + 2)%positive) [];
                  mkFilter (Some (l + 3)%positive) [] ];
     bypassed := [# false; false; false; false ] |}.

(** A chain whose nine filters own the objects at [l] .. [l+8]. *)
Definition MonoChain_at (l : loc) : MonoChain :=
  {| lowCut := CutFilter_at l;
     peak := mkFilter (Some (l + 4)%positive) [];
     highCut := CutFilter_at (l + 5)%positive;
     lowCutBypassed := false; peakBypassed := false; highCutBypassed := false |}.

(** Pass-through coefficients at the locations [1 .. n]. *)
Definition passThrough_store (n : nat) : heap :=
  list_to_map ((λ i, (Pos.of_nat i, IIR.passThrough)) <$> seq 1 n).

(** The settings at which the 48 dB/Oct low cut is designed. *)
Definition settings_48 : ChainSettings :=
  {| peakFreq := 750%Q; peakGainInDecibels := 0%Q; peakQuality := 1%Q;
     lowCutFreq := 20%Q; highCutFreq := 20000%Q;
     lowCutSlope := Slope_48; highCutSlope := Slope_12 |}.

(** One cut filter at locations 1..4 and a designed array of four
    coefficient sets at locations 5..8. *)
Definition designed_array : list loc := (allocArray (makeLowCutFilter settings_48 44100%Q)
                                          (passThrough_store 4)).1.
Definition designed_store : heap := (allocArray (makeLowCutFilter settings_48 44100%Q)
                                       (passThrough_store 4)).2.

(** A store with a filter's coefficients at location 1 and a peak design at
    location 2. *)
Definition peak_store : heap :=
  (alloc (makePeakFilter (getChainSettings createParameterLayout) 44100%Q)
         (passThrough_store 1)).2.

(** The undeclared member of [Fifo] read as the declared [prepared], where
    a concrete state needs a reading. *)
Definition prepare_read_as_prepared : UndeclaredMember := Fifo.prepared.

(** A collector prepared for blocks of two samples and a stereo buffer of
    two samples. *)
Definition collector_2 : SingleChannelSampleFifo.t :=
  @SingleChannelSampleFifo.prepare prepare_read_as_prepared 2
    (SingleChannelSampleFifo.create Left).
Definition stereo_buffer_2 : AudioBuffer := [[1%Q; 2%Q]; [3%Q; 4%Q]].

(** The processor after [prepareToPlay (44100, 2)] on a stereo layout: the
    left chain owns locations 1..9 and the right chain 10..18. *)
Definition prepared_processor : SimpleEQAudioProcessor :=
  {| apvts := createParameterLayout;
     getSampleRate := 44100%Q;
     getTotalNumInputChannels := 2;
     getTotalNumOutputChannels := 2;
     leftChannelFifo := collector_2;
     rightChannelFifo :=
       @SingleChannelSampleFifo.prepare prepare_read_as_prepared 2
         (SingleChannelSampleFifo.create Right);
     leftChain := MonoChain_at 1%positive;
     rightChain := MonoChain_at 10%positive |}.

(** The plug-in with its editor open: the mirror chain of the response
    curve owns locations 19..27. *)
Definition open_plugin (flag : bool) : Plugin :=
  {| store := passThrough_store 27;
     audioProcessor := prepared_processor;
     responseCurveComponent :=
       {| parametersChanged := flag; monoChain := MonoChain_at 19%positive; calls := [] |} |}.

(** A chain with the peak and every cut stage bypassed. *)
Definition bypassed_chain : MonoChain :=
  {| lowCut := {| stages := stages (CutFilter_at 1%positive);
                  bypassed := [# true; true; true; true ] |};
     peak := mkFilter (Some 5%positive) [];
     highCut := {| stages := stages (CutFilter_at 6%positive);
                   bypassed := [# true; true; true; true ] |};
     lowCutBypassed := false; peakBypassed := true; highCutBypassed := false |}.

(** Stand-ins for the two abstract routines, where a concrete instance is
    needed: the chain passes samples through and every magnitude is 1. *)
Definition passThrough_numerics : JuceNumerics :=
  {| MonoChain_process := λ _ chain samples, (chain, samples);
     getMagnitudeForFrequency := λ _ _ _, 1%R |}.

(** The project as an audio effect: neither a MIDI effect nor a synth. *)
Definition effect_plugin : JucePlugin :=
  {| JucePlugin_IsMidiEffect := false; JucePlugin_IsSynth := false |}.

(** The default settings with the peak moved to 20 kHz, the top of its
    parameter range. *)
Definition settings_peak_20k : ChainSettings :=
  getChainSettings
    {| LowCut_Freq := 20%Q; HighCut_Freq := 20000%Q; Peak_Freq := 20000%Q;
       Peak_Gain := 0%Q; Peak_Quality := 1%Q;
       LowCut_Slope := Slope_12; HighCut_Slope := Slope_12 |}.

(** ** The blocks a Fifo holds

    The blocks that are ready to be read, oldest first: the slots from the
    read cursor on, as many as [getNumReady] counts, the cursor going back
    to slot 0 after the last slot the way [finishedRead] moves it. *)

Fixpoint ring_window {T} (bufs : list T) (size start : Z) (n : nat) : list T :=
  match n with
  | O => []
  | S n =>
      match bufs !! Z.to_nat start with
      | Some x =>
          x :: ring_window bufs size
                 (if start + 1 >=? size then start + 1 - size else start + 1) n
      | None => []
      end
  end.

Definition Fifo_contents {T} (f : Fifo.t T) : list T :=
  ring_window (Fifo.buffers f)
              (AbstractFifo.bufferSize (Fifo.fifo f))
              (AbstractFifo.validStart (Fifo.fifo f))
              (Z.to_nat (AbstractFifo.getNumReady (Fifo.fifo f))).

(** Pulling [n] times, one after the other: how many of the pulls answered
    true, and the Fifo that is left. *)
Fixpoint pullAll {T} (n : nat) (x : T) (f : Fifo.t T) : nat * Fifo.t T :=
  match n with
  | O => (O, f)
  | S n =>
      let '(ok, y, f1) := Fifo.pull x f in
      let '(k, f2) := pullAll n y f1 in
      (if ok then S k else k, f2)
  end.

(** A stereo buffer of five samples. *)
Definition stereo_buffer_5 : AudioBuffer :=
  [[1%Q; 2%Q; 3%Q; 4%Q; 5%Q]; [6%Q; 7%Q; 8%Q; 9%Q; 10%Q]].

(** The collector of the left channel, prepared for blocks of two samples,
    after it was fed the five samples of its channel: two complete blocks
    wait in its Fifo. *)
Definition collector_2_fed : SingleChannelSampleFifo.t :=
  match SingleChannelSampleFifo.update stereo_buffer_5 collector_2 with
  | Ok (s, _) => s
  | Err _ => collector_2
  end.

(** The plug-in with its editor open while audio is running: two blocks
    wait in the left collector. *)
Definition playing_plugin (flag : bool) : Plugin :=
  {| store := passThrough_store 27;
     audioProcessor :=
       setFifos collector_2_fed (rightChannelFifo prepared_processor) prepared_processor;
     responseCurveComponent :=
       {| parametersChanged := flag; monoChain := MonoChain_at 19%positive;
          calls := [] |} |}.

(** Every stage that [paint] will query (the peak unless the chain bypasses
    it, a cut stage unless its cut filter bypasses it) refers to an object
    of the store. *)
Definition queried_valid (h : heap) (chain : MonoChain) : Prop :=
  (MonoChain_isBypassed Peak chain = false → valid h (coefficients (peak chain)))
  ∧ (∀ i : fin 4, isBypassed i (lowCut chain) = false →
                  valid h (coefficients (get i (lowCut chain))))
  ∧ (∀ i : fin 4, isBypassed i (highCut chain) = false →
                  valid h (coefficients (get i (highCut chain)))).

(** A chain in which only the peak is queried, through a null pointer. *)
Definition null_peak_chain : MonoChain :=
  {| lowCut := lowCut bypassed_chain;
     peak := mkFilter None [];
     highCut := highCut bypassed_chain;
     lowCutBypassed := false; peakBypassed := false; highCutBypassed := false |}.

(** ** The nine filters of a chain *)

Inductive StagePosition : Type :=
| LowCutStage (i : fin 4)
| PeakStage
| HighCutStage (i : fin 4).

(** The coefficient pointer of the filter at a position. *)
Definition MonoChain_pointer (chain : MonoChain) (pos : StagePosition) : Coefficients :=
  match pos with
  | LowCutStage i => coefficients (get i (lowCut chain))
  | PeakStage => coefficients (peak chain)
  | HighCutStage i => coefficients (get i (highCut chain))
  end.

(** Every filter of the chain owns a coefficient object of the store: the
    nine pointers are valid and no two of them refer to the same object,
    as it is for filters that each allocated their own coefficients. *)
Definition MonoChain_owned (h : heap) (chain : MonoChain) : Prop :=
  (∀ pos, valid h (MonoChain_pointer chain pos))
  ∧ (∀ a b, a ≠ b → MonoChain_pointer chain a ≠ MonoChain_pointer chain b).

(** The location is the coefficient object of a filter of the chain. *)
Definition MonoChain_refers (chain : MonoChain) (l : loc) : Prop :=
  ∃ pos, MonoChain_pointer chain pos = Some l.

(** The coefficients the designers return for the filter at a position:
    section [i] of the Butterworth design for stage [i] of a cut filter (none
    where the design has fewer sections), the peak design for the peak. *)
Definition designedCoefficients (chainSettings : ChainSettings) (sampleRate : float)
    (pos : StagePosition) : option IIR.Coefficients :=
  match pos with
  | LowCutStage i => makeLowCutFilter chainSettings sampleRate !! fin_to_nat i
  | PeakStage => Some (makePeakFilter chainSettings sampleRate)
  | HighCutStage i => makeHighCutFilter chainSettings sampleRate !! fin_to_nat i
  end.

(** The two chains of the processor own their coefficient objects, and no
    object belongs to both. *)
Definition Processor_owned (h : heap) (p : SimpleEQAudioProcessor) : Prop :=
  MonoChain_owned h (leftChain p)
  ∧ MonoChain_owned h (rightChain p)
  ∧ ∀ a b, MonoChain_pointer (leftChain p) a ≠ MonoChain_pointer (rightChain p) b.

(** The place of a filter among the nine of a chain, in processing order. *)
Definition StagePosition_index (pos : StagePosition) : nat :=
  match pos with
  | LowCutStage i => fin_to_nat i
  | PeakStage => 4
  | HighCutStage i => 5 + fin_to_nat i
  end.

(** ** [SimpleEQAudioProcessor::prepareToPlay] (PluginProcessor.cpp)

    [leftChain.prepare (spec)] and [rightChain.prepare (spec)] reset the
    delay lines of the filters, which the embedding does not hold; the
    coefficient objects are not touched by them.  The filters are then
    updated from the parameters and both collectors prepared for blocks of
    [samplesPerBlock] samples. *)
Definition prepareToPlay `{UndeclaredMember} (sampleRate : float) (samplesPerBlock : Z)
    (p : SimpleEQAudioProcessor) (h : heap) : result (heap * SimpleEQAudioProcessor) :=
  '(h, p) ← updateFilters p h;
  Ok (h, setFifos (SingleChannelSampleFifo.prepare samplesPerBlock (leftChannelFifo p))
                  (SingleChannelSampleFifo.prepare samplesPerBlock (rightChannelFifo p))
                  p).

(** ** [juce::Rectangle<int>] and the areas of the response curve

    A rectangle is its top-left corner, width and height.  The four
    [removeFrom...] members cut a strip off one side and return the strip;
    the program discards the strip, so the members are embedded by what
    they leave.  A strip is never taller or wider than the rectangle:
    the amount is capped with [jmin]. *)
Module Rectangle.

Record t : Type := mk {
  getX : Z;
  getY : Z;
  getWidth : Z;
  getHeight : Z
}.

Definition getRight (r : t) : Z := getX r + getWidth r.
Definition getBottom (r : t) : Z := getY r + getHeight r.

Definition removeFromTop (amountToRemove : Z) (r : t) : t :=
  let removed := Z.min amountToRemove (getHeight r) in
  {| getX := getX r; getY := getY r + removed;
     getWidth := getWidth r; getHeight := getHeight r - removed |}.

Definition removeFromBottom (amountToRemove : Z) (r : t) : t :=
  let amountToRemove := Z.min amountToRemove (getHeight r) in
  {| getX := getX r; getY := getY r;
     getWidth := getWidth r; getHeight := getHeight r - amountToRemove |}.

Definition removeFromLeft (amountToRemove : Z) (r : t) : t :=
  let removed := Z.min amountToRemove (getWidth r) in
  {| getX := getX r + removed; getY := getY r;
     getWidth := getWidth r - removed; getHeight := getHeight r |}.

Definition removeFromRight (amountToRemove : Z) (r : t) : t :=
  let amountToRemove := Z.min amountToRemove (getWidth r) in
  {| getX := getX r; getY := getY r;
     getWidth := getWidth r - amountToRemove; getHeight := getHeight r |}.

(** The rectangle [inner] lies within [outer]. *)
Definition within (inner outer : t) : Prop :=
  getX outer <= getX inner ∧ getRight inner <= getRight outer
  ∧ getY outer <= getY inner ∧ getBottom inner <= getBottom outer.

End Rectangle.

(** [Component::getLocalBounds]: the component's own area, at the origin. *)
Definition getLocalBounds (width height : Z) : Rectangle.t :=
  Rectangle.mk 0 0 width height.

(** [ResponseCurveComponent::getRenderArea], from the local bounds. *)
Definition getRenderArea (localBounds : Rectangle.t) : Rectangle.t :=
  let bounds := localBounds in
  let bounds := Rectangle.removeFromTop 12 bounds in
  let bounds := Rectangle.removeFromBottom 2 bounds in
  let bounds := Rectangle.removeFromLeft 20 bounds in
  let bounds := Rectangle.removeFromRight 20 bounds in
  bounds.

(** [ResponseCurveComponent::getAnalysisArea] *)
Definition getAnalysisArea (localBounds : Rectangle.t) : Rectangle.t :=
  let bounds := getRenderArea localBounds in
  let bounds := Rectangle.removeFromTop 4 bounds in
  let bounds := Rectangle.removeFromBottom 4 bounds in
  bounds.

(** [juce::jmap (sourceValue, sourceRangeMin, sourceRangeMax, targetRangeMin,
    targetRangeMax)] *)
Definition jmap (sourceValue sourceRangeMin sourceRangeMax
                 targetRangeMin targetRangeMax : R) : R :=
  (targetRangeMin
   + ((targetRangeMax - targetRangeMin) * (sourceValue - sourceRangeMin))
     / (sourceRangeMax - sourceRangeMin))%R.

(** [std::vector::front]: the first element; there is none in an empty
    vector, and reading it is an access at index 0 outside the vector. *)
Definition front (v : list R) : result R :=
  orFault (SampleOutOfBounds 0) (head v).

(** The part of [ResponseCurveComponent::paint] that builds the path of the
    response curve: the magnitudes of the columns of the analysis area,
    then [startNewSubPath] at the first magnitude and one [lineTo] for every
    further one.  The result is the list of the points of the path. *)
Definition paint_responseCurve `{JuceNumerics} (h : heap) (chain : MonoChain)
    (sampleRate : float) (localBounds : Rectangle.t) : result (list (R * R)) :=
  let responseArea := getAnalysisArea localBounds in
  let w := Rectangle.getWidth responseArea in
  magnitudes ← paint_magnitudes h chain sampleRate w;
  let outputMin := IZR (Rectangle.getBottom responseArea) in
  let outputMax := IZR (Rectangle.getY responseArea) in
  let map := λ input, jmap input (-24)%R 24%R outputMin outputMax in
  first ← front magnitudes;
  Ok ((IZR (Rectangle.getX responseArea), map first)
      :: imap (λ i m, (IZR (Rectangle.getX responseArea + Z.of_nat (S i)), map m))
              (tail magnitudes)).

(** The host hands the processor one block after the other. *)
Fixpoint processBlocks `{JuceNumerics} (buffers : list AudioBuffer)
    (p : SimpleEQAudioProcessor) (h : heap)
    : result (heap * SimpleEQAudioProcessor * list AudioBuffer) :=
  match buffers with
  | [] => Ok (h, p, [])
  | buffer :: rest =>
      '(h, p, out) ← processBlock buffer p h;
      '(h, p, outs) ← processBlocks rest p h;
      Ok (h, p, out :: outs)
  end.

(** * Properties *)

(** ** The coefficient designers *)

Section Designers.

Implicit Types (cs : ChainSettings) (sampleRate : float).

Lemma highpass_sections frequency sampleRate order :
  Z.rem order 2 = 0 →
  length (FilterDesign.designIIRHighpassHighOrderButterworthMethod
            frequency sampleRate order) = Z.to_nat (Z.quot order 2).
Proof.
  intros Heven. unfold FilterDesign.designIIRHighpassHighOrderButterworthMethod.
  rewrite Heven. simpl. by rewrite length_fmap, length_seqZ.
Qed.

Lemma lowpass_sections frequency sampleRate order :
  Z.rem order 2 = 0 →
  length (FilterDesign.designIIRLowpassHighOrderButterworthMethod
            frequency sampleRate order) = Z.to_nat (Z.quot order 2).
Proof.
  intros Heven. unfold FilterDesign.designIIRLowpassHighOrderButterworthMethod.
  rewrite Heven. simpl. by rewrite length_fmap, length_seqZ.
Qed.

Lemma design_order_even (s : Slope) :
  Z.rem ((Slope_value s + 1) * 2) 2 = 0
  ∧ Z.to_nat (Z.quot ((Slope_value s + 1) * 2) 2) = S (Slope_stage s).
Proof. by destruct s. Qed.

Lemma makeLowCutFilter_length cs sampleRate :
  length (makeLowCutFilter cs sampleRate) = S (Slope_stage (lowCutSlope cs)).
Proof.
  unfold makeLowCutFilter.
  destruct (design_order_even (lowCutSlope cs)) as [He Hn].
  by rewrite highpass_sections.
Qed.

Lemma makeHighCutFilter_length cs sampleRate :
  length (makeHighCutFilter cs sampleRate) = S (Slope_stage (highCutSlope cs)).
Proof.
  unfold makeHighCutFilter.
  destruct (design_order_even (highCutSlope cs)) as [He Hn].
  by rewrite lowpass_sections.
Qed.



Lemma Forall_fmap_const {A B} (P : B → Prop) (f : A → B) (l : list A) :
  (∀ a, P (f a)) → Forall P (f <$> l).
Proof. intros HP. induction l; constructor; auto. Qed.

(** C6, as the code has it: the designers hand the frequency and the
    quality of the settings to the JUCE design routines unchanged; no
    comparison with [sampleRate / 2] and no clamp takes place, whatever
    the values are. *)
Theorem designers_pass_parameters_unclamped cs sampleRate :
  IIR.requestedFrequency (makePeakFilter cs sampleRate) = Some (peakFreq cs)
  ∧ IIR.requestedQuality (makePeakFilter cs sampleRate)
    = Some (IIR.QGiven (peakQuality cs))
  ∧ Forall (λ c, IIR.requestedFrequency c = Some (lowCutFreq cs))
           (makeLowCutFilter cs sampleRate)
  ∧ Forall (λ c, IIR.requestedFrequency c = Some (highCutFreq cs))
           (makeHighCutFilter cs sampleRate).
Proof.
  repeat split; [| ].
  - unfold makeLowCutFilter, FilterDesign.designIIRHighpassHighOrderButterworthMethod.
    destruct (design_order_even (lowCutSlope cs)) as [-> _]. simpl.
    by apply Forall_fmap_const.
  - unfold makeHighCutFilter, FilterDesign.designIIRLowpassHighOrderButterworthMethod.
    destruct (design_order_even (highCutSlope cs)) as [-> _]. simpl.
    by apply Forall_fmap_const.
Qed.

(** C6 fails as stated: with the default high-cut frequency of 20 kHz and
    a peak at 20 kHz, at a sample rate of 32 kHz (Nyquist 16 kHz), both
    designs are requested above the Nyquist frequency. *)
Lemma designers_do_not_clamp :
  ¬ belowNyquist 32000%Q (makePeakFilter settings_peak_20k 32000%Q)
  ∧ ¬ Forall (belowNyquist 32000%Q) (makeHighCutFilter settings_peak_20k 32000%Q).
Proof.
  split.
  - by vm_compute.
  - intros H. apply Forall_cons_1 in H as [H _]. by vm_compute in H.
Qed.

End Designers.

(** ** Replacing coefficients *)

Section CoefficientStore.

Implicit Types (h : heap) (p old replacements : Coefficients) (o r l : loc).
Implicit Types (chain : CutFilter) (coeffs : list loc).

Lemma valid_inv h p : valid h p ↔ ∃ l v, p = Some l ∧ h !! l = Some v.
Proof.
  unfold valid, is_Ok, deref. split.
  - intros [v Hv]. destruct p as [l|]; simpl in *; [|done].
    destruct (h !! l) as [w|] eqn:Hl; simpl in *; [|done]. by exists l, w.
  - intros (l & v & -> & Hl). exists v. simpl. by rewrite Hl.
Qed.

Lemma deref_lookup h l v : h !! l = Some v → deref h (Some l) = Ok v.
Proof. intros Hl. unfold deref. simpl. by rewrite Hl. Qed.

Lemma valid_insert h o v p : valid h p → valid (<[o := v]> h) p.
Proof.
  rewrite !valid_inv. intros (l & w & -> & Hl).
  destruct (decide (o = l)) as [->|Hne].
  - exists l, v. by rewrite lookup_insert_eq.
  - exists l, w. by rewrite lookup_insert_ne.
Qed.

Lemma updateCoefficients_Ok h o r v :
  h !! r = Some v → is_Some (h !! o) →
  updateCoefficients (Some o) (Some r) h = Ok (<[o := v]> h).
Proof.
  intros Hr [w Ho]. unfold updateCoefficients.
  rewrite (deref_lookup _ _ _ Hr), (deref_lookup _ _ _ Ho). done.
Qed.

(** C2, as the code has it: [updateCoefficients] assigns the value of the
    replacement object to the object [old] points to.  The object is
    overwritten in place: afterwards the location [old] refers to holds the
    replacement's value, no location is added to the store, and every other
    object is as before.  The pointer itself is not re-seated. *)
Theorem updateCoefficients_overwrites_in_place h o r v :
  h !! r = Some v → is_Some (h !! o) →
  ∃ h', updateCoefficients (Some o) (Some r) h = Ok h'
        ∧ h' !! o = Some v
        ∧ dom h' = dom h
        ∧ ∀ l, l ≠ o → h' !! l = h !! l.
Proof.
  intros Hr Ho. exists (<[o := v]> h). split; [by apply updateCoefficients_Ok|].
  split; [by rewrite lookup_insert_eq|]. split.
  - by apply dom_insert_lookup_L.
  - intros l Hl. by rewrite lookup_insert_ne.
Qed.

(** C2 fails as stated: in [peak_store] the default coefficients a filter
    owns at location 1 are overwritten by the peak design of location 2. *)
Lemma updateCoefficients_mutates_old_object :
  ∃ h', updateCoefficients (Some 1%positive) (Some 2%positive) peak_store = Ok h'
        ∧ peak_store !! 1%positive = Some IIR.passThrough
        ∧ h' !! 1%positive ≠ peak_store !! 1%positive.
Proof.
  eexists. split; [by vm_compute|]. split; [by vm_compute|]. by vm_compute.
Qed.

Lemma get_setBypassed i j b chain : get i (setBypassed j b chain) = get i chain.
Proof. done. Qed.

Lemma update_Ok (Index : fin 4) coeffs h chain o r v :
  coefficients (get Index chain) = Some o → array_at coeffs Index = Some r →
  h !! r = Some v → is_Some (h !! o) →
  update Index coeffs (h, chain) = Ok (<[o := v]> h, setBypassed Index false chain).
Proof.
  intros Ho Hr Hv Hs. unfold update. simpl. rewrite Ho, Hr.
  by rewrite (updateCoefficients_Ok _ _ _ _ Hv Hs).
Qed.

(** What the four [setBypassed<i>(true)] calls and the labels entered at
    [slope] leave in the bypass flags. *)
Lemma bypass_flags_after (v : vec bool 4) (slope : Slope) (i : fin 4) :
  (match slope with
   | Slope_12 => vinsert 0%fin false
   | Slope_24 => λ w, vinsert 0%fin false (vinsert 1%fin false w)
   | Slope_36 => λ w, vinsert 0%fin false (vinsert 1%fin false (vinsert 2%fin false w))
   | Slope_48 => λ w, vinsert 0%fin false (vinsert 1%fin false
                        (vinsert 2%fin false (vinsert 3%fin false w)))
   end (vinsert 3%fin true (vinsert 2%fin true (vinsert 1%fin true
          (vinsert 0%fin true v))))) !!! i
  = bool_decide (Slope_stage slope < fin_to_nat i)%nat.
Proof.
  inv_vec v; intros b0 b1 b2 b3.
  destruct slope; repeat (inv_fin i; [reflexivity | intros i]); inv_fin i.
Qed.


Lemma update_bind (Index : fin 4) coeffs h chain
    (k : heap * CutFilter → result (heap * CutFilter)) :
  valid h (coefficients (get Index chain)) → valid h (array_at coeffs Index) →
  ∃ o r v, coefficients (get Index chain) = Some o
           ∧ array_at coeffs Index = Some r ∧ h !! r = Some v
           ∧ update Index coeffs (h, chain) ≫= k
             = k (<[o := v]> h, setBypassed Index false chain).
Proof.
  intros (o & w & Ho & Hw)%valid_inv (r & v & Hr & Hv)%valid_inv.
  exists o, r, v. repeat split; try done.
  by rewrite (update_Ok _ _ _ _ _ _ _ Ho Hr Hv (mk_is_Some _ _ Hw)).
Qed.

Lemma result_bind_ret {A} (r : result A) : r ≫= Ok = r.
Proof. by destruct r. Qed.

Lemma result_bind_Ok {A B} (a : A) (k : A → result B) : Ok a ≫= k = k a.
Proof. done. Qed.

(** One label of the switch: the stage and the array entry are valid now,
    and stay valid in the store the label leaves behind. *)
Ltac enter_label H i :=
  let o := fresh "o" in let r := fresh "r" in let v := fresh "v" in
  let Ho := fresh "Ho" in let Hr := fresh "Hr" in let Hv := fresh "Hv" in
  let Hk := fresh "Hk" in
  match goal with
  | |- context [update i ?coeffs (?h, ?chain) ≫= ?k] =>
      destruct (update_bind i coeffs h chain k) as (o & r & v & Ho & Hr & Hv & Hk);
      [ repeat apply valid_insert; apply (H i); unfold Slope_stage; simpl; lia
      | repeat apply valid_insert; apply (H i); unfold Slope_stage; simpl; lia
      | rewrite Hk; clear Hk ]
  end.

Lemma updateCutFilter_runs h chain coeffs slope :
  reachable_valid h chain coeffs slope →
  ∃ h' chain', updateCutFilter chain coeffs slope h = Ok (h', chain')
    ∧ stages chain' = stages chain
    ∧ keeps_valid h h'
    ∧ ∀ i : fin 4,
        isBypassed i chain' = bool_decide (Slope_stage slope < fin_to_nat i)%nat.
Proof.
  intros H. unfold updateCutFilter.
  destruct slope; [| | |unfold case_Slope_48; enter_label H (3%fin : fin 4)];
    [| |unfold case_Slope_36; enter_label H (2%fin : fin 4)..];
    [|unfold case_Slope_24; enter_label H (1%fin : fin 4)..];
    unfold case_Slope_12; rewrite <- (result_bind_ret (update 0%fin _ _));
    enter_label H (0%fin : fin 4);
    (do 2 eexists; split; [reflexivity|]; split; [reflexivity|];
     split; [intros p Hp; by repeat apply valid_insert|]; intros i).
  - apply (bypass_flags_after (bypassed chain) Slope_12 i).
  - apply (bypass_flags_after (bypassed chain) Slope_24 i).
  - apply (bypass_flags_after (bypassed chain) Slope_36 i).
  - apply (bypass_flags_after (bypassed chain) Slope_48 i).
Qed.

Lemma result_bind_inv {A B} (r : result A) (k : A → result B) (b : B) :
  r ≫= k = Ok b → ∃ a, r = Ok a ∧ k a = Ok b.
Proof. destruct r as [a|e]; [|done]. intros Hk. by exists a. Qed.

(** A label that returns has un-bypassed its stage and left the others as
    they were. *)
Lemma update_flags (Index : fin 4) coeffs h chain h' chain' :
  update Index coeffs (h, chain) = Ok (h', chain') →
  chain' = setBypassed Index false chain.
Proof.
  unfold update. intros (h1 & _ & Heq)%result_bind_inv. simpl in Heq. congruence.
Qed.

Lemma updateCutFilter_flags h chain coeffs slope h' chain' (i : fin 4) :
  updateCutFilter chain coeffs slope h = Ok (h', chain') →
  isBypassed i chain' = bool_decide (Slope_stage slope < fin_to_nat i)%nat.
Proof.
  unfold updateCutFilter.
  destruct slope;
    unfold case_Slope_48, case_Slope_36, case_Slope_24, case_Slope_12;
    intros Hrun;
    repeat match type of Hrun with
           | _ ≫= _ = Ok _ =>
               let hs := fresh "hs" in
               let cs := fresh "cs" in
               let Hcs := fresh "Hcs" in
               apply result_bind_inv in Hrun as ([hs cs] & Hcs%update_flags & Hrun);
               subst cs
           end;
    apply update_flags in Hrun; subst chain'.
  - apply (bypass_flags_after (bypassed chain) Slope_12 i).
  - apply (bypass_flags_after (bypassed chain) Slope_24 i).
  - apply (bypass_flags_after (bypassed chain) Slope_36 i).
  - apply (bypass_flags_after (bypassed chain) Slope_48 i).
Qed.

(** C3: for every slope [s], chain and coefficient array, whenever
    [updateCutFilter] returns, stages [0..s] are not bypassed and stages
    [s+1..3] are bypassed, whatever coefficients the stages held; and the
    call does return whenever the stage pointers and array entries [0..s]
    that it dereferences are valid. *)
Theorem updateCutFilter_bypass_pattern h chain coeffs slope :
  (∀ h' chain', updateCutFilter chain coeffs slope h = Ok (h', chain') →
     ∀ i : fin 4,
       isBypassed i chain' = bool_decide (Slope_stage slope < fin_to_nat i)%nat)
  ∧ (reachable_valid h chain coeffs slope →
     is_Ok (updateCutFilter chain coeffs slope h)).
Proof.
  split.
  - intros h' chain' Hrun i. by eapply updateCutFilter_flags.
  - intros H.
    destruct (updateCutFilter_runs h chain coeffs slope H)
      as (h' & chain' & Hrun & _).
    by exists (h', chain').
Qed.

Lemma deref_insert_eq h o v : deref (<[o := v]> h) (Some o) = Ok v.
Proof. apply deref_lookup, lookup_insert_eq. Qed.

Lemma deref_insert_ne h o v p : p ≠ Some o → deref (<[o := v]> h) p = deref h p.
Proof.
  intros Hp. destruct p as [l|]; [|done]. unfold deref. simpl.
  rewrite lookup_insert_ne; [done|congruence].
Qed.

(** The objects named by the hypotheses in the context are different. *)
Ltac separate_facts Hst Harr :=
  repeat match goal with
  | Ho : coefficients (get ?a ?chain) = Some ?oa,
    Hr : array_at ?coeffs ?b = Some ?rb |- _ =>
      lazymatch goal with
      | _ : rb ≠ oa |- _ => fail
      | _ => assert (rb ≠ oa) by (intros ->; exact (Harr a b oa Ho Hr))
      end
  | Ho : coefficients (get ?a ?chain) = Some ?oa,
    Ho' : coefficients (get ?b ?chain) = Some ?ob |- _ =>
      lazymatch a with b => fail | _ => idtac end;
      lazymatch goal with
      | _ : ob ≠ oa |- _ => fail
      | _ => assert (ob ≠ oa)
               by (intros ->; exact (Hst a b oa ltac:(discriminate) Ho Ho'))
      end
  end.

Ltac decide_reached :=
  first [ rewrite bool_decide_eq_true_2 by (vm_compute; lia)
        | rewrite bool_decide_eq_false_2 by (vm_compute; lia) ].

Ltac stage_value Hst :=
  decide_reached;
  first
    [ (* a stage the slope reaches *)
      match goal with
      | Ho : coefficients (get ?a ?chain) = Some _,
        Hr : array_at ?coeffs ?a = Some _ |- context [array_at ?coeffs ?a] =>
          rewrite Ho, Hr
      end;
      repeat first [ rewrite deref_insert_eq
                   | rewrite deref_insert_ne by congruence ];
      symmetry; by apply deref_lookup
    | (* a stage above the slope *)
      rewrite !deref_insert_ne; [done | ..];
      (eapply Hst; cycle 1; [eassumption | discriminate]) ].

(** C4, as the code has it: [updateCutFilter] first marks all four stages
    bypassed; then every stage [i <= slope] is assigned the value of
    [coefficients[i]] and un-bypassed.  A stage above the slope is not
    assigned: it keeps the coefficients it had before the call. *)
Theorem updateCutFilter_assigns_reached_stages h chain coeffs slope :
  reachable_valid h chain coeffs slope → separate chain coeffs →
  ∃ h' chain', updateCutFilter chain coeffs slope h = Ok (h', chain')
    ∧ stages chain' = stages chain
    ∧ ∀ i : fin 4,
        deref h' (coefficients (get i chain'))
        = if bool_decide (fin_to_nat i ≤ Slope_stage slope)%nat
          then deref h (array_at coeffs i)
          else deref h (coefficients (get i chain)).
Proof.
  intros H [Hst Harr]. unfold updateCutFilter.
  destruct slope; [| | |unfold case_Slope_48; enter_label H (3%fin : fin 4)];
    [| |unfold case_Slope_36; enter_label H (2%fin : fin 4)..];
    [|unfold case_Slope_24; enter_label H (1%fin : fin 4)..];
    unfold case_Slope_12; rewrite <- (result_bind_ret (update 0%fin _ _));
    enter_label H (0%fin : fin 4);
    (do 2 eexists; split; [reflexivity|]; split; [reflexivity|]; intros i);
    rewrite !get_setBypassed in *;
    separate_facts Hst Harr;
    repeat match goal with
           | Hv : <[_ := _]> _ !! _ = Some _ |- _ =>
               rewrite lookup_insert_ne in Hv by congruence
           end;
    repeat (inv_fin i; [stage_value Hst | intros i]); inv_fin i.
Qed.

(** C4 fails as stated: at slope 12 dB/Oct, with an array of four designed
    coefficient sets, the fourth stage still has its pass-through
    coefficients after the call, not the fourth set of the array. *)
Lemma updateCutFilter_leaves_upper_stages :
  ∃ h' chain',
    updateCutFilter (CutFilter_at 1%positive) designed_array Slope_12 designed_store
    = Ok (h', chain')
    ∧ deref h' (coefficients (get 3%fin chain')) = Ok IIR.passThrough
    ∧ deref h' (coefficients (get 3%fin chain'))
      ≠ deref h' (array_at designed_array 3%fin).
Proof.
  do 2 eexists. split; [by vm_compute|]. split; [by vm_compute|]. by vm_compute.
Qed.

End CoefficientStore.

(** ** The block FIFO *)

(** Case analysis on the integer comparisons of a goal. *)
Ltac cases_Z :=
  repeat (rewrite ?Z.geb_leb, ?Z.gtb_ltb in *;
          match goal with
          | |- context [?a <=? ?b] => destruct (Z.leb_spec a b)
          | |- context [?a <? ?b] => destruct (Z.ltb_spec a b)
          | H : context [?a <=? ?b] |- _ => destruct (Z.leb_spec a b)
          | H : context [?a <? ?b] |- _ => destruct (Z.ltb_spec a b)
          end);
  simpl in *.

Section FifoProperties.

Context {T : Type}.
Implicit Types (f : Fifo.t T) (x : T) (xs : list T).

Lemma push_full f x :
  Fifo.wf f → AbstractFifo.getFreeSpace (Fifo.fifo f) = 0 →
  Fifo.push x f = (false, f).
Proof.
  destruct f as [bufs [bs vs ve]]. intros ((Hb & Hs & He) & Hc & Hl).
  unfold AbstractFifo.getFreeSpace, AbstractFifo.getNumReady, Fifo.push,
    AbstractFifo.prepareToWrite, AbstractFifo.finishedWrite.
  simpl in *. intros Hfull.
  cases_Z; try lia; repeat f_equal; lia.
Qed.

Lemma pull_empty f x :
  Fifo.wf f → Fifo.getNumAvailableForReading f = 0 →
  Fifo.pull x f = (false, x, f).
Proof.
  destruct f as [bufs [bs vs ve]]. intros ((Hb & Hs & He) & Hc & Hl).
  unfold Fifo.getNumAvailableForReading, AbstractFifo.getNumReady, Fifo.pull,
    AbstractFifo.prepareToRead, AbstractFifo.finishedRead.
  simpl in *. intros Hempty.
  cases_Z; try lia; repeat f_equal; lia.
Qed.

Lemma create_wf (dflt : T) : Fifo.wf (Fifo.create dflt).
Proof.
  unfold Fifo.wf, AbstractFifo.wf, Fifo.create, Fifo.Capacity. simpl.
  split; [lia|]. split; [done|]. apply (length_replicate 30 dflt).
Qed.

Lemma pull_wf f x : Fifo.wf f → Fifo.wf (Fifo.pull x f).2.
Proof.
  destruct f as [bufs [bs vs ve]]. intros ((Hb & Hs & He) & Hc & Hl).
  unfold Fifo.wf, AbstractFifo.wf, Fifo.pull,
    AbstractFifo.prepareToRead, AbstractFifo.finishedRead.
  simpl in *.
  cases_Z; repeat split; try done; lia.
Qed.

Lemma push_wf f x : Fifo.wf f → Fifo.wf (Fifo.push x f).2.
Proof.
  destruct f as [bufs [bs vs ve]]. intros ((Hb & Hs & He) & Hc & Hl).
  unfold Fifo.wf, AbstractFifo.wf, Fifo.push,
    AbstractFifo.prepareToWrite, AbstractFifo.finishedWrite.
  simpl in *.
  cases_Z; rewrite ?length_insert; repeat split; try done; lia.
Qed.

Lemma push_free_space f x :
  Fifo.wf f →
  AbstractFifo.getFreeSpace (Fifo.fifo (Fifo.push x f).2)
  = Z.max 0 (AbstractFifo.getFreeSpace (Fifo.fifo f) - 1).
Proof.
  destruct f as [bufs [bs vs ve]]. intros ((Hb & Hs & He) & Hc & Hl).
  unfold AbstractFifo.getFreeSpace, AbstractFifo.getNumReady, Fifo.push,
    AbstractFifo.prepareToWrite, AbstractFifo.finishedWrite.
  simpl in *.
  cases_Z; lia.
Qed.

Lemma pushAll_wf xs f : Fifo.wf f → Fifo.wf (Fifo.pushAll xs f).
Proof.
  revert f. induction xs as [|x xs IH]; intros f Hf; [done|].
  apply IH. by apply push_wf.
Qed.

Lemma pushAll_free_space xs f :
  Fifo.wf f →
  AbstractFifo.getFreeSpace (Fifo.fifo (Fifo.pushAll xs f))
  = Z.max 0 (AbstractFifo.getFreeSpace (Fifo.fifo f) - Z.of_nat (length xs)).
Proof.
  revert f. induction xs as [|x xs IH]; intros f Hf.
  - destruct f as [bufs [bs vs ve]]. destruct Hf as ((Hb & Hs & He) & Hc & Hl).
    unfold Fifo.pushAll, AbstractFifo.getFreeSpace, AbstractFifo.getNumReady.
    simpl in *. cases_Z; lia.
  - change (Fifo.pushAll (x :: xs) f) with (Fifo.pushAll xs (Fifo.push x f).2).
    rewrite IH by by apply push_wf. rewrite push_free_space by done.
    simpl length. lia.
Qed.

Lemma free_space_le f :
  Fifo.wf f → AbstractFifo.getFreeSpace (Fifo.fifo f) <= Fifo.Capacity - 1.
Proof.
  destruct f as [bufs [bs vs ve]]. intros ((Hb & Hs & He) & Hc & Hl).
  unfold AbstractFifo.getFreeSpace, AbstractFifo.getNumReady.
  simpl in *. cases_Z; lia.
Qed.

(** A push succeeds exactly when a slot is free. *)
Lemma push_succeeds_iff f x :
  Fifo.wf f →
  (Fifo.push x f).1 = true ↔ 0 < AbstractFifo.getFreeSpace (Fifo.fifo f).
Proof.
  destruct f as [bufs [bs vs ve]]. intros ((Hb & Hs & He) & Hc & Hl).
  unfold AbstractFifo.getFreeSpace, AbstractFifo.getNumReady, Fifo.push,
    AbstractFifo.prepareToWrite, AbstractFifo.finishedWrite.
  simpl in *.
  cases_Z; split; intros; try done; lia.
Qed.

(** [juce::AbstractFifo] keeps one slot unused: a new Fifo has
    [Capacity - 1] free slots. *)
Lemma create_free_space (dflt : T) :
  AbstractFifo.getFreeSpace (Fifo.fifo (Fifo.create dflt)) = Fifo.Capacity - 1.
Proof. reflexivity. Qed.

(** C7: on a well-formed Fifo, [push] with no free slot returns false and
    leaves the stored blocks and both cursors as they were, and so does
    [pull] when nothing is ready to read.  After [Capacity] pushes without
    a pull (after [Capacity - 1] already) the Fifo has no free slot, so the
    next push is such a push.  Neither function loops or waits. *)
Theorem push_on_full_and_pull_on_empty f x :
  Fifo.wf f →
  (AbstractFifo.getFreeSpace (Fifo.fifo f) = 0 → Fifo.push x f = (false, f))
  ∧ (Fifo.getNumAvailableForReading f = 0 → Fifo.pull x f = (false, x, f))
  ∧ (∀ xs, Fifo.Capacity - 1 <= Z.of_nat (length xs) →
           Fifo.push x (Fifo.pushAll xs f) = (false, Fifo.pushAll xs f)).
Proof.
  intros Hf. split; [by apply push_full|]. split; [by apply pull_empty|].
  intros xs Hlen. apply push_full; [by apply pushAll_wf|].
  rewrite pushAll_free_space by done.
  pose proof (free_space_le f Hf). lia.
Qed.

End FifoProperties.

(** ** The sample collector *)

Section Collector.

Import SingleChannelSampleFifo.
Implicit Types (s : SingleChannelSampleFifo.t) (block samples : list float).

Lemma setSample_single block (k : nat) (x : float) :
  (k < length block)%nat →
  setSample 0 (Z.of_nat k) x [block] = Ok [<[k := x]> block].
Proof.
  intros Hk. unfold setSample, getReadPointer, getNumChannels. simpl.
  destruct (Z.ltb_spec (Z.of_nat k) (Z.of_nat (length block))); [|lia].
  destruct (Z.leb_spec 0 (Z.of_nat k)); [|lia]. simpl.
  by rewrite Nat2Z.id.
Qed.

(** Writing a sample while the cursor is inside the block: no push. *)
Lemma pushNextSample_inside s block (k : nat) (x : float) :
  bufferToFill s = [block] → fifoIndex s = Z.of_nat k → (k < length block)%nat →
  pushNextSampleIntoFifo x s
  = Ok ({| channelToUse := channelToUse s; fifoIndex := Z.of_nat (S k);
           audioBufferFifo := audioBufferFifo s;
           bufferToFill := [<[k := x]> block];
           prepared := prepared s; size := size s |}, []).
Proof.
  intros Hb Hi Hk. unfold pushNextSampleIntoFifo. rewrite Hb, Hi. simpl.
  destruct (Z.eqb_spec (Z.of_nat k) (Z.of_nat (length block))); [lia|].
  rewrite setSample_single by done. simpl. do 3 f_equal. lia.
Qed.

(** Writing a sample when the cursor is just past the block: the block is
    pushed, the cursor restarts at 0 and the sample goes to slot 0. *)
Lemma pushNextSample_past s block (x : float) :
  bufferToFill s = [block] → fifoIndex s = Z.of_nat (length block) →
  (0 < length block)%nat →
  pushNextSampleIntoFifo x s
  = Ok ({| channelToUse := channelToUse s; fifoIndex := 1;
           audioBufferFifo := (Fifo.push [block] (audioBufferFifo s)).2;
           bufferToFill := [<[0%nat := x]> block];
           prepared := prepared s; size := size s |}, [[block]]).
Proof.
  intros Hb Hi Hk. unfold pushNextSampleIntoFifo. rewrite Hb, Hi. simpl.
  rewrite Z.eqb_refl.
  pose proof (setSample_single block 0 x Hk) as Hset.
  change (Z.of_nat 0) with 0 in Hset.
  by rewrite Hset.
Qed.

(** Feeding samples that fit between the cursor and the end of the block:
    they are stored, nothing is pushed. *)
Lemma pushSamples_fit samples : ∀ s block (k : nat),
  bufferToFill s = [block] → fifoIndex s = Z.of_nat k →
  (k + length samples ≤ length block)%nat →
  ∃ s', pushSamples samples s = Ok (s', [])
        ∧ fifoIndex s' = Z.of_nat (k + length samples)
        ∧ bufferToFill s'
          = [take k block ++ samples ++ drop (k + length samples) block]
        ∧ audioBufferFifo s' = audioBufferFifo s
        ∧ channelToUse s' = channelToUse s
        ∧ prepared s' = prepared s ∧ size s' = size s.
Proof.
  induction samples as [|x samples IH]; intros s block k Hb Hi Hk.
  - exists s. simpl. rewrite Nat.add_0_r, take_drop. by rewrite Hb, Hi.
  - simpl in Hk. simpl pushSamples.
    rewrite (pushNextSample_inside s block k x Hb Hi) by lia. simpl.
    match goal with
    | |- context [pushSamples samples ?st] =>
        destruct (IH st (<[k := x]> block) (S k))
          as (s' & -> & Hi' & Hb' & Hf & Hc & Hp & Hs);
        [reflexivity | reflexivity | rewrite length_insert; lia |]
    end.
    exists s'. simpl. split; [done|]. split; [rewrite Hi'; f_equal; simpl; lia|].
    split; [|done]. rewrite Hb'. f_equal.
    replace (S k + length samples)%nat with (k + S (length samples))%nat by lia.
    rewrite drop_insert_lt by lia.
    rewrite (take_S_r _ _ x) by (apply list_lookup_insert_eq; lia).
    rewrite take_insert_ge by lia. by rewrite <- app_assoc.
Qed.



End Collector.

(** ** The response curve *)

Section ResponseCurve.

Context `{JuceNumerics}.
Implicit Types (h : heap) (chain : MonoChain) (sampleRate : float).

Lemma ln_10_pos : (0 < ln 10)%R.
Proof. rewrite <- ln_1. apply ln_increasing; lra. Qed.

(** Unit gain is 0 dB: [log10 (1) * 20] is 0, above the floor. *)
Lemma gainToDecibels_unit : gainToDecibels 1 = 0%R.
Proof.
  unfold gainToDecibels, log10. cbv zeta.
  destruct (Rlt_dec 0 1) as [_|Hn]; [|lra].
  rewrite ln_1. unfold Rdiv. rewrite !Rmult_0_l. apply Rmax_right. lra.
Qed.

Lemma gainToDecibels_spec mag : gainToDecibels mag = spec_decibels mag.
Proof.
  unfold gainToDecibels, spec_decibels. cbv zeta.
  destruct (Rlt_dec 0 mag); [|done]. by rewrite Rmult_comm.
Qed.

(** [mapToLog10] onto the audible range: [20 * 1000 ^ v]. *)
Lemma mapToLog10_audible v : mapToLog10 v 20 20000 = (20 * Rpower 1000 v)%R.
Proof.
  unfold mapToLog10, log10. cbv zeta.
  pose proof ln_10_pos as H10.
  replace 20000%R with (20 * 1000)%R by lra.
  rewrite ln_mult by lra.
  unfold Rpower.
  replace ((v * ((ln 20 + ln 1000) / ln 10 - ln 20 / ln 10) + ln 20 / ln 10) * ln 10)%R
    with (ln 20 + v * ln 1000)%R by (field; lra).
  rewrite exp_plus, exp_ln by lra. done.
Qed.

Lemma sampledFrequency_formula w i :
  sampledFrequency w i = (20 * Rpower 1000 (IZR i / IZR w))%R.
Proof. apply mapToLog10_audible. Qed.

Lemma sampledFrequency_spec w i :
  sampledFrequency w i = spec_logUniform (IZR i / IZR w) 20 20000.
Proof.
  rewrite sampledFrequency_formula. unfold spec_logUniform.
  by replace (20000 / 20)%R with 1000%R by lra.
Qed.

Lemma Rpower_1000_increasing x y : (x < y)%R → (Rpower 1000 x < Rpower 1000 y)%R.
Proof. intros Hxy. apply Rpower_lt; lra. Qed.

(** The grid: column 0 is at 20 Hz, the frequencies increase with the
    column, and all of them are below 20000 Hz. *)
Lemma sampledFrequency_grid w i j :
  0 <= i < j → j < w →
  (20 <= sampledFrequency w i)%R
  ∧ (sampledFrequency w i < sampledFrequency w j)%R
  ∧ (sampledFrequency w j < 20000)%R.
Proof.
  intros Hij Hjw. rewrite !sampledFrequency_formula.
  assert (0 < IZR w)%R as Hw by (apply IZR_lt; lia).
  assert (0 <= IZR i / IZR w)%R as Hi.
  { apply Rmult_le_pos; [apply IZR_le; lia|]. left. by apply Rinv_0_lt_compat. }
  assert (IZR i / IZR w < IZR j / IZR w)%R as Hlt.
  { apply Rmult_lt_compat_r; [by apply Rinv_0_lt_compat|]. apply IZR_lt. lia. }
  assert (IZR j / IZR w < 1)%R as Hj.
  { apply (Rmult_lt_reg_r (IZR w)); [done|].
    replace (IZR j / IZR w * IZR w)%R with (IZR j) by (field; lra).
    rewrite Rmult_1_l. apply IZR_lt. lia. }
  pose proof (Rpower_1000_increasing _ _ Hlt) as Hinc.
  pose proof (Rpower_1000_increasing _ _ Hj) as Htop.
  rewrite Rpower_1 in Htop by lra.
  assert (1 <= Rpower 1000 (IZR i / IZR w))%R as Hbot.
  { destruct Hi as [Hpos| <-]; [|rewrite Rpower_O; lra].
    left. rewrite <- (Rpower_O 1000) by lra. by apply Rpower_1000_increasing. }
  split_and!; lra.
Qed.

Lemma sampledFrequency_first w : sampledFrequency w 0 = 20%R.
Proof.
  rewrite sampledFrequency_formula. unfold Rdiv. rewrite Rmult_0_l.
  rewrite Rpower_O by lra. lra.
Qed.

Lemma stageMagnitude_bypassed h (c : CutFilter) Index (freq rate mag : R) :
  isBypassed Index c = true →
  stageMagnitude h c Index freq rate mag = Ok mag.
Proof. intros Hb. unfold stageMagnitude. by rewrite Hb. Qed.

Lemma magnitudeAt_bypassed h chain sampleRate w i :
  MonoChain_isBypassed Peak chain = true →
  (∀ Index, isBypassed Index (lowCut chain) = true) →
  (∀ Index, isBypassed Index (highCut chain) = true) →
  magnitudeAt h chain sampleRate w i = Ok 0%R.
Proof.
  intros Hp Hl Hh. unfold magnitudeAt. rewrite Hp. simpl.
  repeat (rewrite stageMagnitude_bypassed by done; simpl).
  by rewrite gainToDecibels_unit.
Qed.

Lemma fillMagnitudes_bypassed h chain sampleRate w indices :
  MonoChain_isBypassed Peak chain = true →
  (∀ Index, isBypassed Index (lowCut chain) = true) →
  (∀ Index, isBypassed Index (highCut chain) = true) →
  fillMagnitudes h chain sampleRate w indices
  = Ok (replicate (length indices) 0%R).
Proof.
  intros Hp Hl Hh. induction indices as [|i rest IH]; [done|].
  simpl. rewrite magnitudeAt_bypassed by done. simpl. by rewrite IH.
Qed.

(** The body of the loop is the response of the specification at the
    frequency of the column. *)
Lemma magnitudeAt_spec h chain sampleRate w i :
  magnitudeAt h chain sampleRate w i
  = spec_responseAt h chain sampleRate (spec_logUniform (IZR i / IZR w) 20 20000).
Proof.
  unfold magnitudeAt, spec_responseAt, spec_stages, stageMagnitude. cbv zeta.
  rewrite <- sampledFrequency_spec. simpl.
  destruct (peakBypassed chain); simpl;
    [|destruct (deref h (coefficients (peak chain))); simpl; [|done]];
    repeat match goal with
           | |- context [isBypassed ?i ?c] =>
               destruct (isBypassed i c); simpl;
               [|destruct (deref h (coefficients (get i c))); simpl; [|done]]
           end;
    by rewrite gainToDecibels_spec.
Qed.

Lemma fillMagnitudes_spec h chain sampleRate w indices :
  fillMagnitudes h chain sampleRate w indices
  = mapM (λ i, spec_responseAt h chain sampleRate
                 (spec_logUniform (IZR i / IZR w) 20 20000)) indices.
Proof.
  induction indices as [|i rest IH]; [done|].
  simpl. rewrite magnitudeAt_spec, IH. done.
Qed.

(** A chain that [updateChain] has updated has the first stage of both cut
    filters in use. *)
Lemma updateChain_first_stages (proc : SimpleEQAudioProcessor)
    (c : ResponseCurveComponent) h h' c' :
  updateChain proc c h = Ok (h', c') →
  isBypassed 0%fin (lowCut (monoChain c')) = false
  ∧ isBypassed 0%fin (highCut (monoChain c')) = false.
Proof.
  unfold updateChain.
  destruct (alloc _ h) as [lp h0].
  intros (h1 & _ & Hrun)%result_bind_inv.
  destruct (allocArray _ h1) as [ls h2]. destruct (allocArray _ h2) as [hs h3].
  apply result_bind_inv in Hrun as ([h4 low] & Hlow & Hrun).
  apply result_bind_inv in Hrun as ([h5 high] & Hhigh & Hrun).
  injection Hrun as <- <-. simpl.
  rewrite (updateCutFilter_flags _ _ _ _ _ _ 0%fin Hlow).
  rewrite (updateCutFilter_flags _ _ _ _ _ _ 0%fin Hhigh).
  split; apply bool_decide_eq_false_2; simpl; lia.
Qed.

(** C8: the loop of [paint] samples the response at [w] frequencies that
    are log-uniform on the audible range: column [i] is at
    [20 * 1000 ^ (i / w)] Hz, which is 20 Hz for column 0, increases with
    the column and stays below 20000 Hz.  At each of them the loop computes
    what the specification asks for: unit gain times the magnitude of every
    stage that is not bypassed, in decibels.  When the peak stage and all
    four stages of both cut filters are bypassed nothing is multiplied in
    and every one of the [w] values is the unit gain in decibels, which is
    0 dB exactly, for every store, width and sample rate.  (In the running
    editor the chain is never in that state: [updateChain] leaves the first
    stage of both cut filters in use.) *)
Theorem bypassed_chain_response_is_unit_gain h chain sampleRate w :
  (∀ i, sampledFrequency w i = (20 * Rpower 1000 (IZR i / IZR w))%R)
  ∧ sampledFrequency w 0 = 20%R
  ∧ (∀ i j, 0 <= i < j → j < w →
       (20 <= sampledFrequency w i)%R
       ∧ (sampledFrequency w i < sampledFrequency w j)%R
       ∧ (sampledFrequency w j < 20000)%R)
  ∧ paint_magnitudes h chain sampleRate w = spec_sampleResponse h chain sampleRate w
  ∧ (MonoChain_isBypassed Peak chain = true →
     (∀ Index, isBypassed Index (lowCut chain) = true) →
     (∀ Index, isBypassed Index (highCut chain) = true) →
     paint_magnitudes h chain sampleRate w = Ok (replicate (Z.to_nat w) 0%R)
     ∧ gainToDecibels 1 = 0%R)
  ∧ (∀ (proc : SimpleEQAudioProcessor) (c : ResponseCurveComponent) h0 h' c',
       updateChain proc c h0 = Ok (h', c') →
       isBypassed 0%fin (lowCut (monoChain c')) = false
       ∧ isBypassed 0%fin (highCut (monoChain c')) = false).
Proof.
  split_and!.
  - apply sampledFrequency_formula.
  - apply sampledFrequency_first.
  - apply sampledFrequency_grid.
  - unfold paint_magnitudes, spec_sampleResponse. apply fillMagnitudes_spec.
  - intros Hp Hl Hh. split; [|apply gainToDecibels_unit].
    unfold paint_magnitudes. rewrite fillMagnitudes_bypassed by done.
    by rewrite length_seqZ.
  - apply updateChain_first_stages.
Qed.

End ResponseCurve.

(** ** Running the updates of a whole chain *)

Section ChainUpdates.

Implicit Types (h : heap) (p : Coefficients) (l : loc) (chain : MonoChain).

Lemma keeps_valid_refl h : keeps_valid h h.
Proof. by intros p. Qed.

Lemma keeps_valid_trans h1 h2 h3 :
  keeps_valid h1 h2 → keeps_valid h2 h3 → keeps_valid h1 h3.
Proof. intros H12 H23 p Hp. by apply H23, H12. Qed.

Lemma alloc_spec v h :
  (alloc v h).2 !! (alloc v h).1 = Some v ∧ keeps_valid h (alloc v h).2.
Proof.
  unfold alloc. simpl. split; [by rewrite lookup_insert_eq|].
  intros p Hp. by apply valid_insert.
Qed.

Lemma valid_lookup h l v : h !! l = Some v → valid h (Some l).
Proof. intros Hl. apply valid_inv. by exists l, v. Qed.

Lemma allocArray_spec vs : ∀ h,
  length (allocArray vs h).1 = length vs
  ∧ keeps_valid h (allocArray vs h).2
  ∧ Forall (λ l, valid (allocArray vs h).2 (Some l)) (allocArray vs h).1.
Proof.
  induction vs as [|v vs IH]; intros h.
  - simpl. split; [done|]. split; [apply keeps_valid_refl | constructor].
  - destruct (alloc_spec v h) as [Hl Hk].
    change (allocArray (v :: vs) h)
      with (let '(ls, h2) := allocArray vs (alloc v h).2 in ((alloc v h).1 :: ls, h2)).
    destruct (alloc v h) as [l h1] eqn:Ha. simpl in Hl, Hk |- *.
    destruct (IH h1) as (Hlen & Hk' & Hall).
    destruct (allocArray vs h1) as [ls h2]. simpl in *.
    split; [by f_equal|]. split; [by eapply keeps_valid_trans|].
    constructor; [|done]. apply Hk'. by eapply valid_lookup.
Qed.

Lemma array_at_valid h (ls : list loc) (i : fin 4) :
  Forall (λ l, valid h (Some l)) ls → (fin_to_nat i < length ls)%nat →
  valid h (array_at ls i).
Proof.
  intros Hall Hi. unfold array_at.
  destruct (lookup_lt_is_Some_2 ls (fin_to_nat i) Hi) as [l Hl].
  rewrite Hl. by eapply Forall_lookup_1 in Hall.
Qed.

Lemma updateCoefficients_runs h old replacements :
  valid h old → valid h replacements →
  ∃ h', updateCoefficients old replacements h = Ok h' ∧ keeps_valid h h'.
Proof.
  intros (o & w & -> & Ho)%valid_inv (r & v & -> & Hr)%valid_inv.
  exists (<[o := v]> h). split; [by apply updateCoefficients_Ok|].
  intros p Hp. by apply valid_insert.
Qed.

(** Updating a cut filter with a freshly designed array of [slope + 1]
    coefficient sets. *)
Lemma updateCutFilter_designed h (c : CutFilter) (ls : list loc) slope :
  (∀ i : fin 4, valid h (coefficients (get i c))) →
  Forall (λ l, valid h (Some l)) ls → length ls = S (Slope_stage slope) →
  ∃ h' c', updateCutFilter c ls slope h = Ok (h', c')
           ∧ stages c' = stages c ∧ keeps_valid h h'.
Proof.
  intros Hc Hls Hlen.
  destruct (updateCutFilter_runs h c ls slope) as (h' & c' & Hrun & Hst & Hk & _).
  - intros i Hi. split; [done|]. apply array_at_valid; [done|lia].
  - by exists h', c'.
Qed.

Lemma get_stages (c c' : CutFilter) i : stages c' = stages c → get i c' = get i c.
Proof. unfold get. by intros ->. Qed.

End ChainUpdates.

(** Chase a validity goal back through the stores it was kept by. *)
Ltac chase_valid :=
  repeat first
    [ assumption
    | match goal with
      | H : ?h !! ?l = Some _ |- valid ?h (Some ?l) => eapply valid_lookup, H
      | H : keeps_valid _ ?hb |- valid ?hb _ => apply H
      | H : keeps_valid _ ?hb |- Forall (λ l, valid ?hb (Some l)) _ =>
          eapply Forall_impl; [|intros ?; apply H]
      | H : keeps_valid _ ?hb |- keeps_valid _ ?hb =>
          eapply keeps_valid_trans; [|exact H]
      | |- keeps_valid ?h ?h => intros ? ?; assumption
      end ].

Section MirrorChain.

Implicit Types (h : heap) (p : Coefficients) (l : loc) (chain : MonoChain).

Lemma MonoChain_valid_keeps h h' chain :
  keeps_valid h h' → MonoChain_valid h chain → MonoChain_valid h' chain.
Proof.
  intros Hk (Hl & Hp & Hh). repeat split; intros; apply Hk; done.
Qed.

Lemma MonoChain_valid_setLowCut h chain (c : CutFilter) :
  stages c = stages (lowCut chain) → MonoChain_valid h chain →
  MonoChain_valid h (MonoChain_setLowCut c chain).
Proof.
  intros Hst (Hl & Hp & Hh). repeat split; try done.
  intros i. simpl. by rewrite (get_stages _ _ i Hst).
Qed.

Lemma MonoChain_valid_setHighCut h chain (c : CutFilter) :
  stages c = stages (highCut chain) → MonoChain_valid h chain →
  MonoChain_valid h (MonoChain_setHighCut c chain).
Proof.
  intros Hst (Hl & Hp & Hh). repeat split; try done.
  intros i. simpl. by rewrite (get_stages _ _ i Hst).
Qed.

(** [updateChain] runs to completion on a valid mirror chain, keeps it
    valid, leaves the flag alone and records itself once. *)
Lemma updateChain_runs (proc : SimpleEQAudioProcessor) (c : ResponseCurveComponent) h :
  MonoChain_valid h (monoChain c) →
  ∃ h' c', updateChain proc c h = Ok (h', c')
           ∧ MonoChain_valid h' (monoChain c')
           ∧ parametersChanged c' = parametersChanged c
           ∧ calls c' = CallUpdateChain :: calls c.
Proof.
  intros Hv. pose proof Hv as (Hl & Hp & Hh). unfold updateChain.
  set (cs := getChainSettings (apvts proc)). set (sr := getSampleRate proc).
  destruct (alloc_spec (makePeakFilter cs sr) h) as [Ha Hk0].
  destruct (alloc (makePeakFilter cs sr) h) as [lp h0]. simpl in Ha, Hk0.
  destruct (updateCoefficients_runs h0 (coefficients (peak (monoChain c))) (Some lp))
    as (h1 & -> & Hk1); [chase_valid..|]. simpl.
  destruct (allocArray_spec (makeLowCutFilter cs sr) h1) as (Hlen2 & Hk2 & Hall2).
  destruct (allocArray (makeLowCutFilter cs sr) h1) as [ls h2]. simpl in Hlen2, Hk2, Hall2.
  destruct (allocArray_spec (makeHighCutFilter cs sr) h2) as (Hlen3 & Hk3 & Hall3).
  destruct (allocArray (makeHighCutFilter cs sr) h2) as [hs h3]. simpl in Hlen3, Hk3, Hall3.
  cbv beta iota.
  change (LowCut_Slope (apvts proc)) with (lowCutSlope cs).
  change (HighCut_Slope (apvts proc)) with (highCutSlope cs).
  destruct (updateCutFilter_designed h3 (lowCut (monoChain c)) ls (lowCutSlope cs))
    as (h4 & low & -> & Hst4 & Hk4);
    [intros i; chase_valid; apply Hl | chase_valid
    | by rewrite Hlen2, makeLowCutFilter_length |].
  rewrite result_bind_Ok. cbv beta iota.
  destruct (updateCutFilter_designed h4 (highCut (monoChain c)) hs (highCutSlope cs))
    as (h5 & high & -> & Hst5 & Hk5);
    [intros i; chase_valid; apply Hh | chase_valid
    | by rewrite Hlen3, makeHighCutFilter_length |].
  rewrite result_bind_Ok. cbv beta iota. do 2 eexists. split; [reflexivity|]. simpl. split; [|done].
  apply MonoChain_valid_setHighCut; [done|].
  apply MonoChain_valid_setLowCut; [done|].
  eapply MonoChain_valid_keeps; [|exact Hv]. chase_valid.
Qed.

End MirrorChain.

(** ** Parameter changes and the timer *)

Section Timer.

Import SingleChannelSampleFifo.
Implicit Types (w : Plugin) (s : SingleChannelSampleFifo.t) (fuel : nat).

Lemma pull_ready {T} (f : Fifo.t T) (x : T) :
  Fifo.wf f → 0 < Fifo.getNumAvailableForReading f →
  Fifo.wf (Fifo.pull x f).2
  ∧ Fifo.getNumAvailableForReading (Fifo.pull x f).2
    = Fifo.getNumAvailableForReading f - 1.
Proof.
  destruct f as [bufs [bs vs ve]]. intros ((Hb & Hs & He) & Hc & Hl).
  unfold Fifo.wf, AbstractFifo.wf, Fifo.getNumAvailableForReading,
    AbstractFifo.getNumReady, Fifo.pull,
    AbstractFifo.prepareToRead, AbstractFifo.finishedRead.
  simpl in *. intros Hready.
  cases_Z; repeat split; try done; lia.
Qed.

Lemma numReady_bounds {T} (f : Fifo.t T) :
  Fifo.wf f → 0 <= Fifo.getNumAvailableForReading f <= Fifo.Capacity - 1.
Proof.
  destruct f as [bufs [bs vs ve]]. intros ((Hb & Hs & He) & Hc & Hl).
  unfold Fifo.getNumAvailableForReading, AbstractFifo.getNumReady.
  simpl in *. cases_Z; lia.
Qed.

(** The loop of the timer callback ends: every iteration takes one block
    out of the collector's Fifo. *)
Lemma drainFifo_runs fuel : ∀ temp s,
  Fifo.wf (audioBufferFifo s) →
  (Z.to_nat (getNumCompleteBuffersAvailable s) < fuel)%nat →
  ∃ s', drainFifo fuel temp s = Ok s'
        ∧ Fifo.wf (audioBufferFifo s')
        ∧ getNumCompleteBuffersAvailable s' = 0
        ∧ fifoIndex s' = fifoIndex s ∧ bufferToFill s' = bufferToFill s
        ∧ channelToUse s' = channelToUse s.
Proof.
  induction fuel as [|fuel IH]; intros temp s Hwf Hfuel; [lia|].
  pose proof (numReady_bounds _ Hwf) as Hb.
  simpl. unfold getNumCompleteBuffersAvailable in *.
  destruct (Z.gtb_spec (Fifo.getNumAvailableForReading (audioBufferFifo s)) 0)
    as [Hpos|Hzero].
  - destruct (pull_ready (audioBufferFifo s) temp Hwf) as [Hwf' Hdec]; [lia|].
    unfold getAudioBuffer.
    destruct (Fifo.pull temp (audioBufferFifo s)) as [[ok temp'] f'].
    simpl in Hwf', Hdec.
    match goal with
    | |- context [drainFifo fuel temp' ?st] =>
        destruct (IH temp' st) as (s' & -> & Hw & Hz & Hi & Hf & Hc);
        [done | simpl; lia |]
    end.
    exists s'. simpl in *. by split_and!.
  - exists s. split_and!; try done. lia.
Qed.

Lemma timerCallback_runs fuel w :
  Plugin_wf w → (Z.to_nat Fifo.Capacity ≤ fuel)%nat →
  ∃ w', timerCallback fuel w = Ok w'
        ∧ Plugin_wf w'
        ∧ parametersChanged (responseCurveComponent w') = false
        ∧ calls (responseCurveComponent w')
          = if parametersChanged (responseCurveComponent w)
            then CallRepaint :: CallUpdateChain :: calls (responseCurveComponent w)
            else calls (responseCurveComponent w).
Proof.
  intros [Hv Hf] Hfuel. unfold timerCallback.
  destruct (drainFifo_runs fuel [] (leftChannelFifo (audioProcessor w)) Hf)
    as (s' & -> & Hw & _).
  { pose proof (numReady_bounds _ Hf) as Hb.
    unfold getNumCompleteBuffersAvailable, Fifo.Capacity in *. lia. }
  rewrite result_bind_Ok.
  destruct (parametersChanged (responseCurveComponent w)) eqn:Hflag; simpl.
  - match goal with
    | |- context [updateChain ?p ?c ?h] =>
        destruct (updateChain_runs p c h) as (h' & c' & -> & Hv' & Hp' & Hc');
        [done|]
    end.
    eexists. split; [reflexivity|]. simpl in *. split_and!; try done.
    by rewrite Hc'.
  - eexists. split; [reflexivity|]. by split_and!.
Qed.

Lemma handle_runs fuel w e :
  Plugin_wf w → (Z.to_nat Fifo.Capacity ≤ fuel)%nat →
  ∃ w', handle fuel w e = Ok w'
        ∧ Plugin_wf w'
        ∧ (updateChainCalls (responseCurveComponent w')
           ≤ updateChainCalls (responseCurveComponent w)
             + (if isTimerCallback e then 1 else 0))%nat.
Proof.
  intros Hwf Hfuel. destruct e as [i x|]; simpl.
  - eexists. split; [reflexivity|]. split; [done|]. simpl.
    unfold updateChainCalls. simpl. lia.
  - destruct (timerCallback_runs fuel w Hwf Hfuel) as (w' & -> & Hwf' & _ & Hc).
    exists w'. split; [done|]. split; [done|].
    unfold updateChainCalls. rewrite Hc.
    destruct (parametersChanged (responseCurveComponent w)); [|lia].
    rewrite filter_cons_False by done. rewrite filter_cons_True by done.
    simpl. lia.
Qed.

Lemma run_runs fuel events : ∀ w,
  Plugin_wf w → (Z.to_nat Fifo.Capacity ≤ fuel)%nat →
  ∃ w', run fuel events w = Ok w'
        ∧ (updateChainCalls (responseCurveComponent w')
           ≤ updateChainCalls (responseCurveComponent w)
             + length (filter (λ e, isTimerCallback e = true) events))%nat.
Proof.
  induction events as [|e events IH]; intros w Hwf Hfuel.
  - exists w. split; [done|]. simpl. lia.
  - destruct (handle_runs fuel w e Hwf Hfuel) as (w1 & Hh & Hwf1 & Hc1).
    destruct (IH w1 Hwf1 Hfuel) as (w' & Hr & Hc).
    exists w'. simpl. rewrite Hh, result_bind_Ok. split; [done|].
    destruct e as [i x|].
    + rewrite filter_cons_False by done. simpl in Hc1. lia.
    + rewrite filter_cons_True by done. simpl in Hc1 |- *. lia.
Qed.

(** C9: the handler [parameterValueChanged] sets the flag and changes
    nothing else: not the mirror chain, not the store, not the processor,
    and it calls neither [updateChain] nor [repaint].  The timer callback
    runs to completion, clears the flag, and calls [updateChain] exactly
    once when the flag was set and not at all otherwise.  So over any
    sequence of notifications and timer callbacks, [updateChain] runs at
    most once per timer callback, however many notifications arrive. *)
Theorem notifications_set_the_flag_and_the_timer_updates fuel w :
  Plugin_wf w → (Z.to_nat Fifo.Capacity ≤ fuel)%nat →
  (∀ i x, handle fuel w (ParameterValueChanged i x)
          = Ok {| store := store w; audioProcessor := audioProcessor w;
                  responseCurveComponent :=
                    {| parametersChanged := true;
                       monoChain := monoChain (responseCurveComponent w);
                       calls := calls (responseCurveComponent w) |} |})
  ∧ (∃ w', timerCallback fuel w = Ok w'
           ∧ parametersChanged (responseCurveComponent w') = false
           ∧ calls (responseCurveComponent w')
             = if parametersChanged (responseCurveComponent w)
               then CallRepaint :: CallUpdateChain :: calls (responseCurveComponent w)
               else calls (responseCurveComponent w))
  ∧ (∀ events, ∃ w', run fuel events w = Ok w'
        ∧ (updateChainCalls (responseCurveComponent w')
           ≤ updateChainCalls (responseCurveComponent w)
             + length (filter (λ e, isTimerCallback e = true) events))%nat).
Proof.
  intros Hwf Hfuel. split; [done|]. split.
  - destruct (timerCallback_runs fuel w Hwf Hfuel) as (w' & Hr & _ & Hp & Hc).
    by exists w'.
  - intros events. by apply run_runs.
Qed.

End Timer.

(** ** Processing a block *)

Section ProcessBlock.

Context `{JuceNumerics} `{JucePlugin}.
Implicit Types (h : heap) (p : SimpleEQAudioProcessor) (buffer : AudioBuffer).

Lemma getReadPointer_inside (channel : Z) buffer :
  0 <= channel < getNumChannels buffer →
  ∃ samples, getReadPointer channel buffer = Some samples
             ∧ buffer !! Z.to_nat channel = Some samples.
Proof.
  intros Hc. unfold getReadPointer, getNumChannels in *.
  destruct (lookup_lt_is_Some_2 buffer (Z.to_nat channel)) as [samples Hs]; [lia|].
  exists samples. rewrite Hs.
  destruct (Z.leb_spec 0 channel); [|lia].
  by destruct (Z.ltb_spec channel (Z.of_nat (length buffer))); [|lia].
Qed.


(** Through the pointer to a channel the loop of [update] reads the samples
    of the channel. *)
Lemma update_reads s buffer samples :
  getReadPointer (Channel_value (SingleChannelSampleFifo.channelToUse s)) buffer
  = Some samples →
  SingleChannelSampleFifo.update buffer s
  = SingleChannelSampleFifo.pushSamples samples s.
Proof. intros Hp. unfold SingleChannelSampleFifo.update. by rewrite Hp. Qed.

Lemma pushSamples_runs samples : ∀ s,
  SingleChannelSampleFifo.wf s →
  ∃ s' pushed, SingleChannelSampleFifo.pushSamples samples s = Ok (s', pushed)
               ∧ SingleChannelSampleFifo.wf s'
               ∧ SingleChannelSampleFifo.channelToUse s'
                 = SingleChannelSampleFifo.channelToUse s.
Proof.
  induction samples as [|x samples IH]; intros s Hwf.
  - exists s, []. by split_and!.
  - destruct Hwf as (block & Hb & Hpos & Hi).
    simpl SingleChannelSampleFifo.pushSamples.
    destruct (decide (SingleChannelSampleFifo.fifoIndex s = Z.of_nat (length block)))
      as [Hfull|Hin].
    + rewrite (pushNextSample_past s block x Hb Hfull Hpos).
      rewrite result_bind_Ok. cbv beta iota.
      match goal with
      | |- context [SingleChannelSampleFifo.pushSamples samples ?st] =>
          destruct (IH st) as (s' & pushed & -> & Hwf' & Hc)
      end.
      { eexists. split; [reflexivity|]. rewrite length_insert. simpl. lia. }
      exists s', ([block] :: pushed). by split_and!.
    + rewrite (pushNextSample_inside s block
                 (Z.to_nat (SingleChannelSampleFifo.fifoIndex s)) x Hb) by lia.
      rewrite result_bind_Ok. cbv beta iota.
      match goal with
      | |- context [SingleChannelSampleFifo.pushSamples samples ?st] =>
          destruct (IH st) as (s' & pushed & -> & Hwf' & Hc)
      end.
      { eexists. split; [reflexivity|]. rewrite length_insert. simpl. lia. }
      exists s', pushed. by split_and!.
Qed.


Lemma updateLowCutFilters_runs cs p h :
  MonoChain_valid h (leftChain p) → MonoChain_valid h (rightChain p) →
  ∃ h' l r, updateLowCutFilters cs p h = Ok (h', setChains l r p)
            ∧ MonoChain_valid h' l ∧ MonoChain_valid h' r.
Proof.
  intros Hl Hr. unfold updateLowCutFilters.
  destruct (allocArray_spec (makeLowCutFilter cs (getSampleRate p)) h)
    as (Hlen & Hk0 & Hall).
  destruct (allocArray (makeLowCutFilter cs (getSampleRate p)) h) as [ls h0].
  simpl in Hlen, Hk0, Hall. cbv beta iota.
  destruct (updateCutFilter_designed h0 (lowCut (leftChain p)) ls (lowCutSlope cs))
    as (h1 & low1 & -> & Hst1 & Hk1);
    [intros i; chase_valid; apply Hl | chase_valid
    | by rewrite Hlen, makeLowCutFilter_length |].
  rewrite result_bind_Ok. cbv beta iota.
  destruct (updateCutFilter_designed h1 (lowCut (rightChain p)) ls (lowCutSlope cs))
    as (h2 & low2 & -> & Hst2 & Hk2);
    [intros i; chase_valid; apply Hr | chase_valid
    | by rewrite Hlen, makeLowCutFilter_length |].
  rewrite result_bind_Ok. cbv beta iota.
  do 3 eexists. split; [reflexivity|].
  split; (apply MonoChain_valid_setLowCut; [done|]);
    (eapply MonoChain_valid_keeps; [|eassumption]); chase_valid.
Qed.

Lemma updateHighCutFilters_runs cs p h :
  MonoChain_valid h (leftChain p) → MonoChain_valid h (rightChain p) →
  ∃ h' l r, updateHighCutFilters cs p h = Ok (h', setChains l r p)
            ∧ MonoChain_valid h' l ∧ MonoChain_valid h' r.
Proof.
  intros Hl Hr. unfold updateHighCutFilters.
  destruct (allocArray_spec (makeHighCutFilter cs (getSampleRate p)) h)
    as (Hlen & Hk0 & Hall).
  destruct (allocArray (makeHighCutFilter cs (getSampleRate p)) h) as [ls h0].
  simpl in Hlen, Hk0, Hall. cbv beta iota.
  destruct (updateCutFilter_designed h0 (highCut (leftChain p)) ls (highCutSlope cs))
    as (h1 & high1 & -> & Hst1 & Hk1);
    [intros i; chase_valid; apply Hl | chase_valid
    | by rewrite Hlen, makeHighCutFilter_length |].
  rewrite result_bind_Ok. cbv beta iota.
  destruct (updateCutFilter_designed h1 (highCut (rightChain p)) ls (highCutSlope cs))
    as (h2 & high2 & -> & Hst2 & Hk2);
    [intros i; chase_valid; apply Hr | chase_valid
    | by rewrite Hlen, makeHighCutFilter_length |].
  rewrite result_bind_Ok. cbv beta iota.
  do 3 eexists. split; [reflexivity|].
  split; (apply MonoChain_valid_setHighCut; [done|]);
    (eapply MonoChain_valid_keeps; [|eassumption]); chase_valid.
Qed.

Lemma updatePeakFilter_runs cs p h :
  MonoChain_valid h (leftChain p) → MonoChain_valid h (rightChain p) →
  ∃ h', updatePeakFilter cs p h = Ok h' ∧ keeps_valid h h'.
Proof.
  intros (_ & Hl & _) (_ & Hr & _). unfold updatePeakFilter.
  destruct (alloc_spec (makePeakFilter cs (getSampleRate p)) h) as [Ha Hk0].
  destruct (alloc (makePeakFilter cs (getSampleRate p)) h) as [lp h0].
  simpl in Ha, Hk0.
  destruct (updateCoefficients_runs h0 (coefficients (peak (leftChain p))) (Some lp))
    as (h1 & -> & Hk1); [chase_valid..|].
  rewrite result_bind_Ok.
  destruct (updateCoefficients_runs h1 (coefficients (peak (rightChain p))) (Some lp))
    as (h2 & -> & Hk2); [chase_valid..|].
  exists h2. split; [done|]. chase_valid.
Qed.

Lemma updateFilters_runs p h :
  MonoChain_valid h (leftChain p) → MonoChain_valid h (rightChain p) →
  ∃ h' l r, updateFilters p h = Ok (h', setChains l r p)
            ∧ MonoChain_valid h' l ∧ MonoChain_valid h' r.
Proof.
  intros Hl Hr. unfold updateFilters.
  destruct (updateLowCutFilters_runs (getChainSettings (apvts p)) p h Hl Hr)
    as (h1 & l1 & r1 & -> & Hl1 & Hr1).
  rewrite result_bind_Ok. cbv beta iota.
  destruct (updatePeakFilter_runs (getChainSettings (apvts p)) (setChains l1 r1 p) h1)
    as (h2 & Hrun2 & Hk2); [done..|].
  simpl apvts. rewrite Hrun2, result_bind_Ok.
  destruct (updateHighCutFilters_runs (getChainSettings (apvts p))
              (setChains l1 r1 p) h2)
    as (h3 & l3 & r3 & -> & Hl3 & Hr3);
    [by eapply MonoChain_valid_keeps..|].
  by exists h3, l3, r3.
Qed.




End ProcessBlock.

(** ** The properties at concrete states *)

(** C2 at [peak_store]: the object at location 1 receives the peak design
    of location 2. *)
Lemma updateCoefficients_overwrites_in_place_witness :
  ∃ h', updateCoefficients (Some 1%positive) (Some 2%positive) peak_store = Ok h'
        ∧ h' !! 1%positive
          = Some (makePeakFilter (getChainSettings createParameterLayout) 44100%Q)
        ∧ dom h' = dom peak_store
        ∧ ∀ l, l ≠ 1%positive → h' !! l = peak_store !! l.
Proof.
  apply updateCoefficients_overwrites_in_place;
    [by vm_compute | eexists; by vm_compute].
Defined.

(** C3 at slope 24 dB/Oct, on a cut filter at locations 1..4 and the
    designed array at 5..8. *)
Lemma updateCutFilter_bypass_pattern_witness :
  reachable_valid designed_store (CutFilter_at 1%positive) designed_array Slope_24
  ∧ is_Ok (updateCutFilter (CutFilter_at 1%positive) designed_array Slope_24
             designed_store).
Proof.
  assert (Hvalid : reachable_valid designed_store (CutFilter_at 1%positive)
                     designed_array Slope_24).
  { intros i _.
    repeat (inv_fin i; [split; eexists; by vm_compute | intros i]); inv_fin i. }
  split; [exact Hvalid|].
  by apply (updateCutFilter_bypass_pattern designed_store (CutFilter_at 1%positive)
              designed_array Slope_24).
Defined.

(** C4 at slope 24 dB/Oct, on the same cut filter and array. *)
Lemma updateCutFilter_assigns_reached_stages_witness :
  ∃ h' chain',
    updateCutFilter (CutFilter_at 1%positive) designed_array Slope_24 designed_store
    = Ok (h', chain')
    ∧ stages chain' = stages (CutFilter_at 1%positive)
    ∧ ∀ i : fin 4,
        deref h' (coefficients (get i chain'))
        = if bool_decide (fin_to_nat i ≤ Slope_stage Slope_24)%nat
          then deref designed_store (array_at designed_array i)
          else deref designed_store (coefficients (get i (CutFilter_at 1%positive))).
Proof.
  apply updateCutFilter_assigns_reached_stages.
  - intros i _. repeat (inv_fin i; [split; eexists; by vm_compute | intros i]); inv_fin i.
  - split.
    + intros i j o.
      repeat (inv_fin i; [|intros i]); try (by inv_fin i);
        repeat (inv_fin j; [|intros j]); try (by inv_fin j);
        intros Hij Hi Hj; vm_compute in Hi, Hj; congruence.
    + intros i j o.
      repeat (inv_fin i; [|intros i]); try (by inv_fin i);
        repeat (inv_fin j; [|intros j]); try (by inv_fin j);
        intros Hi Hj; vm_compute in Hi, Hj; congruence.
Defined.


(** C7 on a new Fifo of integers: a pull from it, and a push after thirty
    pushes. *)
Lemma push_on_full_and_pull_on_empty_witness :
  Fifo.wf (Fifo.create 0)
  ∧ Fifo.pull 7 (Fifo.create 0) = (false, 7, Fifo.create 0)
  ∧ Fifo.push 7 (Fifo.pushAll (replicate 30 1) (Fifo.create 0))
    = (false, Fifo.pushAll (replicate 30 1) (Fifo.create 0)).
Proof.
  assert (Hwf : Fifo.wf (Fifo.create 0)).
  { unfold Fifo.wf, AbstractFifo.wf. simpl. unfold Fifo.Capacity. lia. }
  split; [exact Hwf|].
  destruct (push_on_full_and_pull_on_empty (Fifo.create 0) 7 Hwf)
    as (_ & Hpull & Hpush).
  split; [apply Hpull; reflexivity|].
  apply Hpush. vm_compute. discriminate.
Defined.

(** C8 for a fully bypassed chain, three columns wide: 0 dB in every
    column, the columns at increasing frequencies from 20 Hz. *)
Lemma bypassed_chain_response_is_unit_gain_witness :
  @paint_magnitudes passThrough_numerics (passThrough_store 9) bypassed_chain 44100%Q 3
  = Ok [0%R; 0%R; 0%R]
  ∧ sampledFrequency 3 0 = 20%R
  ∧ (sampledFrequency 3 1 < sampledFrequency 3 2)%R
  ∧ (sampledFrequency 3 2 < 20000)%R.
Proof.
  destruct (@bypassed_chain_response_is_unit_gain passThrough_numerics
              (passThrough_store 9) bypassed_chain 44100%Q 3)
    as (_ & Hfirst & Hgrid & _ & Hflat & _).
  destruct Hflat as [Hzero _].
  - reflexivity.
  - intros i. repeat (inv_fin i; [reflexivity | intros i]); inv_fin i.
  - intros i. repeat (inv_fin i; [reflexivity | intros i]); inv_fin i.
  - destruct (Hgrid 1 2) as (_ & Hinc & Htop); [lia..|].
    split; [exact Hzero|]. split; [exact Hfirst|]. split; [exact Hinc | exact Htop].
Defined.

(** The plug-in with its editor open is well formed. *)
Lemma open_plugin_wf flag : Plugin_wf (open_plugin flag).
Proof.
  split.
  - split; [|split].
    + intros i. repeat (inv_fin i; [eexists; by vm_compute | intros i]); inv_fin i.
    + eexists; by vm_compute.
    + intros i. repeat (inv_fin i; [eexists; by vm_compute | intros i]); inv_fin i.
  - unfold Fifo.wf, AbstractFifo.wf. simpl. unfold Fifo.Capacity.
    split; [lia|]. split; reflexivity.
Defined.

(** C9 for the open plug-in with the flag set: the timer callback updates
    the chain once and repaints. *)
Lemma notifications_set_the_flag_and_the_timer_updates_witness :
  Plugin_wf (open_plugin true)
  ∧ ∃ w', timerCallback 30 (open_plugin true) = Ok w'
          ∧ parametersChanged (responseCurveComponent w') = false
          ∧ calls (responseCurveComponent w') = [CallRepaint; CallUpdateChain].
Proof.
  split; [apply open_plugin_wf|].
  destruct (notifications_set_the_flag_and_the_timer_updates
              30 (open_plugin true) (open_plugin_wf true))
    as (_ & Hw & _); [vm_compute; lia|].
  exact Hw.
Defined.

(** The prepared processor is well formed. *)
Lemma prepared_processor_wf : Processor_wf (passThrough_store 18) prepared_processor.
Proof.
  unfold Processor_wf. split_and!; try reflexivity.
  - split; [|split].
    + intros i. repeat (inv_fin i; [eexists; by vm_compute | intros i]); inv_fin i.
    + eexists; by vm_compute.
    + intros i. repeat (inv_fin i; [eexists; by vm_compute | intros i]); inv_fin i.
  - split; [|split].
    + intros i. repeat (inv_fin i; [eexists; by vm_compute | intros i]); inv_fin i.
    + eexists; by vm_compute.
    + intros i. repeat (inv_fin i; [eexists; by vm_compute | intros i]); inv_fin i.
  - exists [0%Q; 0%Q]. split; [reflexivity|]. simpl. lia.
  - exists [0%Q; 0%Q]. split; [reflexivity|]. simpl. lia.
Defined.


(** * Further properties of the code *)

(** ** The Fifo as a bounded queue *)

Section FifoQueue.

Context {T : Type}.
Implicit Types (f : Fifo.t T) (x y : T) (xs ys : list T) (bufs : list T).

(** The distance from [start] forward to [pos] around a ring of [size]. *)
Local Abbreviation ahead size start pos :=
  (if pos >=? start then pos - start else pos + size - start).

Lemma ring_window_length bufs size start n :
  0 <= start < size → length bufs = Z.to_nat size →
  length (ring_window bufs size start n) = n.
Proof.
  revert start. induction n as [|n IH]; intros start Hs Hl; [done|].
  simpl. destruct (lookup_lt_is_Some_2 bufs (Z.to_nat start)) as [x ->]; [lia|].
  simpl. f_equal. apply IH; [|done]. cases_Z; lia.
Qed.

(** Writing a slot outside the window does not change the window. *)
Lemma ring_window_insert_outside bufs size start n pos x :
  0 <= start < size → 0 <= pos < size →
  Z.of_nat n <= ahead size start pos →
  ring_window (<[Z.to_nat pos := x]> bufs) size start n
  = ring_window bufs size start n.
Proof.
  revert start. induction n as [|n IH]; intros start Hs Hp Hn; [done|].
  simpl. rewrite list_lookup_insert_ne by (cases_Z; lia).
  destruct (bufs !! Z.to_nat start) as [y|]; [|done].
  f_equal. apply IH; cases_Z; lia.
Qed.

(** Writing the slot just past the window and taking one more slot appends
    the written block. *)
Lemma ring_window_snoc bufs size start n pos x :
  0 <= start < size → 0 <= pos < size → length bufs = Z.to_nat size →
  Z.of_nat n = ahead size start pos →
  ring_window (<[Z.to_nat pos := x]> bufs) size start (S n)
  = ring_window bufs size start n ++ [x].
Proof.
  revert start. induction n as [|n IH]; intros start Hs Hp Hl Hn.
  - assert (pos = start) as -> by (cases_Z; lia).
    simpl. rewrite list_lookup_insert_eq by lia. done.
  - change (ring_window ?b size start (S (S n)))
      with (match b !! Z.to_nat start with
            | Some y => y :: ring_window b size
                          (if start + 1 >=? size then start + 1 - size else start + 1)
                          (S n)
            | None => []
            end).
    rewrite list_lookup_insert_ne by (cases_Z; lia).
    simpl ring_window at 2.
    destruct (lookup_lt_is_Some_2 bufs (Z.to_nat start)) as [y ->]; [lia|].
    rewrite IH by (cases_Z; lia). done.
Qed.

Lemma contents_length f :
  Fifo.wf f →
  Z.of_nat (length (Fifo_contents f)) = Fifo.getNumAvailableForReading f.
Proof.
  intros Hwf. pose proof (numReady_bounds f Hwf) as Hb.
  destruct Hwf as ((Hp & Hs & He) & Hc & Hl).
  unfold Fifo_contents. rewrite ring_window_length; [|done|by rewrite Hc].
  unfold Fifo.getNumAvailableForReading in *. lia.
Qed.

(** [write (1)] on an [AbstractFifo] with a free slot: the slot handed out is
    the one at the write cursor, and afterwards one more slot is ready. *)
Lemma write_one (a : AbstractFifo.t) :
  AbstractFifo.wf a → 0 < AbstractFifo.getFreeSpace a →
  (AbstractFifo.blockSize1 (AbstractFifo.prepareToWrite a 1) >? 0) = true
  ∧ AbstractFifo.startIndex1 (AbstractFifo.prepareToWrite a 1) = AbstractFifo.validEnd a
  ∧ AbstractFifo.blockSize1 (AbstractFifo.prepareToWrite a 1)
    + AbstractFifo.blockSize2 (AbstractFifo.prepareToWrite a 1) = 1
  ∧ AbstractFifo.getNumReady (AbstractFifo.finishedWrite a 1)
    = AbstractFifo.getNumReady a + 1
  ∧ AbstractFifo.getNumReady a
    = (if AbstractFifo.validEnd a >=? AbstractFifo.validStart a
       then AbstractFifo.validEnd a - AbstractFifo.validStart a
       else AbstractFifo.validEnd a + AbstractFifo.bufferSize a
            - AbstractFifo.validStart a).
Proof.
  destruct a as [bs vs ve]. intros (Hb & Hs & He).
  unfold AbstractFifo.getFreeSpace, AbstractFifo.getNumReady,
    AbstractFifo.prepareToWrite, AbstractFifo.finishedWrite.
  simpl in *. intros Hfree. cases_Z; lia.
Qed.

(** [read (1)] on an [AbstractFifo] with a ready slot. *)
Lemma read_one (a : AbstractFifo.t) :
  AbstractFifo.wf a → 0 < AbstractFifo.getNumReady a →
  (AbstractFifo.blockSize1 (AbstractFifo.prepareToRead a 1) >? 0) = true
  ∧ AbstractFifo.startIndex1 (AbstractFifo.prepareToRead a 1)
    = AbstractFifo.validStart a
  ∧ AbstractFifo.blockSize1 (AbstractFifo.prepareToRead a 1)
    + AbstractFifo.blockSize2 (AbstractFifo.prepareToRead a 1) = 1
  ∧ AbstractFifo.getNumReady (AbstractFifo.finishedRead a 1)
    = AbstractFifo.getNumReady a - 1
  ∧ AbstractFifo.validStart (AbstractFifo.finishedRead a 1)
    = (if AbstractFifo.validStart a + 1 >=? AbstractFifo.bufferSize a
       then AbstractFifo.validStart a + 1 - AbstractFifo.bufferSize a
       else AbstractFifo.validStart a + 1).
Proof.
  destruct a as [bs vs ve]. intros (Hb & Hs & He).
  unfold AbstractFifo.getNumReady,
    AbstractFifo.prepareToRead, AbstractFifo.finishedRead.
  simpl in *. intros Hready. cases_Z; lia.
Qed.

Lemma push_contents f x :
  Fifo.wf f → 0 < AbstractFifo.getFreeSpace (Fifo.fifo f) →
  (Fifo.push x f).1 = true
  ∧ Fifo_contents (Fifo.push x f).2 = Fifo_contents f ++ [x].
Proof.
  intros Hwf Hfree. pose proof (numReady_bounds f Hwf) as Hb.
  destruct Hwf as (Ha & Hc & Hl).
  destruct (write_one (Fifo.fifo f) Ha Hfree) as (Hpos & Hidx & Hone & Hready & Hn).
  unfold Fifo.push. rewrite Hpos, Hidx, Hone.
  split; [done|]. unfold Fifo_contents. cbn [snd Fifo.buffers Fifo.fifo].
  rewrite Hready.
  replace (Z.to_nat (AbstractFifo.getNumReady (Fifo.fifo f) + 1))
    with (S (Z.to_nat (AbstractFifo.getNumReady (Fifo.fifo f))))
    by (unfold Fifo.getNumAvailableForReading in Hb; lia).
  destruct Ha as (Hp & Hs & He).
  apply ring_window_snoc; try done.
  - by rewrite Hc.
  - unfold Fifo.getNumAvailableForReading in Hb. rewrite <- Hn. lia.
Qed.

Lemma pull_contents f x y ys :
  Fifo.wf f → Fifo_contents f = y :: ys →
  (Fifo.pull x f).1 = (true, x) ∧ Fifo_contents (Fifo.pull x f).2 = ys.
Proof.
  intros Hwf Hc. pose proof (contents_length f Hwf) as Hlen.
  rewrite Hc in Hlen. simpl in Hlen.
  destruct Hwf as (Ha & Hcap & Hl).
  unfold Fifo.getNumAvailableForReading in Hlen.
  destruct (read_one (Fifo.fifo f) Ha) as (Hpos & Hidx & Hone & Hready & Hvs); [lia|].
  unfold Fifo.pull. rewrite Hpos, Hone.
  unfold Fifo_contents in *. cbn [fst snd Fifo.buffers Fifo.fifo].
  rewrite Hready, Hvs.
  replace (Z.to_nat (AbstractFifo.getNumReady (Fifo.fifo f)))
    with (S (Z.to_nat (AbstractFifo.getNumReady (Fifo.fifo f) - 1))) in Hc by lia.
  simpl in Hc.
  destruct (Fifo.buffers f !! Z.to_nat (AbstractFifo.validStart (Fifo.fifo f)))
    as [z|]; [|done].
  injection Hc as -> Hys. done.
Qed.

Lemma free_space_contents f :
  Fifo.wf f →
  AbstractFifo.getFreeSpace (Fifo.fifo f)
  = Fifo.Capacity - 1 - Z.of_nat (length (Fifo_contents f)).
Proof.
  intros Hwf. rewrite (contents_length f Hwf).
  destruct Hwf as (_ & Hc & _).
  unfold AbstractFifo.getFreeSpace, Fifo.getNumAvailableForReading. lia.
Qed.

(** X1: [push] appends the block to the blocks the Fifo holds whenever it
    holds fewer than [Capacity - 1], and answers true; when it holds
    [Capacity - 1] it answers false and the Fifo is unchanged: the block is
    dropped.  The Fifo stays well formed either way. *)
Theorem push_appends_or_drops f x :
  Fifo.wf f →
  Fifo.wf (Fifo.push x f).2
  ∧ if decide (Z.of_nat (length (Fifo_contents f)) < Fifo.Capacity - 1)
    then (Fifo.push x f).1 = true
         ∧ Fifo_contents (Fifo.push x f).2 = Fifo_contents f ++ [x]
    else Fifo.push x f = (false, f).
Proof.
  intros Hwf. split; [by apply push_wf|].
  pose proof (free_space_contents f Hwf) as Hfree.
  pose proof (free_space_le f Hwf) as Hle.
  pose proof (numReady_bounds f Hwf) as Hb.
  rewrite <- (contents_length f Hwf) in Hb.
  case_decide.
  - apply push_contents; [done|lia].
  - apply push_full; [done|lia].
Qed.

(** X2: [pull] removes the oldest block the Fifo holds, answering true;
    when the Fifo holds nothing it answers false and leaves the Fifo
    unchanged.  (What the caller's object holds after the call is not part
    of the statement: the parameter of [pull] is a reference to const.) *)
Theorem pull_removes_oldest f x :
  Fifo.wf f →
  Fifo.wf (Fifo.pull x f).2
  ∧ match Fifo_contents f with
    | [] => (Fifo.pull x f).1.1 = false ∧ (Fifo.pull x f).2 = f
    | y :: ys =>
        (Fifo.pull x f).1.1 = true ∧ Fifo_contents (Fifo.pull x f).2 = ys
    end.
Proof.
  intros Hwf. split; [by apply pull_wf|].
  destruct (Fifo_contents f) as [|y ys] eqn:Hc.
  - rewrite pull_empty; [done|done|].
    rewrite <- (contents_length f Hwf), Hc. done.
  - destruct (pull_contents f x y ys Hwf Hc) as [-> ->]. done.
Qed.

Lemma pushAll_contents xs : ∀ f,
  Fifo.wf f →
  Fifo_contents (Fifo.pushAll xs f)
  = take (Z.to_nat (Fifo.Capacity - 1)) (Fifo_contents f ++ xs).
Proof.
  induction xs as [|x xs IH]; intros f Hwf.
  - pose proof (numReady_bounds f Hwf) as Hb.
    rewrite <- (contents_length f Hwf) in Hb.
    simpl. rewrite app_nil_r, take_ge; [done|lia].
  - change (Fifo.pushAll (x :: xs) f) with (Fifo.pushAll xs (Fifo.push x f).2).
    pose proof (free_space_contents f Hwf) as Hfree.
    pose proof (numReady_bounds f Hwf) as Hb.
    rewrite <- (contents_length f Hwf) in Hb.
    rewrite IH by by apply push_wf.
    destruct (decide (Z.of_nat (length (Fifo_contents f)) < Fifo.Capacity - 1))
      as [Hroom|Hfull].
    + destruct (push_contents f x Hwf) as [_ ->]; [lia|].
      by rewrite <- app_assoc.
    + rewrite push_full by (done || lia). simpl.
      rewrite !take_app_le by lia. done.
Qed.

Lemma pullAll_contents n : ∀ f x,
  Fifo.wf f →
  (pullAll n x f).1 = (n `min` length (Fifo_contents f))%nat
  ∧ Fifo_contents (pullAll n x f).2 = drop n (Fifo_contents f)
  ∧ Fifo.wf (pullAll n x f).2.
Proof.
  induction n as [|n IH]; intros f x Hwf; [done|].
  simpl. destruct (Fifo_contents f) as [|y ys] eqn:Hc.
  - rewrite pull_empty; [|done|by rewrite <- (contents_length f Hwf), Hc].
    destruct (IH f x Hwf) as (Ht & Hd & Hw).
    destruct (pullAll n x f) as [k f2]. simpl in *.
    rewrite Ht, Hd, Hc. rewrite drop_nil. simpl. split_and!; [lia|done..].
  - destruct (pull_contents f x y ys Hwf Hc) as [Hp Hc'].
    pose proof (pull_wf f x Hwf) as Hwf'.
    destruct (Fifo.pull x f) as [[ok z] f1]. simpl in *.
    injection Hp as -> ->.
    destruct (IH f1 x Hwf') as (Ht & Hd & Hw).
    destruct (pullAll n x f1) as [k f2]. simpl in *.
    by rewrite Ht, Hd, Hc'.
Qed.

(** X3: a Fifo is a queue with room for [Capacity - 1] blocks.  Pushing any
    sequence of blocks onto a well-formed Fifo that holds nothing makes it
    hold the first [Capacity - 1] of them, in the order they were pushed;
    the later ones were dropped.  The pulls that follow take them out in
    that order: after [n] pulls the Fifo holds what is left behind the
    first [n], and as many pulls answered true as blocks were taken. *)
Theorem pushed_blocks_leave_in_order f x xs :
  Fifo.wf f → Fifo_contents f = [] →
  Fifo_contents (Fifo.pushAll xs f) = take (Z.to_nat (Fifo.Capacity - 1)) xs
  ∧ ∀ n,
      Fifo_contents (pullAll n x (Fifo.pushAll xs f)).2
      = drop n (take (Z.to_nat (Fifo.Capacity - 1)) xs)
      ∧ (pullAll n x (Fifo.pushAll xs f)).1
        = (n `min` length (take (Z.to_nat (Fifo.Capacity - 1)) xs))%nat.
Proof.
  intros Hwf Hempty.
  assert (Fifo_contents (Fifo.pushAll xs f)
          = take (Z.to_nat (Fifo.Capacity - 1)) xs) as Hheld
    by (by rewrite pushAll_contents, Hempty).
  split; [done|]. intros n.
  destruct (pullAll_contents n (Fifo.pushAll xs f) x) as (Ht & Hd & _);
    [by apply pushAll_wf|].
  by rewrite Ht, Hd, Hheld.
Qed.

End FifoQueue.

(** X1 on a new Fifo of integers. *)
Lemma push_appends_or_drops_witness :
  Fifo.wf (Fifo.create 0)
  ∧ (Fifo.push 7 (Fifo.create 0)).1 = true
  ∧ Fifo_contents (Fifo.push 7 (Fifo.create 0)).2 = [7].
Proof.
  split; [apply create_wf|].
  destruct (push_appends_or_drops (Fifo.create 0) 7 (create_wf 0)) as [_ Hpush].
  exact Hpush.
Defined.

(** X2 on a Fifo of integers that holds 7 and 8. *)
Lemma pull_removes_oldest_witness :
  Fifo.wf (Fifo.pushAll [7; 8] (Fifo.create 0))
  ∧ (Fifo.pull 0 (Fifo.pushAll [7; 8] (Fifo.create 0))).1.1 = true
  ∧ Fifo_contents (Fifo.pull 0 (Fifo.pushAll [7; 8] (Fifo.create 0))).2 = [8].
Proof.
  assert (Hwf : Fifo.wf (Fifo.pushAll [7; 8] (Fifo.create 0)))
    by apply pushAll_wf, create_wf.
  split; [exact Hwf|].
  destruct (pull_removes_oldest (Fifo.pushAll [7; 8] (Fifo.create 0)) 0 Hwf)
    as [_ Hpull].
  exact Hpull.
Defined.

(** X3 for thirty-one blocks pushed onto a new Fifo: twenty-nine are held,
    and thirty-one pulls take all of them out. *)
Lemma pushed_blocks_leave_in_order_witness :
  Fifo_contents (Fifo.pushAll (seqZ 1 31) (Fifo.create 0)) = seqZ 1 29
  ∧ Fifo_contents (pullAll 31 0 (Fifo.pushAll (seqZ 1 31) (Fifo.create 0))).2 = []
  ∧ (pullAll 31 0 (Fifo.pushAll (seqZ 1 31) (Fifo.create 0))).1 = 29%nat.
Proof.
  destruct (pushed_blocks_leave_in_order (Fifo.create 0) 0 (seqZ 1 31)
              (create_wf 0) eq_refl) as [Hheld Hpulls].
  destruct (Hpulls 31%nat) as [Hleft Hcount].
  split; [exact Hheld|]. split; [exact Hleft | exact Hcount].
Defined.

(** ** The sample collector over whole streams *)

Section CollectorStreams.

Import SingleChannelSampleFifo.
Implicit Types (s : SingleChannelSampleFifo.t) (block samples : list float).

Lemma pushAll_app {T} (xs ys : list T) (f : Fifo.t T) :
  Fifo.pushAll (xs ++ ys) f = Fifo.pushAll ys (Fifo.pushAll xs f).
Proof. unfold Fifo.pushAll. by rewrite foldl_app. Qed.

(** The collector over any stream: with [B] the block size and the cursor at
    [k], after [n] samples the cursor is at [r + 1] and [q] blocks were
    pushed, where [k + n - 1 = q * B + r]. *)
Lemma pushSamples_count samples : ∀ s block,
  bufferToFill s = [block] → (0 < length block)%nat →
  0 <= fifoIndex s <= Z.of_nat (length block) →
  1 <= fifoIndex s + Z.of_nat (length samples) →
  ∃ s' pushed block' q r,
    pushSamples samples s = Ok (s', pushed)
    ∧ bufferToFill s' = [block'] ∧ length block' = length block
    ∧ fifoIndex s + Z.of_nat (length samples) - 1 = q * Z.of_nat (length block) + r
    ∧ 0 <= r < Z.of_nat (length block)
    ∧ Z.of_nat (length pushed) = q
    ∧ fifoIndex s' = r + 1
    ∧ audioBufferFifo s' = Fifo.pushAll pushed (audioBufferFifo s)
    ∧ channelToUse s' = channelToUse s
    ∧ Forall (λ b, ∃ c, b = [c] ∧ length c = length block) pushed.
Proof.
  induction samples as [|x samples IH]; intros s block Hb Hpos Hi Hn.
  - exists s, [], block, 0, (fifoIndex s - 1). simpl in *.
    split_and!; try done; lia.
  - simpl pushSamples.
    destruct (decide (fifoIndex s = Z.of_nat (length block))) as [Hfull|Hin].
    + rewrite (pushNextSample_past s block x Hb Hfull Hpos).
      rewrite result_bind_Ok. cbv beta iota.
      match goal with
      | |- context [pushSamples samples ?st] =>
          destruct (IH st (<[0%nat := x]> block))
            as (s' & pushed & block' & q & r & -> & Hb' & Hl' & Hq & Hr & Hp
                & Hi' & Hf & Hc & Hall);
          [reflexivity | by rewrite length_insert
          | rewrite length_insert; simpl; lia | simpl; lia |]
      end.
      rewrite length_insert in *. simpl in Hq, Hf, Hc.
      exists s', ([block] :: pushed), block', (q + 1), r.
      rewrite result_bind_Ok. simpl length.
      split_and!; try done; try lia.
      constructor; [by exists block | done].
    + rewrite (pushNextSample_inside s block (Z.to_nat (fifoIndex s)) x Hb) by lia.
      rewrite result_bind_Ok. cbv beta iota.
      match goal with
      | |- context [pushSamples samples ?st] =>
          destruct (IH st (<[Z.to_nat (fifoIndex s) := x]> block))
            as (s' & pushed & block' & q & r & -> & Hb' & Hl' & Hq & Hr & Hp
                & Hi' & Hf & Hc & Hall);
          [reflexivity | by rewrite length_insert
          | rewrite length_insert; simpl; lia | simpl; lia |]
      end.
      rewrite length_insert in *. simpl in Hq, Hf, Hc.
      exists s', pushed, block', q, r.
      rewrite result_bind_Ok. simpl length.
      split_and!; try done; lia.
Qed.

(** X4: how many blocks [update] pushes.  For a prepared collector with
    block size [B >= 1] and the cursor at [k], feeding a channel of
    [n >= 1] samples pushes [(k + n - 1) / B] blocks, each of [B] samples,
    into the Fifo in order and leaves the cursor at [(k + n - 1) mod B + 1];
    the collector stays well formed, with the same block size. *)
Theorem update_push_count s buffer samples :
  SingleChannelSampleFifo.wf s →
  getReadPointer (Channel_value (channelToUse s)) buffer = Some samples →
  samples ≠ [] →
  ∃ s' pushed,
    update buffer s = Ok (s', pushed)
    ∧ SingleChannelSampleFifo.wf s'
    ∧ getNumSamples (bufferToFill s') = getNumSamples (bufferToFill s)
    ∧ Z.of_nat (length pushed)
      = (fifoIndex s + Z.of_nat (length samples) - 1) / getNumSamples (bufferToFill s)
    ∧ fifoIndex s'
      = (fifoIndex s + Z.of_nat (length samples) - 1)
          mod getNumSamples (bufferToFill s) + 1
    ∧ audioBufferFifo s' = Fifo.pushAll pushed (audioBufferFifo s)
    ∧ Forall (λ b, getNumChannels b = 1
                   ∧ getNumSamples b = getNumSamples (bufferToFill s)) pushed.
Proof.
  intros (block & Hb & Hpos & Hi) Hch Hne. rewrite (update_reads _ _ _ Hch).
  assert (0 < length samples)%nat by (destruct samples; [done|simpl; lia]).
  destruct (pushSamples_count samples s block Hb Hpos Hi)
    as (s' & pushed & block' & q & r & -> & Hb' & Hl' & Hq & Hr & Hp
        & Hi' & Hf & Hc & Hall); [lia|].
  exists s', pushed. rewrite Hb, Hb'. simpl getNumSamples. rewrite Hl'.
  split_and!; try done.
  - exists block'. split_and!; try done; lia.
  - rewrite Hp. apply (Z.div_unique_pos _ _ q r); lia.
  - rewrite Hi'. f_equal. apply (Z.mod_unique_pos _ _ q r); lia.
  - eapply Forall_impl; [exact Hall|]. intros b (c & -> & Hlc). simpl.
    unfold getNumChannels. simpl. split; [done|lia].
Qed.

End CollectorStreams.

(** X4 for the collector of the left channel prepared for blocks of two
    samples, fed a channel of five samples: two blocks, cursor at 1. *)
Lemma update_push_count_witness :
  ∃ s' pushed,
    SingleChannelSampleFifo.update stereo_buffer_5 collector_2 = Ok (s', pushed)
    ∧ Z.of_nat (length pushed) = 2
    ∧ SingleChannelSampleFifo.fifoIndex s' = 1.
Proof.
  destruct (update_push_count collector_2 stereo_buffer_5 [6%Q; 7%Q; 8%Q; 9%Q; 10%Q])
    as (s' & pushed & Hrun & _ & _ & Hn & Hi & _).
  - exists [0%Q; 0%Q]. split; [reflexivity|]. simpl. lia.
  - reflexivity.
  - discriminate.
  - exists s', pushed. split; [exact Hrun|]. split; [exact Hn | exact Hi].
Defined.

Section CollectorLifeCycle.

Context `{UndeclaredMember}.

Import SingleChannelSampleFifo.
Implicit Types (s : SingleChannelSampleFifo.t) (block samples : list float).

Lemma one_channel_buffer (b : AudioBuffer) (n : Z) :
  getNumChannels b = 1 → getNumSamples b = n →
  ∃ block, b = [block] ∧ Z.of_nat (length block) = n.
Proof.
  unfold getNumChannels, getNumSamples.
  destruct b as [|block [|c rest]]; simpl; intros Hc Hn; try lia.
  by exists block.
Qed.

Lemma prepare_block (bufferSize : Z) s :
  bufferToFill (prepare bufferSize s)
  = if decide (getNumChannels (bufferToFill s) = 1
               ∧ getNumSamples (bufferToFill s) = bufferSize)
    then bufferToFill s
    else [replicate (Z.to_nat bufferSize) 0%Q].
Proof.
  unfold prepare, setSize. cbn [bufferToFill].
  case_decide as Hsame.
  - destruct Hsame as [-> ->]. by rewrite !Z.eqb_refl.
  - destruct (Z.eqb_spec bufferSize (getNumSamples (bufferToFill s)));
      destruct (Z.eqb_spec 1 (getNumChannels (bufferToFill s)));
      simpl; try done.
    destruct Hsame. by split.
Qed.

Lemma prepare_one_channel (bufferSize : Z) s :
  0 <= bufferSize →
  ∃ block, bufferToFill (prepare bufferSize s) = [block]
           ∧ Z.of_nat (length block) = bufferSize.
Proof.
  intros Hn. rewrite prepare_block. case_decide as Hsame.
  - destruct Hsame. by apply one_channel_buffer.
  - eexists. split; [done|]. rewrite length_replicate. lia.
Qed.

Lemma collector_prepare_wf (bufferSize : Z) s :
  1 <= bufferSize → SingleChannelSampleFifo.wf (prepare bufferSize s).
Proof.
  intros Hn.
  destruct (prepare_one_channel bufferSize s) as (block & Hb & Hlen); [lia|].
  exists block. split_and!; [done | lia | simpl; lia | simpl; lia].
Qed.

(** X5: [prepare (n)] with [n >= 1] leaves a well-formed collector that is
    marked prepared for blocks of [n] samples, with the cursor at 0 and one
    channel of [n] samples to fill, whatever the undeclared member of [Fifo]
    does.  The block is sized, not cleared: a block that already was one
    channel of [n] samples keeps the samples it held, so that what is pushed
    after a second [prepare] of the same size can carry samples from before
    it; a block of any other size becomes [n] zeros. *)
Theorem prepare_sizes_the_block_without_clearing (bufferSize : Z) s :
  1 <= bufferSize →
  SingleChannelSampleFifo.wf (prepare bufferSize s)
  ∧ isPrepared (prepare bufferSize s) = true
  ∧ getSize (prepare bufferSize s) = bufferSize
  ∧ fifoIndex (prepare bufferSize s) = 0
  ∧ channelToUse (prepare bufferSize s) = channelToUse s
  ∧ getNumChannels (bufferToFill (prepare bufferSize s)) = 1
  ∧ getNumSamples (bufferToFill (prepare bufferSize s)) = bufferSize
  ∧ bufferToFill (prepare bufferSize s)
    = if decide (getNumChannels (bufferToFill s) = 1
                 ∧ getNumSamples (bufferToFill s) = bufferSize)
      then bufferToFill s
      else [replicate (Z.to_nat bufferSize) 0%Q].
Proof.
  intros Hn.
  destruct (prepare_one_channel bufferSize s) as (block & Hb & Hlen); [lia|].
  split_and!; try done.
  - by apply collector_prepare_wf.
  - by rewrite Hb.
  - by rewrite Hb.
  - apply prepare_block.
Qed.

(** X6: a collector whose block has no samples (one that was never
    prepared, or was prepared with size 0) cannot take a sample: [update]
    on a channel with at least one sample writes outside the block.  A
    channel without samples is accepted and changes nothing. *)
Theorem update_without_block_faults s buffer samples :
  getNumSamples (bufferToFill s) = 0 → fifoIndex s = 0 →
  getReadPointer (Channel_value (channelToUse s)) buffer = Some samples →
  update buffer s
  = match samples with
    | [] => Ok (s, [])
    | _ :: _ =>
        Err (if decide (bufferToFill s = []) then ChannelOutOfBounds 0
             else SampleOutOfBounds 0)
    end.
Proof.
  intros Hb Hi Hch. rewrite (update_reads _ _ _ Hch).
  destruct samples as [|x rest]; [done|].
  simpl pushSamples. unfold pushNextSampleIntoFifo. rewrite Hb, Hi. simpl.
  destruct (bufferToFill s) as [|c cs] eqn:Hfill.
  - by rewrite decide_True.
  - rewrite decide_False by done.
    destruct c; [|done]. done.
Qed.

Lemma pushSamples_app samples1 : ∀ samples2 s,
  pushSamples (samples1 ++ samples2) s
  = '(s1, pushed1) ← pushSamples samples1 s;
    '(s2, pushed2) ← pushSamples samples2 s1;
    Ok (s2, pushed1 ++ pushed2).
Proof.
  induction samples1 as [|x samples1 IH]; intros samples2 s.
  - simpl. by destruct (pushSamples samples2 s) as [[s2 p2]|e].
  - simpl. destruct (pushNextSampleIntoFifo x s) as [[s1 p1]|e]; [|done].
    simpl. rewrite IH.
    destruct (pushSamples samples1 s1) as [[s2 p2]|e]; [|done]. simpl.
    destruct (pushSamples samples2 s2) as [[s3 p3]|e]; [|done]. simpl.
    by rewrite app_assoc.
Qed.

(** X7: what the collector holds ready.  For a prepared collector with the
    cursor at 0 and a well-formed Fifo that holds nothing, feeding a channel
    of [B + 1] samples pushes one block: the Fifo then holds a one-channel
    block of exactly the first [B] samples, one complete block is
    available, [getAudioBuffer] answers true and takes it out of the Fifo,
    and nothing is available after that. *)
Theorem collected_block_waits_in_the_Fifo s buffer block samples next temp :
  bufferToFill s = [block] → fifoIndex s = 0 → (0 < length block)%nat →
  Fifo.wf (audioBufferFifo s) → Fifo_contents (audioBufferFifo s) = [] →
  getReadPointer (Channel_value (channelToUse s)) buffer = Some (samples ++ [next]) →
  length samples = length block →
  ∃ s',
    update buffer s = Ok (s', [[samples]])
    ∧ Fifo_contents (audioBufferFifo s') = [[samples]]
    ∧ getNumCompleteBuffersAvailable s' = 1
    ∧ (getAudioBuffer temp s').1.1 = true
    ∧ getNumCompleteBuffersAvailable (getAudioBuffer temp s').2 = 0.
Proof.
  intros Hb Hi Hpos Hwf Hempty Hch Hlen.
  rewrite (update_reads _ _ _ Hch), pushSamples_app.
  destruct (pushSamples_fit samples s block 0 Hb Hi)
    as (s1 & -> & Hi1 & Hb1 & Hf1 & Hc1 & _); [simpl; lia|].
  simpl in Hi1, Hb1. rewrite Hlen in Hi1.
  rewrite Hlen, drop_all, app_nil_r in Hb1.
  rewrite result_bind_Ok. cbv beta iota. simpl pushSamples.
  rewrite (pushNextSample_past s1 samples next Hb1) by (rewrite ?Hlen; done).
  rewrite !result_bind_Ok. cbv beta iota. rewrite Hf1.
  eexists. split; [reflexivity|].
  pose proof (free_space_contents _ Hwf) as Hfree. rewrite Hempty in Hfree.
  destruct (push_contents (audioBufferFifo s) [samples] Hwf) as [_ Hc];
    [rewrite Hfree; done|].
  rewrite Hempty in Hc. simpl in Hc.
  pose proof (push_wf (audioBufferFifo s) [samples] Hwf) as Hwf'.
  pose proof (contents_length _ Hwf') as Hlen'. rewrite Hc in Hlen'.
  destruct (pull_contents _ temp _ _ Hwf' Hc) as [Hpull Hrest].
  pose proof (pull_wf _ temp Hwf') as Hwf''.
  pose proof (contents_length _ Hwf'') as Hlen''. rewrite Hrest in Hlen''.
  unfold getAudioBuffer, getNumCompleteBuffersAvailable. cbn [audioBufferFifo].
  destruct (Fifo.pull temp (Fifo.push [samples] (audioBufferFifo s)).2)
    as [[ok out] f'].
  simpl in *. injection Hpull as -> _. split_and!; try done; lia.
Qed.

End CollectorLifeCycle.

Lemma collector_2_Fifo_wf :
  Fifo.wf (SingleChannelSampleFifo.audioBufferFifo collector_2).
Proof.
  unfold Fifo.wf, AbstractFifo.wf. simpl. unfold Fifo.Capacity.
  split; [lia|]. split; reflexivity.
Qed.

(** X5 for a collector whose block of two samples holds 3 and 4: a
    [prepare] for blocks of two samples leaves them there, one for blocks
    of three samples gives three zeros. *)
Lemma prepare_sizes_the_block_without_clearing_witness :
  SingleChannelSampleFifo.bufferToFill
    (@SingleChannelSampleFifo.prepare prepare_read_as_prepared 2
       {| SingleChannelSampleFifo.channelToUse := Left;
          SingleChannelSampleFifo.fifoIndex := 2;
          SingleChannelSampleFifo.audioBufferFifo := Fifo.create [];
          SingleChannelSampleFifo.bufferToFill := [[3%Q; 4%Q]];
          SingleChannelSampleFifo.prepared := true;
          SingleChannelSampleFifo.size := 2 |})
  = [[3%Q; 4%Q]]
  ∧ SingleChannelSampleFifo.bufferToFill
      (@SingleChannelSampleFifo.prepare prepare_read_as_prepared 3
         {| SingleChannelSampleFifo.channelToUse := Left;
            SingleChannelSampleFifo.fifoIndex := 2;
            SingleChannelSampleFifo.audioBufferFifo := Fifo.create [];
            SingleChannelSampleFifo.bufferToFill := [[3%Q; 4%Q]];
            SingleChannelSampleFifo.prepared := true;
            SingleChannelSampleFifo.size := 2 |})
    = [[0%Q; 0%Q; 0%Q]].
Proof.
  split.
  - destruct (@prepare_sizes_the_block_without_clearing prepare_read_as_prepared 2
                {| SingleChannelSampleFifo.channelToUse := Left;
                   SingleChannelSampleFifo.fifoIndex := 2;
                   SingleChannelSampleFifo.audioBufferFifo := Fifo.create [];
                   SingleChannelSampleFifo.bufferToFill := [[3%Q; 4%Q]];
                   SingleChannelSampleFifo.prepared := true;
                   SingleChannelSampleFifo.size := 2 |})
      as (_ & _ & _ & _ & _ & _ & _ & Hfill); [lia|].
    exact Hfill.
  - destruct (@prepare_sizes_the_block_without_clearing prepare_read_as_prepared 3
                {| SingleChannelSampleFifo.channelToUse := Left;
                   SingleChannelSampleFifo.fifoIndex := 2;
                   SingleChannelSampleFifo.audioBufferFifo := Fifo.create [];
                   SingleChannelSampleFifo.bufferToFill := [[3%Q; 4%Q]];
                   SingleChannelSampleFifo.prepared := true;
                   SingleChannelSampleFifo.size := 2 |})
      as (_ & _ & _ & _ & _ & _ & _ & Hfill); [lia|].
    exact Hfill.
Defined.

(** X6 for a collector that was never prepared. *)
Lemma update_without_block_faults_witness :
  SingleChannelSampleFifo.update stereo_buffer_2 (SingleChannelSampleFifo.create Left)
  = Err (ChannelOutOfBounds 0).
Proof.
  exact (update_without_block_faults (SingleChannelSampleFifo.create Left)
           stereo_buffer_2 [3%Q; 4%Q] eq_refl eq_refl eq_refl).
Defined.

(** X7 for the collector prepared for blocks of two samples, fed three. *)
Lemma collected_block_waits_in_the_Fifo_witness :
  ∃ s',
    SingleChannelSampleFifo.update [[1%Q; 2%Q; 3%Q]; [4%Q; 5%Q; 6%Q]] collector_2
    = Ok (s', [[[4%Q; 5%Q]]])
    ∧ Fifo_contents (SingleChannelSampleFifo.audioBufferFifo s') = [[[4%Q; 5%Q]]]
    ∧ SingleChannelSampleFifo.getNumCompleteBuffersAvailable s' = 1
    ∧ (SingleChannelSampleFifo.getAudioBuffer [] s').1.1 = true
    ∧ SingleChannelSampleFifo.getNumCompleteBuffersAvailable
        (SingleChannelSampleFifo.getAudioBuffer [] s').2 = 0.
Proof.
  apply (collected_block_waits_in_the_Fifo collector_2
           [[1%Q; 2%Q; 3%Q]; [4%Q; 5%Q; 6%Q]] [0%Q; 0%Q] [4%Q; 5%Q] 6%Q []);
    try reflexivity.
  - simpl. lia.
  - apply collector_2_Fifo_wf.
Defined.

(** ** What the coefficient updates touch *)

Section UpdateFrames.

Implicit Types (h : heap) (p old replacements : Coefficients) (o r l : loc).
Implicit Types (chain : CutFilter) (coeffs : list loc).

Lemma valid_dom h l : valid h (Some l) ↔ l ∈ dom h.
Proof.
  rewrite valid_inv, elem_of_dom. split.
  - intros (l' & v & [= <-] & Hl). by exists v.
  - intros [v Hl]. by exists l, v.
Qed.

Lemma not_valid_Err h p : ¬ valid h p → deref h p = Err NullPointer.
Proof.
  intros Hp. unfold valid, is_Ok, deref in *.
  destruct p as [l|]; simpl in *; [|done].
  destruct (h !! l) as [v|]; simpl in *; [|done].
  destruct Hp. by exists v.
Qed.

Lemma updateCoefficients_Ok_inv old replacements h h' :
  updateCoefficients old replacements h = Ok h' →
  ∃ o r v, old = Some o ∧ replacements = Some r ∧ h !! r = Some v
           ∧ is_Some (h !! o) ∧ h' = <[o := v]> h.
Proof.
  unfold updateCoefficients, deref. intros Hrun.
  destruct replacements as [r|]; simpl in Hrun; [|done].
  destruct (h !! r) as [v|] eqn:Hr; simpl in Hrun; [|done].
  destruct old as [o|]; simpl in Hrun; [|done].
  destruct (h !! o) as [w|] eqn:Ho; simpl in Hrun; [|done].
  exists o, r, v. split_and!; eauto. congruence.
Qed.

Lemma updateCoefficients_Err old replacements h e :
  updateCoefficients old replacements h = Err e → e = NullPointer.
Proof.
  unfold updateCoefficients, deref. intros Hrun.
  destruct replacements as [r|]; simpl in Hrun; [|congruence].
  destruct (h !! r) as [v|]; simpl in Hrun; [|congruence].
  destruct old as [o|]; simpl in Hrun; [|congruence].
  destruct (h !! o) as [w|]; simpl in Hrun; congruence.
Qed.

(** X8: [updateCoefficients] returns exactly when both pointers refer to
    objects of the store; with a null or dangling pointer on either side it
    dereferences it: the fault is a null-pointer access, and no store is
    produced. *)
Theorem updateCoefficients_returns_iff_valid old replacements h :
  (is_Ok (updateCoefficients old replacements h)
   ↔ valid h old ∧ valid h replacements)
  ∧ (¬ (valid h old ∧ valid h replacements) →
     updateCoefficients old replacements h = Err NullPointer).
Proof.
  assert (Hfwd : is_Ok (updateCoefficients old replacements h) →
                 valid h old ∧ valid h replacements).
  { intros [h' (o & r & v & -> & -> & Hr & [w Ho] & _)%updateCoefficients_Ok_inv].
    split; by eapply valid_lookup. }
  split; [split; [done|]|].
  - intros [Ho Hr].
    destruct (updateCoefficients_runs h old replacements Ho Hr) as (h' & Hrun & _).
    by exists h'.
  - intros Hnot. destruct (updateCoefficients old replacements h) as [h'|e] eqn:Hrun.
    + destruct Hnot. apply Hfwd. by exists h'.
    + by rewrite (updateCoefficients_Err _ _ _ _ Hrun).
Qed.

Lemma update_Ok_inv (Index : fin 4) coeffs h chain h' chain' :
  update Index coeffs (h, chain) = Ok (h', chain') →
  ∃ o r v, coefficients (get Index chain) = Some o
           ∧ array_at coeffs Index = Some r ∧ h !! r = Some v
           ∧ o ∈ dom h ∧ r ∈ dom h ∧ h' = <[o := v]> h ∧ dom h' = dom h
           ∧ chain' = setBypassed Index false chain.
Proof.
  unfold update. intros (h1 & Hrun & Heq)%result_bind_inv. simpl in *.
  apply updateCoefficients_Ok_inv in Hrun as (o & r & v & Ho & Hr & Hv & Hs & ->).
  injection Heq as <- <-. exists o, r, v. split_and!; try done.
  - by apply elem_of_dom.
  - apply elem_of_dom. by exists v.
  - by apply dom_insert_lookup_L.
Qed.

(** Take the run of [updateCutFilter] in [Hrun] apart, label by label. *)
Ltac invert_labels Hrun :=
  repeat match type of Hrun with
         | _ ≫= _ = Ok _ =>
             let hs := fresh "hs" in let cs := fresh "cs" in
             let o := fresh "o" in let r := fresh "r" in let v := fresh "v" in
             let Ho := fresh "Ho" in let Hr := fresh "Hr" in
             let Hv := fresh "Hv" in let Hod := fresh "Hod" in
             let Hrd := fresh "Hrd" in let Hd := fresh "Hd" in
             apply result_bind_inv in Hrun
               as ([hs cs] & (o & r & v & Ho & Hr & Hv & Hod & Hrd & -> & Hd & ->)%update_Ok_inv
                   & Hrun)
         end;
  let o := fresh "o" in let r := fresh "r" in let v := fresh "v" in
  let Ho := fresh "Ho" in let Hr := fresh "Hr" in
  let Hv := fresh "Hv" in let Hod := fresh "Hod" in
  let Hrd := fresh "Hrd" in let Hd := fresh "Hd" in
  apply update_Ok_inv in Hrun
    as (o & r & v & Ho & Hr & Hv & Hod & Hrd & -> & Hd & ->);
  rewrite ?get_setBypassed in *.

Lemma updateCutFilter_Ok_inv chain coeffs slope h h' chain' :
  updateCutFilter chain coeffs slope h = Ok (h', chain') →
  stages chain' = stages chain
  ∧ dom h' = dom h
  ∧ reachable_valid h chain coeffs slope
  ∧ ∀ l, (∀ i : fin 4, (fin_to_nat i ≤ Slope_stage slope)%nat →
                       coefficients (get i chain) ≠ Some l) →
         h' !! l = h !! l.
Proof.
  unfold updateCutFilter.
  destruct slope;
    unfold case_Slope_48, case_Slope_36, case_Slope_24, case_Slope_12;
    intros Hrun; invert_labels Hrun.
  all: split; [reflexivity|].
  all: split; [congruence|].
  all: split.
  all: try (intros i Hi; unfold Slope_stage in Hi; simpl in Hi;
            repeat (inv_fin i; [intros _; rewrite ?Ho, ?Ho0, ?Ho1, ?Ho2,
                                  ?Hr, ?Hr0, ?Hr1, ?Hr2;
                                split; apply valid_dom; congruence
                               | intros i Hi; simpl in Hi]);
            try lia; inv_fin i).
  all: intros l Hl; rewrite !lookup_insert_ne; [done|..];
       intros ->;
       match goal with
       | Ho : coefficients (get ?i _) = Some l |- _ =>
           exact (Hl i ltac:(unfold Slope_stage; simpl; lia) Ho)
       end.
Qed.

(** The objects named by the hypotheses in the context are different. *)
Ltac distinct_objects Hst Harr :=
  repeat match goal with
  | Ho : coefficients (get ?a ?chain) = Some ?oa,
    Hr : array_at ?coeffs ?b = Some ?rb |- _ =>
      lazymatch goal with
      | _ : rb ≠ oa |- _ => fail
      | _ => assert (rb ≠ oa) by (intros ->; exact (Harr a b oa Ho Hr))
      end
  | Ho : coefficients (get ?a ?chain) = Some ?oa,
    Ho' : coefficients (get ?b ?chain) = Some ?ob |- _ =>
      lazymatch a with b => fail | _ => idtac end;
      lazymatch goal with
      | _ : ob ≠ oa |- _ => fail
      | _ => assert (ob ≠ oa)
               by (intros ->; exact (Hst a b oa ltac:(discriminate) Ho Ho'))
      end
  end.

(** A stage the slope reaches holds, after the call, the value the array
    entry of its index had before it. *)
Lemma updateCutFilter_Ok_values chain coeffs slope h h' chain' :
  updateCutFilter chain coeffs slope h = Ok (h', chain') →
  separate chain coeffs →
  ∀ i : fin 4, (fin_to_nat i ≤ Slope_stage slope)%nat →
    deref h' (coefficients (get i chain)) = deref h (array_at coeffs i).
Proof.
  unfold updateCutFilter.
  destruct slope;
    unfold case_Slope_48, case_Slope_36, case_Slope_24, case_Slope_12;
    intros Hrun [Hst Harr]; invert_labels Hrun;
    distinct_objects Hst Harr;
    repeat match goal with
           | Hv : <[_ := _]> _ !! _ = Some _ |- _ =>
               rewrite lookup_insert_ne in Hv by congruence
           end;
    intros i Hi; unfold Slope_stage in Hi; simpl in Hi;
    repeat (inv_fin i;
            [intros _;
             match goal with
             | Ho : coefficients (get ?a ?chain) = Some _,
               Hr : array_at ?coeffs ?a = Some _
               |- context [array_at ?coeffs ?a] => rewrite Ho, Hr
             end;
             repeat first [ rewrite deref_insert_eq
                          | rewrite deref_insert_ne by congruence ];
             symmetry; by apply deref_lookup
            | intros i Hi; simpl in Hi]);
    try (exfalso; clear -Hi; lia); inv_fin i.
Qed.

(** A cut filter updated from an array that holds the values [vs]: the call
    returns, the stages the slope reaches hold the values of [vs] in order,
    the bypass flags follow the slope, and no object other than those of the
    stages is written. *)
Lemma updateCutFilter_array h (c : CutFilter) (ls : list loc) vs slope :
  (∀ i : fin 4, valid h (coefficients (get i c))) →
  (∀ i j : fin 4, i ≠ j → coefficients (get i c) ≠ coefficients (get j c)) →
  Forall2 (λ l v, h !! l = Some v) ls vs →
  (∀ (i : fin 4) l, coefficients (get i c) = Some l → l ∉ ls) →
  length vs = S (Slope_stage slope) →
  ∃ h' c', updateCutFilter c ls slope h = Ok (h', c')
    ∧ stages c' = stages c
    ∧ (∀ i : fin 4,
         isBypassed i c' = bool_decide (Slope_stage slope < fin_to_nat i)%nat)
    ∧ dom h' = dom h
    ∧ (∀ (i : fin 4) v, vs !! fin_to_nat i = Some v →
         deref h' (coefficients (get i c)) = Ok v)
    ∧ (∀ l, (∀ i : fin 4, coefficients (get i c) ≠ Some l) → h' !! l = h !! l).
Proof.
  intros Hval Hdis Hvs Hnew Hlen.
  pose proof (Forall2_length _ _ _ Hvs) as Hlen'.
  assert (reachable_valid h c ls slope) as Hreach.
  { intros i Hi. split; [done|]. unfold array_at.
    destruct (lookup_lt_is_Some_2 ls (fin_to_nat i)) as [l Hl]; [lia|].
    rewrite Hl. destruct (Forall2_lookup_l _ _ _ _ _ Hvs Hl) as (v & _ & Hv).
    by eapply valid_lookup. }
  assert (separate c ls) as Hsep.
  { split.
    - intros i j o Hij Hi Hj. apply (Hdis i j Hij). congruence.
    - intros i j o Hi Hj. apply (Hnew i o Hi).
      unfold array_at in Hj. by eapply list_elem_of_lookup_2. }
  destruct (updateCutFilter_runs h c ls slope Hreach)
    as (h' & c' & Hrun & Hst & _ & Hflags).
  destruct (updateCutFilter_Ok_inv _ _ _ _ _ _ Hrun) as (_ & Hdom & _ & Hframe).
  exists h', c'. split_and!; try done.
  - intros i v Hv.
    rewrite (updateCutFilter_Ok_values _ _ _ _ _ _ Hrun Hsep i).
    + unfold array_at.
      destruct (Forall2_lookup_r _ _ _ _ _ Hvs Hv) as (l & -> & Hl).
      by apply deref_lookup.
    + apply lookup_lt_Some in Hv. lia.
  - intros l Hl. apply Hframe. intros i _. apply Hl.
Qed.

Lemma update_Err (Index : fin 4) coeffs (st : heap * CutFilter) e :
  update Index coeffs st = Err e → e = NullPointer.
Proof.
  unfold update.
  destruct (updateCoefficients _ _ _) as [h'|e'] eqn:Hrun; simpl; [done|].
  intros [= <-]. by eapply updateCoefficients_Err.
Qed.

Lemma result_bind_Err_inv {A B} (r : result A) (k : A → result B) e :
  r ≫= k = Err e → r = Err e ∨ ∃ a, r = Ok a ∧ k a = Err e.
Proof.
  destruct r as [a|e']; intros Hk; [right; by exists a|].
  simpl in Hk. injection Hk as ->. by left.
Qed.

Lemma updateCutFilter_Err chain coeffs slope h e :
  updateCutFilter chain coeffs slope h = Err e → e = NullPointer.
Proof.
  unfold updateCutFilter.
  destruct slope;
    unfold case_Slope_48, case_Slope_36, case_Slope_24, case_Slope_12;
    intros Hrun;
    repeat match type of Hrun with
           | _ ≫= _ = Err _ =>
               apply result_bind_Err_inv in Hrun as [Hrun|(? & _ & Hrun)];
               [exact (update_Err _ _ _ _ Hrun)|cbv beta in Hrun]
           end;
    exact (update_Err _ _ _ _ Hrun).
Qed.

(** X9: [updateCutFilter] returns exactly when the coefficient pointers of
    stages [0..slope] and the entries [0..slope] of the array refer to
    objects of the store.  Otherwise it dereferences a null pointer; in
    particular an array with fewer than [slope + 1] entries always faults,
    since [operator[]] answers null past the end of the array. *)
Theorem updateCutFilter_returns_iff_valid chain coeffs slope h :
  (is_Ok (updateCutFilter chain coeffs slope h)
   ↔ reachable_valid h chain coeffs slope)
  ∧ (¬ reachable_valid h chain coeffs slope →
     updateCutFilter chain coeffs slope h = Err NullPointer)
  ∧ ((length coeffs ≤ Slope_stage slope)%nat →
     updateCutFilter chain coeffs slope h = Err NullPointer).
Proof.
  assert (Hfwd : is_Ok (updateCutFilter chain coeffs slope h) →
                 reachable_valid h chain coeffs slope).
  { intros [[h' chain'] Hrun]. by apply updateCutFilter_Ok_inv in Hrun as (_ & _ & Hv & _). }
  assert (Hnot : ¬ reachable_valid h chain coeffs slope →
                 updateCutFilter chain coeffs slope h = Err NullPointer).
  { intros Hn. destruct (updateCutFilter chain coeffs slope h) as [st|e] eqn:Hrun.
    - destruct Hn. apply Hfwd. by exists st.
    - by rewrite (updateCutFilter_Err _ _ _ _ _ Hrun). }
  split; [split; [done|]|split; [done|]].
  - intros Hv.
    destruct (updateCutFilter_runs h chain coeffs slope Hv) as (h' & chain' & Hrun & _).
    by exists (h', chain').
  - intros Hlen. apply Hnot. intros Hv.
    assert (∃ i : fin 4, fin_to_nat i = Slope_stage slope) as [i Hi].
    { destruct slope; [by exists 0%fin | by exists 1%fin | by exists 2%fin
                       | by exists 3%fin]. }
    destruct (Hv i) as [_ Harr]; [lia|].
    apply valid_inv in Harr as (l & v & Hl & _).
    unfold array_at in Hl. rewrite lookup_ge_None_2 in Hl by lia. done.
Qed.

(** X10: what [updateCutFilter] leaves alone.  Whenever it returns, the
    store has the same locations as before (nothing is allocated or freed),
    every object other than the coefficient objects of stages [0..slope] is
    unchanged, and the stages still point to the same objects: only their
    contents and the bypass flags change. *)
Theorem updateCutFilter_changes_only_reached_stages chain coeffs slope h h' chain' :
  updateCutFilter chain coeffs slope h = Ok (h', chain') →
  stages chain' = stages chain
  ∧ dom h' = dom h
  ∧ ∀ l, (∀ i : fin 4, (fin_to_nat i ≤ Slope_stage slope)%nat →
                       coefficients (get i chain) ≠ Some l) →
         h' !! l = h !! l.
Proof.
  intros Hrun.
  apply updateCutFilter_Ok_inv in Hrun as (Hst & Hd & _ & Hframe). done.
Qed.

End UpdateFrames.

(** X8 at [peak_store]: locations 1 and 2 hold objects, so the call returns. *)
Lemma updateCoefficients_returns_iff_valid_witness :
  is_Ok (updateCoefficients (Some 1%positive) (Some 2%positive) peak_store)
  ∧ updateCoefficients (Some 1%positive) None peak_store = Err NullPointer.
Proof.
  destruct (updateCoefficients_returns_iff_valid
              (Some 1%positive) (Some 2%positive) peak_store) as [[_ Hok] _].
  destruct (updateCoefficients_returns_iff_valid
              (Some 1%positive) None peak_store) as [_ Herr].
  split.
  - apply Hok. split; eexists; by vm_compute.
  - apply Herr. intros [_ [v Hv]]. by vm_compute in Hv.
Defined.

(** X9 for an array of one coefficient set at slope 24 dB/Oct. *)
Lemma updateCutFilter_returns_iff_valid_witness :
  updateCutFilter (CutFilter_at 1%positive) [5%positive] Slope_24 designed_store
  = Err NullPointer.
Proof.
  destruct (updateCutFilter_returns_iff_valid
              (CutFilter_at 1%positive) [5%positive] Slope_24 designed_store)
    as (_ & _ & Hshort).
  apply Hshort. vm_compute. lia.
Defined.

(** X10 for the cut filter at locations 1..4 at slope 12 dB/Oct: location 4,
    the object of the last stage, is unchanged. *)
Lemma updateCutFilter_changes_only_reached_stages_witness :
  ∃ h' chain',
    updateCutFilter (CutFilter_at 1%positive) designed_array Slope_12 designed_store
    = Ok (h', chain')
    ∧ dom h' = dom designed_store
    ∧ h' !! 4%positive = designed_store !! 4%positive.
Proof.
  destruct (updateCutFilter (CutFilter_at 1%positive) designed_array Slope_12
              designed_store) as [[h' chain']|e] eqn:Hrun; [|by vm_compute in Hrun].
  exists h', chain'. split; [done|].
  destruct (updateCutFilter_changes_only_reached_stages _ _ _ _ _ _ Hrun)
    as (_ & Hd & Hframe).
  split; [exact Hd|]. apply Hframe.
  intros i Hi. unfold Slope_stage in Hi. simpl in Hi.
  inv_fin i; [intros _; by vm_compute | intros i Hi; simpl in Hi; lia].
Defined.

(** ** The timer and bursts of notifications *)

Section TimerExtras.

Import SingleChannelSampleFifo.
Implicit Types (w : Plugin) (fuel : nat) (events : list Event).

Lemma run_app fuel events1 : ∀ events2 w,
  run fuel (events1 ++ events2) w = run fuel events1 w ≫= run fuel events2.
Proof.
  induction events1 as [|e events1 IH]; intros events2 w; [done|].
  simpl. destruct (handle fuel w e) as [w1|err]; [|done]. simpl. apply IH.
Qed.

Lemma run_notifications fuel events : ∀ w,
  Forall (λ e, isTimerCallback e = false) events → events ≠ [] →
  run fuel events w
  = Ok {| store := store w; audioProcessor := audioProcessor w;
          responseCurveComponent :=
            parameterValueChanged 0 0%Q (responseCurveComponent w) |}.
Proof.
  induction events as [|e events IH]; intros w Hall Hne; [done|].
  apply Forall_cons_1 in Hall as [He Hall].
  destruct e as [i x|]; [|done]. simpl.
  destruct events as [|e' events']; [done|].
  rewrite IH by done. done.
Qed.

(** X11: a burst of notifications is one notification.  Any non-empty
    sequence of parameter-change notifications followed by a timer callback
    leaves the plug-in in the same state (or faults the same way) as a
    single notification followed by the timer callback: the values and the
    number of the notifications do not matter. *)
Theorem burst_of_notifications_coalesces fuel events w :
  Forall (λ e, isTimerCallback e = false) events → events ≠ [] →
  run fuel (events ++ [TimerCallback]) w
  = run fuel [ParameterValueChanged 0 0%Q; TimerCallback] w.
Proof.
  intros Hall Hne. rewrite run_app, run_notifications by done. done.
Qed.

(** X12: what the timer callback does to the processor's side.  On a
    well-formed plug-in it pulls every complete block out of the left
    collector's Fifo, so that none is ready afterwards, and touches nothing
    else of the processor: the block being filled and its cursor, the
    right collector, the two chains and the parameters are as before.  When
    the flag was not set it also leaves the store and the mirror chain as
    they were. *)
Theorem timerCallback_drains_the_left_collector fuel w :
  Plugin_wf w → (Z.to_nat Fifo.Capacity ≤ fuel)%nat →
  ∃ w', timerCallback fuel w = Ok w'
    ∧ getNumCompleteBuffersAvailable (leftChannelFifo (audioProcessor w')) = 0
    ∧ fifoIndex (leftChannelFifo (audioProcessor w'))
      = fifoIndex (leftChannelFifo (audioProcessor w))
    ∧ bufferToFill (leftChannelFifo (audioProcessor w'))
      = bufferToFill (leftChannelFifo (audioProcessor w))
    ∧ rightChannelFifo (audioProcessor w') = rightChannelFifo (audioProcessor w)
    ∧ leftChain (audioProcessor w') = leftChain (audioProcessor w)
    ∧ rightChain (audioProcessor w') = rightChain (audioProcessor w)
    ∧ apvts (audioProcessor w') = apvts (audioProcessor w)
    ∧ (parametersChanged (responseCurveComponent w) = false →
       store w' = store w
       ∧ responseCurveComponent w' = responseCurveComponent w).
Proof.
  intros [Hv Hf] Hfuel. unfold timerCallback.
  destruct (drainFifo_runs fuel [] (leftChannelFifo (audioProcessor w)) Hf)
    as (s' & -> & Hw & Hz & Hi & Hb & _).
  { pose proof (numReady_bounds _ Hf) as Hb.
    unfold getNumCompleteBuffersAvailable, Fifo.Capacity in *. lia. }
  rewrite result_bind_Ok.
  destruct (parametersChanged (responseCurveComponent w)) eqn:Hflag; simpl.
  - match goal with
    | |- context [updateChain ?p ?c ?h] =>
        destruct (updateChain_runs p c h) as (h' & c' & -> & _); [done|]
    end.
    eexists. split; [reflexivity|]. simpl. by split_and!.
  - eexists. split; [reflexivity|]. simpl. split_and!; try done.
    intros _. split; [done|].
    destruct (responseCurveComponent w); simpl in *. by subst.
Qed.

End TimerExtras.

(** X11 for three notifications on the open plug-in. *)
Lemma burst_of_notifications_coalesces_witness :
  run 30 [ParameterValueChanged 0 100%Q; ParameterValueChanged 2 500%Q;
          ParameterValueChanged 0 120%Q; TimerCallback] (open_plugin false)
  = run 30 [ParameterValueChanged 0 0%Q; TimerCallback] (open_plugin false).
Proof.
  apply (burst_of_notifications_coalesces 30
           [ParameterValueChanged 0 100%Q; ParameterValueChanged 2 500%Q;
            ParameterValueChanged 0 120%Q] (open_plugin false)).
  - by repeat constructor.
  - discriminate.
Defined.

Lemma playing_plugin_wf flag : Plugin_wf (playing_plugin flag).
Proof.
  split.
  - split; [|split].
    + intros i. repeat (inv_fin i; [eexists; by vm_compute | intros i]); inv_fin i.
    + eexists; by vm_compute.
    + intros i. repeat (inv_fin i; [eexists; by vm_compute | intros i]); inv_fin i.
  - unfold Fifo.wf, AbstractFifo.wf. vm_compute. split_and!; done.
Qed.

(** X12 for the plug-in while audio is running, with the flag clear: the two
    blocks that wait in the left collector are gone after the callback, and
    the store is as before. *)
Lemma timerCallback_drains_the_left_collector_witness :
  SingleChannelSampleFifo.getNumCompleteBuffersAvailable
    (leftChannelFifo (audioProcessor (playing_plugin false))) = 2
  ∧ ∃ w', timerCallback 30 (playing_plugin false) = Ok w'
      ∧ SingleChannelSampleFifo.getNumCompleteBuffersAvailable
          (leftChannelFifo (audioProcessor w')) = 0
      ∧ store w' = store (playing_plugin false).
Proof.
  split; [by vm_compute|].
  destruct (timerCallback_drains_the_left_collector 30 (playing_plugin false)
              (playing_plugin_wf false))
    as (w' & Hrun & Hz & _ & _ & _ & _ & _ & _ & Hsame); [vm_compute; lia|].
  exists w'. split; [exact Hrun|]. split; [exact Hz|].
  destruct Hsame as [Hstore _]; [reflexivity | exact Hstore].
Defined.

(** ** The response curve of any chain *)

Section PaintExtras.

Context `{JuceNumerics}.
Implicit Types (h : heap) (chain : MonoChain) (sampleRate : float).

Lemma stageMagnitude_runs h (c : CutFilter) Index (freq rate mag : R) :
  (isBypassed Index c = false → valid h (coefficients (get Index c))) →
  is_Ok (stageMagnitude h c Index freq rate mag).
Proof.
  intros Hv. unfold stageMagnitude.
  destruct (isBypassed Index c); simpl; [by eexists|].
  destruct Hv as [v ->]; [done|]. simpl. by eexists.
Qed.

Lemma stageMagnitude_Ok_inv h (c : CutFilter) Index (freq rate mag mag' : R) :
  stageMagnitude h c Index freq rate mag = Ok mag' →
  isBypassed Index c = false → valid h (coefficients (get Index c)).
Proof.
  unfold stageMagnitude. intros Hrun Hb. rewrite Hb in Hrun. simpl in Hrun.
  destruct (deref h (coefficients (get Index c))) as [v|e] eqn:Hd; [|done].
  by exists v.
Qed.

Lemma stageMagnitude_Err h (c : CutFilter) Index (freq rate mag : R) e :
  stageMagnitude h c Index freq rate mag = Err e → e = NullPointer.
Proof.
  unfold stageMagnitude. destruct (isBypassed Index c); simpl; [done|].
  unfold deref. destruct (coefficients (get Index c)) as [l|]; simpl; [|congruence].
  destruct (h !! l); simpl; congruence.
Qed.

Lemma magnitudeAt_runs h chain sampleRate w i :
  queried_valid h chain → is_Ok (magnitudeAt h chain sampleRate w i).
Proof.
  intros (Hp & Hl & Hh). unfold magnitudeAt. cbv zeta.
  destruct (MonoChain_isBypassed Peak chain) eqn:Hb; simpl negb; cbv iota;
    [|destruct Hp as [v Hv]; [done|]; rewrite Hv, result_bind_Ok];
    rewrite result_bind_Ok;
    repeat match goal with
           | |- is_Ok (stageMagnitude ?h ?c ?i ?f ?sr ?m ≫= _) =>
               let m' := fresh "m" in let Hm := fresh "Hm" in
               destruct (stageMagnitude_runs h c i f sr m) as [m' Hm];
               [auto | rewrite Hm, result_bind_Ok]
           end;
    by eexists.
Qed.

Lemma magnitudeAt_Ok_inv h chain sampleRate w i m :
  magnitudeAt h chain sampleRate w i = Ok m → queried_valid h chain.
Proof.
  unfold magnitudeAt. cbv zeta. intros Hrun.
  apply result_bind_inv in Hrun as (m0 & Hpeak & Hrun). cbv beta in Hrun.
  repeat match type of Hrun with
         | stageMagnitude _ _ _ _ _ _ ≫= _ = Ok _ =>
             let m' := fresh "m" in let Hm := fresh "Hm" in
             apply result_bind_inv in Hrun as (m' & Hm & Hrun);
             pose proof (stageMagnitude_Ok_inv _ _ _ _ _ _ _ Hm); clear Hm;
             cbv beta in Hrun
         end.
  split_and!.
  - intros Hb. rewrite Hb in Hpeak. simpl in Hpeak.
    destruct (deref h (coefficients (peak chain))) as [v|e] eqn:Hd; [|done].
    by exists v.
  - intros j. repeat (inv_fin j; [done | intros j]); inv_fin j.
  - intros j. repeat (inv_fin j; [done | intros j]); inv_fin j.
Qed.

Lemma magnitudeAt_Err h chain sampleRate w i e :
  magnitudeAt h chain sampleRate w i = Err e → e = NullPointer.
Proof.
  unfold magnitudeAt. cbv zeta. intros Hrun.
  apply result_bind_Err_inv in Hrun as [Hrun|(m0 & _ & Hrun)].
  { destruct (MonoChain_isBypassed Peak chain); simpl in Hrun; [done|].
    unfold deref in Hrun.
    destruct (coefficients (peak chain)) as [l|]; simpl in Hrun; [|congruence].
    destruct (h !! l); simpl in Hrun; congruence. }
  cbv beta in Hrun.
  repeat match type of Hrun with
         | stageMagnitude _ _ _ _ _ _ ≫= _ = Err _ =>
             apply result_bind_Err_inv in Hrun as [Hrun|(? & _ & Hrun)];
             [by eapply stageMagnitude_Err|cbv beta in Hrun]
         end.
  done.
Qed.

Lemma fillMagnitudes_runs h chain sampleRate w indices :
  queried_valid h chain →
  ∃ ms, fillMagnitudes h chain sampleRate w indices = Ok ms
        ∧ length ms = length indices.
Proof.
  intros Hv. induction indices as [|i rest (ms & IH & Hlen)]; [by exists []|].
  destruct (magnitudeAt_runs h chain sampleRate w i Hv) as [m Hm].
  exists (m :: ms). simpl. rewrite Hm, result_bind_Ok, IH. simpl.
  split; [done|]. by rewrite Hlen.
Qed.

(** X13: the loop of [paint] queries only the stages that are not bypassed.
    When each of those refers to an object of the store, it produces
    exactly [w] magnitudes (none for [w <= 0]); the coefficient pointers of
    bypassed stages are never dereferenced.  When [w >= 1] and a queried
    stage has a null pointer, the loop dereferences it. *)
Theorem paint_queries_only_active_stages h chain sampleRate w :
  (queried_valid h chain →
   ∃ ms, paint_magnitudes h chain sampleRate w = Ok ms
         ∧ length ms = Z.to_nat w)
  ∧ (0 < w → ¬ queried_valid h chain →
     paint_magnitudes h chain sampleRate w = Err NullPointer).
Proof.
  unfold paint_magnitudes. split.
  - intros Hv.
    destruct (fillMagnitudes_runs h chain sampleRate w (seqZ 0 w) Hv)
      as (ms & Hrun & Hlen).
    exists ms. split; [done|]. by rewrite Hlen, length_seqZ.
  - intros Hw Hnot. rewrite seqZ_cons by done. simpl.
    destruct (magnitudeAt h chain sampleRate w 0) as [m|e] eqn:Hm.
    + destruct Hnot. by eapply magnitudeAt_Ok_inv.
    + simpl. by rewrite (magnitudeAt_Err _ _ _ _ _ _ Hm).
Qed.

End PaintExtras.

(** X13 for the fully bypassed chain on an empty store, and for a chain
    whose peak is queried through a null pointer. *)
Lemma paint_queries_only_active_stages_witness :
  (∃ ms, @paint_magnitudes passThrough_numerics ∅ bypassed_chain 44100%Q 3 = Ok ms
         ∧ length ms = 3%nat)
  ∧ @paint_magnitudes passThrough_numerics ∅ null_peak_chain 44100%Q 3
    = Err NullPointer.
Proof.
  destruct (@paint_queries_only_active_stages passThrough_numerics
              ∅ bypassed_chain 44100%Q 3) as [Hok _].
  destruct (@paint_queries_only_active_stages passThrough_numerics
              ∅ null_peak_chain 44100%Q 3) as [_ Herr].
  split.
  - apply Hok. split_and!; [done| |];
      intros i; repeat (inv_fin i; [done | intros i]); inv_fin i.
  - apply Herr; [lia|]. intros (Hp & _).
    destruct Hp as [v Hv]; [done|]. by vm_compute in Hv.
Defined.

(** ** Bus layouts *)

Section Layouts.

Context `{JucePlugin}.

Lemma AudioChannelSet_eqb_eq (a b : AudioChannelSet) :
  AudioChannelSet_eqb a b = true ↔ a = b.
Proof.
  destruct a as [| |n], b as [| |m]; simpl; try (split; congruence).
  rewrite Z.eqb_eq. split; congruence.
Qed.

(** X14: the layouts [isBusesLayoutSupported] accepts.  A MIDI effect
    accepts every layout.  Otherwise the main output must be mono or
    stereo, and unless the plug-in is a synth the main input must be the
    same channel set as the main output. *)
Theorem isBusesLayoutSupported_iff (layouts : BusesLayout) :
  isBusesLayoutSupported layouts = true
  ↔ JucePlugin_IsMidiEffect = true
    ∨ ((getMainOutputChannelSet layouts = mono
        ∨ getMainOutputChannelSet layouts = stereo)
       ∧ (JucePlugin_IsSynth = true
          ∨ getMainInputChannelSet layouts = getMainOutputChannelSet layouts)).
Proof.
  unfold isBusesLayoutSupported.
  destruct JucePlugin_IsMidiEffect; [by split; [left|]|].
  pose proof (AudioChannelSet_eqb_eq (getMainOutputChannelSet layouts) mono) as Hm.
  pose proof (AudioChannelSet_eqb_eq (getMainOutputChannelSet layouts) stereo) as Hs.
  pose proof (AudioChannelSet_eqb_eq (getMainOutputChannelSet layouts)
                (getMainInputChannelSet layouts)) as Hio.
  destruct (AudioChannelSet_eqb (getMainOutputChannelSet layouts) mono),
    (AudioChannelSet_eqb (getMainOutputChannelSet layouts) stereo),
    JucePlugin_IsSynth,
    (AudioChannelSet_eqb (getMainOutputChannelSet layouts)
       (getMainInputChannelSet layouts)); simpl;
    split; try done; intros Hsup;
    try (right; split; [tauto|]; first [by left | right; symmetry; tauto]);
    destruct Hsup as [?|[[?|?] [?|Heq]]]; try done;
    try (symmetry in Heq); intuition congruence.
Qed.

End Layouts.

(** X14 for the effect with a stereo layout. *)
Lemma isBusesLayoutSupported_iff_witness :
  @isBusesLayoutSupported effect_plugin
    {| getMainInputChannelSet := stereo; getMainOutputChannelSet := stereo |} = true.
Proof.
  apply (@isBusesLayoutSupported_iff effect_plugin). right.
  split; [by right | by right].
Defined.

(** ** What an update of a whole chain establishes *)

Section Allocation.

Implicit Types (h : heap) (l : loc) (v : IIR.Coefficients).

Lemma alloc_fresh v h : (alloc v h).1 ∉ dom h.
Proof. unfold alloc. simpl. apply is_fresh. Qed.

Lemma alloc_old v h l : l ∈ dom h → (alloc v h).2 !! l = h !! l.
Proof.
  intros Hl. unfold alloc. simpl. apply lookup_insert_ne.
  intros <-. by apply (is_fresh (dom h)).
Qed.

Lemma alloc_dom v h : dom h ⊆ dom (alloc v h).2.
Proof. unfold alloc. simpl. rewrite dom_insert_L. set_solver. Qed.

(** The array a designer returns: its objects are new, hold the designed
    values in order, and every object that existed is unchanged. *)
Lemma allocArray_values vs : ∀ h,
  Forall2 (λ l v, (allocArray vs h).2 !! l = Some v) (allocArray vs h).1 vs
  ∧ (∀ l, l ∈ dom h → (allocArray vs h).2 !! l = h !! l)
  ∧ Forall (λ l, l ∉ dom h) (allocArray vs h).1
  ∧ dom h ⊆ dom (allocArray vs h).2.
Proof.
  induction vs as [|v vs IH]; intros h.
  - simpl. split_and!; [constructor | done | constructor | done].
  - change (allocArray (v :: vs) h)
      with (let '(ls, h2) := allocArray vs (alloc v h).2 in ((alloc v h).1 :: ls, h2)).
    pose proof (alloc_fresh v h) as Hfresh.
    pose proof (alloc_old v h) as Hold.
    pose proof (alloc_dom v h) as Hdom.
    destruct (alloc_spec v h) as [Hl _].
    destruct (alloc v h) as [l h1]. cbn [fst snd] in *.
    destruct (IH h1) as (Hvals & Hkeep & Hnew & Hsub).
    destruct (allocArray vs h1) as [ls h2]. simpl in *.
    split_and!.
    + constructor; [|done]. rewrite Hkeep; [done|]. apply elem_of_dom. by eexists.
    + intros l' Hl'. rewrite Hkeep by (by apply Hdom). by apply Hold.
    + constructor; [done|]. eapply Forall_impl; [exact Hnew|].
      intros l' Hl' Hin. by apply Hl', Hdom.
    + by etrans.
Qed.

End Allocation.
Section MirrorChainRealisation.

Implicit Types (h : heap) (l : loc) (chain : MonoChain).

Lemma MonoChain_owned_valid h chain :
  MonoChain_owned h chain → MonoChain_valid h chain.
Proof.
  intros [Hval _]. split_and!.
  - intros i. apply (Hval (LowCutStage i)).
  - apply (Hval PeakStage).
  - intros i. apply (Hval (HighCutStage i)).
Qed.

Lemma MonoChain_owned_dom h chain pos l :
  MonoChain_owned h chain → MonoChain_pointer chain pos = Some l → l ∈ dom h.
Proof. intros [Hval _] Hl. apply valid_dom. rewrite <- Hl. apply Hval. Qed.

(** X15: [ResponseCurveComponent::updateChain] on a mirror chain that owns
    its nine coefficient objects.  The call returns; afterwards the peak
    filter holds the peak coefficients designed from the current parameter
    values and the sample rate, stage [i] of each cut filter holds section
    [i] of its Butterworth design (for every section the design has), the
    bypass flag of a cut stage is set exactly when the stage is above the
    slope, the filters still own the same objects, and no other object that
    was in the store is changed. *)
Theorem updateChain_realises_the_parameters (proc : SimpleEQAudioProcessor)
    (c : ResponseCurveComponent) h :
  MonoChain_owned h (monoChain c) →
  ∃ h' c', updateChain proc c h = Ok (h', c')
    ∧ (∀ pos, MonoChain_pointer (monoChain c') pos
              = MonoChain_pointer (monoChain c) pos)
    ∧ deref h' (coefficients (peak (monoChain c')))
      = Ok (makePeakFilter (getChainSettings (apvts proc)) (getSampleRate proc))
    ∧ (∀ (i : fin 4) v,
         makeLowCutFilter (getChainSettings (apvts proc)) (getSampleRate proc)
           !! fin_to_nat i = Some v →
         deref h' (coefficients (get i (lowCut (monoChain c')))) = Ok v)
    ∧ (∀ (i : fin 4) v,
         makeHighCutFilter (getChainSettings (apvts proc)) (getSampleRate proc)
           !! fin_to_nat i = Some v →
         deref h' (coefficients (get i (highCut (monoChain c')))) = Ok v)
    ∧ (∀ i : fin 4,
         isBypassed i (lowCut (monoChain c'))
         = bool_decide (Slope_stage (lowCutSlope (getChainSettings (apvts proc)))
                        < fin_to_nat i)%nat)
    ∧ (∀ i : fin 4,
         isBypassed i (highCut (monoChain c'))
         = bool_decide (Slope_stage (highCutSlope (getChainSettings (apvts proc)))
                        < fin_to_nat i)%nat)
    ∧ (∀ p, MonoChain_isBypassed p (monoChain c')
            = MonoChain_isBypassed p (monoChain c))
    ∧ (∀ l, l ∈ dom h → ¬ MonoChain_refers (monoChain c) l → h' !! l = h !! l)
    ∧ MonoChain_owned h' (monoChain c').
Proof.
  intros Hown. pose proof Hown as [Hval Hdis]. unfold updateChain.
  set (cs := getChainSettings (apvts proc)). set (sr := getSampleRate proc).
  (* the peak coefficients *)
  pose proof (alloc_fresh (makePeakFilter cs sr) h) as Hf0.
  pose proof (alloc_old (makePeakFilter cs sr) h) as Ho0.
  pose proof (alloc_dom (makePeakFilter cs sr) h) as Hd0.
  destruct (alloc_spec (makePeakFilter cs sr) h) as [Ha _].
  destruct (alloc (makePeakFilter cs sr) h) as [lp h0]. cbn [fst snd] in *.
  destruct (proj1 (valid_inv _ _) (Hval PeakStage)) as (op & vp & Hop & Hvp).
  simpl in Hop. rewrite Hop.
  rewrite (updateCoefficients_Ok h0 op lp (makePeakFilter cs sr)); [|done|];
    [|rewrite Ho0; [by eexists | by apply elem_of_dom; eexists]].
  rewrite result_bind_Ok. cbv beta iota.
  set (h1 := <[op := makePeakFilter cs sr]> h0).
  assert (dom h1 = dom h0) as Hd1.
  { apply dom_insert_lookup_L. rewrite Ho0; [by eexists | by apply elem_of_dom; eexists]. }
  (* the two designed arrays *)
  destruct (allocArray_values (makeLowCutFilter cs sr) h1)
    as (Hv2 & Ho2 & Hf2 & Hd2).
  destruct (allocArray (makeLowCutFilter cs sr) h1) as [ls h2]. cbn [fst snd] in *.
  destruct (allocArray_values (makeHighCutFilter cs sr) h2)
    as (Hv3 & Ho3 & Hf3 & Hd3).
  destruct (allocArray (makeHighCutFilter cs sr) h2) as [hs h3]. cbn [fst snd] in *.
  cbv beta iota.
  change (LowCut_Slope (apvts proc)) with (lowCutSlope cs).
  change (HighCut_Slope (apvts proc)) with (highCutSlope cs).
  assert (∀ pos l, MonoChain_pointer (monoChain c) pos = Some l → l ∈ dom h)
    as Hin by (intros pos l; by apply MonoChain_owned_dom).
  assert (dom h ⊆ dom h1) as Hsub1 by (rewrite Hd1; done).
  assert (dom h ⊆ dom h2) as Hsub2 by (etrans; done).
  assert (dom h ⊆ dom h3) as Hsub3 by (etrans; done).
  (* the low cut *)
  destruct (updateCutFilter_array h3 (lowCut (monoChain c)) ls
              (makeLowCutFilter cs sr) (lowCutSlope cs))
    as (h4 & low & -> & Hst4 & Hfl4 & Hd4 & Hv4 & Ho4).
  { intros i. destruct (proj1 (valid_inv _ _) (Hval (LowCutStage i)))
      as (l & v & Hl & _). simpl in Hl. rewrite Hl. apply valid_dom.
    apply Hsub3. by apply (Hin (LowCutStage i)). }
  { intros i j Hij. apply (Hdis (LowCutStage i) (LowCutStage j)). congruence. }
  { eapply Forall2_impl; [exact Hv2|]. intros l v Hl. cbv beta in *.
    rewrite Ho3; [done|]. apply elem_of_dom. by eexists. }
  { intros i l Hl Hls. eapply (Forall_forall _ _) in Hf2; [|exact Hls].
    apply Hf2, Hsub1. by apply (Hin (LowCutStage i)). }
  { apply makeLowCutFilter_length. }
  rewrite result_bind_Ok. cbv beta iota.
  (* the high cut *)
  destruct (updateCutFilter_array h4 (highCut (monoChain c)) hs
              (makeHighCutFilter cs sr) (highCutSlope cs))
    as (h5 & high & -> & Hst5 & Hfl5 & Hd5 & Hv5 & Ho5).
  { intros i. destruct (proj1 (valid_inv _ _) (Hval (HighCutStage i)))
      as (l & v & Hl & _). simpl in Hl. rewrite Hl. apply valid_dom.
    rewrite Hd4. apply Hsub3. by apply (Hin (HighCutStage i)). }
  { intros i j Hij. apply (Hdis (HighCutStage i) (HighCutStage j)). congruence. }
  { apply Forall2_same_length_lookup. split; [by eapply Forall2_length|].
    intros k l v Hl Hv. rewrite Ho4; [by eapply (Forall2_lookup_lr _ _ _ _ _ _ Hv3)|].
    intros i Hi. eapply (Forall_lookup_1 _ _ _ _ Hf3 Hl), Hsub2.
    by apply (Hin (LowCutStage i)). }
  { intros i l Hl Hhs. eapply (Forall_forall _ _) in Hf3; [|exact Hhs].
    apply Hf3, Hsub2. by apply (Hin (HighCutStage i)). }
  { apply makeHighCutFilter_length. }
  rewrite result_bind_Ok. cbv beta iota.
  exists h5. eexists. split; [reflexivity|]. cbn [monoChain].
  assert (∀ pos, MonoChain_pointer
                   (MonoChain_setHighCut high (MonoChain_setLowCut low (monoChain c))) pos
                 = MonoChain_pointer (monoChain c) pos) as Hsame.
  { intros [i| |i]; simpl; [by rewrite (get_stages _ _ i Hst4) | done
                           | by rewrite (get_stages _ _ i Hst5)]. }
  assert (∀ pos l, MonoChain_pointer (monoChain c) pos = Some l →
            (∀ i : fin 4, coefficients (get i (highCut (monoChain c))) ≠ Some l)
            ∨ ∃ i, pos = HighCutStage i) as Hhigh.
  { intros pos l Hl.
    destruct pos as [j| |j]; [left|left|right; by exists j];
      intros i Hi; [apply (Hdis (HighCutStage i) (LowCutStage j))
                   |apply (Hdis (HighCutStage i) PeakStage)];
      try done; simpl in *; congruence. }
  assert (∀ pos l, MonoChain_pointer (monoChain c) pos = Some l →
            (∀ i : fin 4, coefficients (get i (lowCut (monoChain c))) ≠ Some l)
            ∨ ∃ i, pos = LowCutStage i) as Hlow.
  { intros pos l Hl.
    destruct pos as [j| |j]; [right; by exists j|left|left];
      intros i Hi; [apply (Hdis (LowCutStage i) PeakStage)
                   |apply (Hdis (LowCutStage i) (HighCutStage j))];
      try done; simpl in *; congruence. }
  split_and!.
  - exact Hsame.
  - simpl. rewrite Hop. apply deref_lookup.
    destruct (Hhigh PeakStage op Hop) as [Hh|[i [=]]].
    destruct (Hlow PeakStage op Hop) as [Hl|[i [=]]].
    pose proof (Hin PeakStage op Hop) as Hdom.
    rewrite (Ho5 _ Hh), (Ho4 _ Hl), Ho3, Ho2 by (by auto).
    apply lookup_insert_eq.
  - intros i v Hv. simpl. rewrite (get_stages _ _ i Hst4).
    specialize (Hv4 i v Hv).
    destruct (proj1 (valid_inv _ _) (Hval (LowCutStage i))) as (l & w & Hl & _).
    simpl in Hl. rewrite Hl in *.
    destruct (Hhigh (LowCutStage i) l Hl) as [Hh|[j [=]]].
    unfold deref in *. simpl in *. by rewrite (Ho5 _ Hh).
  - intros i v Hv. simpl. rewrite (get_stages _ _ i Hst5). by apply Hv5.
  - intros i. simpl. apply Hfl4.
  - intros i. simpl. apply Hfl5.
  - by intros [].
  - intros l Hl Hnot.
    rewrite Ho5, Ho4, Ho3, Ho2 by
      (first [ by auto
             | intros i Hi; apply Hnot;
               first [by exists (LowCutStage i) | by exists (HighCutStage i)] ]).
    unfold h1. rewrite lookup_insert_ne; [by apply Ho0|].
    intros ->. apply Hnot. by exists PeakStage.
  - split.
    + intros pos. rewrite Hsame.
      destruct (proj1 (valid_inv _ _) (Hval pos)) as (l & w & Hl & _).
      rewrite Hl. apply valid_dom. rewrite Hd5, Hd4. apply Hsub3. by eapply Hin.
    + intros a b Hab. rewrite !Hsame. by apply Hdis.
Qed.

End MirrorChainRealisation.
Section ProcessorRealisation.

Implicit Types (h : heap) (l : loc) (chain : MonoChain) (c : CutFilter).

Lemma deref_Ok_lookup h l v : deref h (Some l) = Ok v → h !! l = Some v.
Proof.
  unfold deref. simpl. destruct (h !! l) as [w|]; simpl; [|done]. by intros [= ->].
Qed.

(** The two cut filters of a kind, updated one after the other from one
    designed array. *)
Lemma updateCutFilter_pair h c1 c2 vs slope :
  (∀ i : fin 4, valid h (coefficients (get i c1))) →
  (∀ i : fin 4, valid h (coefficients (get i c2))) →
  (∀ i j : fin 4, i ≠ j → coefficients (get i c1) ≠ coefficients (get j c1)) →
  (∀ i j : fin 4, i ≠ j → coefficients (get i c2) ≠ coefficients (get j c2)) →
  (∀ i j : fin 4, coefficients (get i c1) ≠ coefficients (get j c2)) →
  length vs = S (Slope_stage slope) →
  ∃ h1 c1' h2 c2',
    updateCutFilter c1 (allocArray vs h).1 slope (allocArray vs h).2 = Ok (h1, c1')
    ∧ updateCutFilter c2 (allocArray vs h).1 slope h1 = Ok (h2, c2')
    ∧ stages c1' = stages c1 ∧ stages c2' = stages c2
    ∧ (∀ i : fin 4,
         isBypassed i c1' = bool_decide (Slope_stage slope < fin_to_nat i)%nat
         ∧ isBypassed i c2' = bool_decide (Slope_stage slope < fin_to_nat i)%nat)
    ∧ dom h ⊆ dom h2
    ∧ (∀ (i : fin 4) v, vs !! fin_to_nat i = Some v →
         deref h2 (coefficients (get i c1)) = Ok v
         ∧ deref h2 (coefficients (get i c2)) = Ok v)
    ∧ (∀ l, l ∈ dom h →
         (∀ i : fin 4, coefficients (get i c1) ≠ Some l) →
         (∀ i : fin 4, coefficients (get i c2) ≠ Some l) → h2 !! l = h !! l).
Proof.
  intros Hv1 Hv2 Hd1 Hd2 Hd12 Hlen.
  destruct (allocArray_values vs h) as (Hvs & Hold & Hnew & Hsub).
  destruct (allocArray vs h) as [ls h0]. cbn [fst snd] in *.
  assert (∀ c (i : fin 4) l, valid h (coefficients (get i c)) →
            coefficients (get i c) = Some l → l ∉ ls) as Hout.
  { intros c i l Hv Hl Hin. rewrite Hl in Hv. apply valid_dom in Hv.
    by eapply (proj1 (Forall_forall _ _) Hnew). }
  assert (∀ p, valid h p → valid h0 p) as Hk0.
  { intros p (l & v & -> & Hl)%valid_inv. apply valid_dom, Hsub, elem_of_dom.
    by eexists. }
  destruct (updateCutFilter_array h0 c1 ls vs slope)
    as (h1 & c1' & Hrun1 & Hst1 & Hfl1 & Hdom1 & Hval1 & Hfr1); try done.
  { intros i. apply Hk0, Hv1. }
  { intros i l. apply Hout, Hv1. }
  destruct (updateCutFilter_array h1 c2 ls vs slope)
    as (h2 & c2' & Hrun2 & Hst2 & Hfl2 & Hdom2 & Hval2 & Hfr2); try done.
  { intros i. destruct (proj1 (valid_inv _ _) (Hv2 i)) as (l & v & Hl & Hlv).
    rewrite Hl. apply valid_dom. rewrite Hdom1. apply Hsub, elem_of_dom. by eexists. }
  { apply Forall2_same_length_lookup. split; [by eapply Forall2_length|].
    intros k l v Hl Hv. rewrite Hfr1; [by eapply (Forall2_lookup_lr _ _ _ _ _ _ Hvs)|].
    intros i Hi. eapply (Hout c1 i l); [apply Hv1|done|].
    by eapply list_elem_of_lookup_2. }
  { intros i l. apply Hout, Hv2. }
  exists h1, c1', h2, c2'. split_and!; try done.
  - rewrite Hdom2, Hdom1. done.
  - intros i v Hv. split; [|by apply Hval2].
    specialize (Hval1 i v Hv).
    destruct (proj1 (valid_inv _ _) (Hv1 i)) as (l & w & Hl & _).
    rewrite Hl in *. unfold deref in *. simpl in *. rewrite Hfr2; [done|].
    intros j Hj. apply (Hd12 i j). congruence.
  - intros l Hl Hn1 Hn2. rewrite Hfr2, Hfr1 by done. by apply Hold.
Qed.

(** X16: [SimpleEQAudioProcessor::updateFilters] on a processor whose two
    chains own their coefficient objects.  The call returns; afterwards the
    filter at every position of the left chain and of the right chain holds
    the coefficients designed for that position from the current parameter
    values, so both channels are filtered alike; the bypass flags of the cut
    stages follow the slopes in both chains; the filters own the same
    objects as before; nothing but the two chains of the processor changes,
    and no object of the store outside the two chains is written. *)
Theorem updateFilters_realises_the_parameters (p : SimpleEQAudioProcessor) h :
  Processor_owned h p →
  ∃ h' left right,
    updateFilters p h = Ok (h', setChains left right p)
    ∧ (∀ pos, MonoChain_pointer left pos = MonoChain_pointer (leftChain p) pos
              ∧ MonoChain_pointer right pos = MonoChain_pointer (rightChain p) pos)
    ∧ (∀ pos v,
         designedCoefficients (getChainSettings (apvts p)) (getSampleRate p) pos
         = Some v →
         deref h' (MonoChain_pointer left pos) = Ok v
         ∧ deref h' (MonoChain_pointer right pos) = Ok v)
    ∧ (∀ i : fin 4,
         isBypassed i (lowCut left)
         = bool_decide (Slope_stage (lowCutSlope (getChainSettings (apvts p)))
                        < fin_to_nat i)%nat
         ∧ isBypassed i (lowCut right) = isBypassed i (lowCut left))
    ∧ (∀ i : fin 4,
         isBypassed i (highCut left)
         = bool_decide (Slope_stage (highCutSlope (getChainSettings (apvts p)))
                        < fin_to_nat i)%nat
         ∧ isBypassed i (highCut right) = isBypassed i (highCut left))
    ∧ (∀ l, l ∈ dom h → ¬ MonoChain_refers (leftChain p) l →
            ¬ MonoChain_refers (rightChain p) l → h' !! l = h !! l)
    ∧ Processor_owned h' (setChains left right p).
Proof.
  intros (Hl & Hr & Hlr). pose proof Hl as [Hvl Hdl]. pose proof Hr as [Hvr Hdr].
  unfold updateFilters, updateLowCutFilters.
  set (cs := getChainSettings (apvts p)). set (sr := getSampleRate p).
  (* the low cuts *)
  destruct (updateCutFilter_pair h (lowCut (leftChain p)) (lowCut (rightChain p))
              (makeLowCutFilter cs sr) (lowCutSlope cs))
    as (h1 & low1 & h2 & low2 & Hrun1 & Hrun2 & Hst1 & Hst2 & Hfl12 & Hsub2
        & Hval2 & Hfr2).
  { intros i. apply (Hvl (LowCutStage i)). }
  { intros i. apply (Hvr (LowCutStage i)). }
  { intros i j Hij. apply (Hdl (LowCutStage i) (LowCutStage j)). congruence. }
  { intros i j Hij. apply (Hdr (LowCutStage i) (LowCutStage j)). congruence. }
  { intros i j. apply (Hlr (LowCutStage i) (LowCutStage j)). }
  { apply makeLowCutFilter_length. }
  destruct (allocArray (makeLowCutFilter cs sr) h) as [ls h0]. cbn [fst snd] in *.
  cbv beta iota. rewrite Hrun1, result_bind_Ok. cbv beta iota.
  rewrite Hrun2, result_bind_Ok. cbv beta iota. rewrite result_bind_Ok. cbv beta iota.
  (* the peaks *)
  unfold updatePeakFilter.
  cbn [leftChain rightChain setChains getSampleRate peak MonoChain_setLowCut].
  fold sr.
  pose proof (alloc_fresh (makePeakFilter cs sr) h2) as Hlp.
  pose proof (alloc_old (makePeakFilter cs sr) h2) as Hold3.
  pose proof (alloc_dom (makePeakFilter cs sr) h2) as Hsub3.
  destruct (alloc_spec (makePeakFilter cs sr) h2) as [Ha _].
  destruct (alloc (makePeakFilter cs sr) h2) as [lp h3]. cbn [fst snd] in *.
  destruct (proj1 (valid_inv _ _) (Hvl PeakStage)) as (opl & vl & Hopl & Hvopl).
  destruct (proj1 (valid_inv _ _) (Hvr PeakStage)) as (opr & vr & Hopr & Hvopr).
  assert (∀ pos l, MonoChain_pointer (leftChain p) pos = Some l → l ∈ dom h)
    as Hinl by (intros pos l; by apply MonoChain_owned_dom).
  assert (∀ pos l, MonoChain_pointer (rightChain p) pos = Some l → l ∈ dom h)
    as Hinr by (intros pos l; by apply MonoChain_owned_dom).
  pose proof (Hinl _ _ Hopl) as Hopl_in. pose proof (Hinr _ _ Hopr) as Hopr_in.
  assert (opl ≠ opr) as Hpeaks
    by (intros ->; apply (Hlr PeakStage PeakStage); congruence).
  cbn [MonoChain_pointer] in Hopl, Hopr. rewrite Hopl, Hopr.
  assert (dom h ⊆ dom h3) as Hsub03 by (etrans; done).
  rewrite (updateCoefficients_Ok h3 opl lp (makePeakFilter cs sr)); [|done|];
    [|by apply elem_of_dom, Hsub03].
  rewrite result_bind_Ok.
  set (h4 := <[opl := makePeakFilter cs sr]> h3).
  assert (dom h4 = dom h3) as Hdom4
    by (by apply dom_insert_lookup_L, elem_of_dom, Hsub03).
  rewrite (updateCoefficients_Ok h4 opr lp (makePeakFilter cs sr)); cycle 1.
  { unfold h4. rewrite lookup_insert_ne; [done|]. intros ->. by apply Hlp, Hsub2. }
  { apply elem_of_dom. rewrite Hdom4. by apply Hsub03. }
  rewrite result_bind_Ok.
  set (h5 := <[opr := makePeakFilter cs sr]> h4).
  assert (dom h5 = dom h4) as Hdom5.
  { apply dom_insert_lookup_L, elem_of_dom. rewrite Hdom4. by apply Hsub03. }
  assert (dom h ⊆ dom h5) as Hsub05 by (rewrite Hdom5, Hdom4; done).
  (* the high cuts *)
  unfold updateHighCutFilters.
  cbn [leftChain rightChain setChains getSampleRate highCut MonoChain_setLowCut].
  fold sr.
  destruct (updateCutFilter_pair h5 (highCut (leftChain p)) (highCut (rightChain p))
              (makeHighCutFilter cs sr) (highCutSlope cs))
    as (h6 & high1 & h7 & high2 & Hrun6 & Hrun7 & Hst6 & Hst7 & Hfl67 & Hsub7
        & Hval7 & Hfr7).
  { intros i. destruct (proj1 (valid_inv _ _) (Hvl (HighCutStage i)))
      as (l & v & Hl' & _). pose proof (Hinl _ _ Hl'). simpl in Hl'.
    rewrite Hl'. by apply valid_dom, Hsub05. }
  { intros i. destruct (proj1 (valid_inv _ _) (Hvr (HighCutStage i)))
      as (l & v & Hl' & _). pose proof (Hinr _ _ Hl'). simpl in Hl'.
    rewrite Hl'. by apply valid_dom, Hsub05. }
  { intros i j Hij. apply (Hdl (HighCutStage i) (HighCutStage j)). congruence. }
  { intros i j Hij. apply (Hdr (HighCutStage i) (HighCutStage j)). congruence. }
  { intros i j. apply (Hlr (HighCutStage i) (HighCutStage j)). }
  { apply makeHighCutFilter_length. }
  destruct (allocArray (makeHighCutFilter cs sr) h5) as [hs h5']. cbn [fst snd] in *.
  cbv beta iota. rewrite Hrun6, result_bind_Ok. cbv beta iota.
  rewrite Hrun7, result_bind_Ok. cbv beta iota.
  exists h7, (MonoChain_setHighCut high1 (MonoChain_setLowCut low1 (leftChain p))),
    (MonoChain_setHighCut high2 (MonoChain_setLowCut low2 (rightChain p))).
  split; [reflexivity|].
  (* what each step leaves alone *)
  assert (∀ l, l ∈ dom h →
            (∀ j, MonoChain_pointer (leftChain p) (HighCutStage j) ≠ Some l) →
            (∀ j, MonoChain_pointer (rightChain p) (HighCutStage j) ≠ Some l) →
            h7 !! l = h5 !! l) as Hkeep_high.
  { intros l Hin H1 H2. apply Hfr7; [by apply Hsub05|done..]. }
  assert (∀ l, l ∈ dom h →
            MonoChain_pointer (leftChain p) PeakStage ≠ Some l →
            MonoChain_pointer (rightChain p) PeakStage ≠ Some l →
            h5 !! l = h2 !! l) as Hkeep_peak.
  { intros l Hin H1 H2. unfold h5, h4.
    rewrite !lookup_insert_ne by (cbn in H1, H2; congruence).
    by apply Hold3, Hsub2. }
  assert (∀ l, l ∈ dom h →
            (∀ j, MonoChain_pointer (leftChain p) (LowCutStage j) ≠ Some l) →
            (∀ j, MonoChain_pointer (rightChain p) (LowCutStage j) ≠ Some l) →
            h2 !! l = h !! l) as Hkeep_low.
  { intros l Hin H1 H2. by apply Hfr2. }
  assert (∀ pos,
            MonoChain_pointer
              (MonoChain_setHighCut high1 (MonoChain_setLowCut low1 (leftChain p))) pos
            = MonoChain_pointer (leftChain p) pos
            ∧ MonoChain_pointer
                (MonoChain_setHighCut high2 (MonoChain_setLowCut low2 (rightChain p))) pos
              = MonoChain_pointer (rightChain p) pos) as Hsame.
  { intros [i| |i]; simpl;
      rewrite ?(get_stages _ _ i Hst1), ?(get_stages _ _ i Hst2),
        ?(get_stages _ _ i Hst6), ?(get_stages _ _ i Hst7); done. }
  (* an object of one filter is the object of no other filter *)
  assert (∀ a b l, MonoChain_pointer (leftChain p) a = Some l →
            a ≠ b → MonoChain_pointer (leftChain p) b ≠ Some l) as Hll
    by (intros a b l Ha' Hab Hb; apply (Hdl a b Hab); congruence).
  assert (∀ a b l, MonoChain_pointer (rightChain p) a = Some l →
            a ≠ b → MonoChain_pointer (rightChain p) b ≠ Some l) as Hrr
    by (intros a b l Ha' Hab Hb; apply (Hdr a b Hab); congruence).
  assert (∀ a b l, MonoChain_pointer (leftChain p) a = Some l →
            MonoChain_pointer (rightChain p) b ≠ Some l) as Hlr'
    by (intros a b l Ha' Hb; apply (Hlr a b); congruence).
  assert (∀ a b l, MonoChain_pointer (rightChain p) a = Some l →
            MonoChain_pointer (leftChain p) b ≠ Some l) as Hrl'
    by (intros a b l Ha' Hb; apply (Hlr b a); congruence).
  split_and!.
  - exact Hsame.
  - intros pos v Hv. destruct (Hsame pos) as [-> ->].
    destruct (proj1 (valid_inv _ _) (Hvl pos)) as (ll & wl & Hll' & _).
    destruct (proj1 (valid_inv _ _) (Hvr pos)) as (lr & wr & Hlr'' & _).
    rewrite Hll', Hlr''.
    destruct pos as [i| |i]; cbn [designedCoefficients] in Hv.
    + destruct (Hval2 i v Hv) as [H1 H2].
      change (deref h2 (MonoChain_pointer (leftChain p) (LowCutStage i)) = Ok v) in H1.
      change (deref h2 (MonoChain_pointer (rightChain p) (LowCutStage i)) = Ok v) in H2.
      rewrite Hll' in H1. rewrite Hlr'' in H2.
      apply deref_Ok_lookup in H1, H2.
      split; apply deref_lookup.
      * rewrite Hkeep_high, Hkeep_peak;
          first [ done | by eapply Hinl | intros; by eapply Hll | intros; by eapply Hlr' ].
      * rewrite Hkeep_high, Hkeep_peak;
          first [ done | by eapply Hinr | intros; by eapply Hrr | intros; by eapply Hrl' ].
    + injection Hv as <-.
      assert (ll = opl) as -> by (cbn in Hll'; congruence).
      assert (lr = opr) as -> by (cbn in Hlr''; congruence).
      split; apply deref_lookup.
      * rewrite Hkeep_high;
          [|first [ done | intros; by eapply Hll | intros; by eapply Hlr' ]..].
        unfold h5, h4. rewrite lookup_insert_ne by done. apply lookup_insert_eq.
      * rewrite Hkeep_high;
          [|first [ done | intros; by eapply Hrr | intros; by eapply Hrl' ]..].
        apply lookup_insert_eq.
    + destruct (Hval7 i v Hv) as [H1 H2].
      change (deref h7 (MonoChain_pointer (leftChain p) (HighCutStage i)) = Ok v) in H1.
      change (deref h7 (MonoChain_pointer (rightChain p) (HighCutStage i)) = Ok v) in H2.
      by rewrite <- Hll', <- Hlr''.
  - intros i. cbn. destruct (Hfl12 i) as [-> ->]. done.
  - intros i. cbn. destruct (Hfl67 i) as [-> ->]. done.
  - intros l Hin Hnl Hnr.
    assert (∀ pos, MonoChain_pointer (leftChain p) pos ≠ Some l) as Hnl'
      by (intros pos Hpos; apply Hnl; by exists pos).
    assert (∀ pos, MonoChain_pointer (rightChain p) pos ≠ Some l) as Hnr'
      by (intros pos Hpos; apply Hnr; by exists pos).
    rewrite Hkeep_high, Hkeep_peak, Hkeep_low; auto.
  - assert (∀ chain, (∀ pos l, MonoChain_pointer chain pos = Some l → l ∈ dom h) →
              (∀ pos, valid h (MonoChain_pointer chain pos)) →
              ∀ pos, valid h7 (MonoChain_pointer chain pos)) as Hstill.
    { intros chain Hin Hv pos.
      destruct (proj1 (valid_inv _ _) (Hv pos)) as (l & w & Hl' & _).
      rewrite Hl'. apply valid_dom, Hsub7, Hsub05. by eapply Hin. }
    split_and!; cbn [leftChain rightChain setChains].
    + split.
      * intros pos. rewrite (proj1 (Hsame pos)). by apply Hstill.
      * intros a b Hab. rewrite (proj1 (Hsame a)), (proj1 (Hsame b)). by apply Hdl.
    + split.
      * intros pos. rewrite (proj2 (Hsame pos)). by apply Hstill.
      * intros a b Hab. rewrite (proj2 (Hsame a)), (proj2 (Hsame b)). by apply Hdr.
    + intros a b. rewrite (proj1 (Hsame a)), (proj2 (Hsame b)). apply Hlr.
Qed.

End ProcessorRealisation.
Section BlockProcessing.

Context `{JuceNumerics}.

(** X17: [processBlock] on a well-formed processor and a buffer of at least
    two channels.  The filters are updated from the parameters first and the
    chains process with the updated store; channel 0 is replaced by the
    output of the left chain and channel 1 by the output of the right chain,
    every other channel is left as it was; the collectors are then fed from
    the processed buffer.  [Channel::Left] has the value 1, so the collector
    named left receives channel 1, the output of the right chain, and the
    collector named right receives channel 0, the output of the left
    chain. *)
Theorem processBlock_feeds_the_collectors_crosswise buffer p h :
  Processor_wf h p → 2 <= getNumChannels buffer →
  ∃ h' left right leftBlock rightBlock leftFifo rightFifo leftPushed rightPushed,
    updateFilters p h = Ok (h', setChains left right p)
    ∧ buffer !! 0%nat = Some leftBlock
    ∧ buffer !! 1%nat = Some rightBlock
    ∧ SingleChannelSampleFifo.pushSamples
        (MonoChain_process h' right rightBlock).2 (leftChannelFifo p)
      = Ok (leftFifo, leftPushed)
    ∧ SingleChannelSampleFifo.pushSamples
        (MonoChain_process h' left leftBlock).2 (rightChannelFifo p)
      = Ok (rightFifo, rightPushed)
    ∧ processBlock buffer p h
      = Ok (h',
            setFifos leftFifo rightFifo
              (setChains (MonoChain_process h' left leftBlock).1
                         (MonoChain_process h' right rightBlock).1 p),
            <[1%nat := (MonoChain_process h' right rightBlock).2]>
              (<[0%nat := (MonoChain_process h' left leftBlock).2]> buffer)).
Proof.
  intros (Hl & Hr & Hlf & Hrf & Hlc & Hrc & Hio) Hn.
  unfold processBlock. rewrite Hio, Z.sub_diag.
  change (clearChannels (seqZ (getTotalNumOutputChannels p) 0) buffer) with (Ok buffer).
  rewrite result_bind_Ok.
  destruct (updateFilters_runs p h Hl Hr) as (h' & l & r & Hrun & _).
  rewrite Hrun, result_bind_Ok. cbv beta iota zeta. unfold getSingleChannelBlock.
  cbn [fst snd].
  destruct (getReadPointer_inside 0 buffer) as (leftBlock & Hp0 & Hb0); [lia|].
  destruct (getReadPointer_inside 1 buffer) as (rightBlock & Hp1 & Hb1); [lia|].
  rewrite Hp0, Hp1. simpl readSamples. rewrite result_bind_Ok.
  cbn [leftChain rightChain setChains].
  destruct (pushSamples_runs (MonoChain_process h' r rightBlock).2
              (leftChannelFifo p) Hlf) as (leftFifo & leftPushed & Hpl & _).
  destruct (pushSamples_runs (MonoChain_process h' l leftBlock).2
              (rightChannelFifo p) Hrf) as (rightFifo & rightPushed & Hpr & _).
  exists h', l, r, leftBlock, rightBlock, leftFifo, rightFifo, leftPushed, rightPushed.
  split_and!; try done.
  destruct (MonoChain_process h' l leftBlock) as [leftChain' leftOut].
  rewrite result_bind_Ok.
  destruct (MonoChain_process h' r rightBlock) as [rightChain' rightOut].
  cbn [fst snd] in *.
  set (processed := <[1%nat := rightOut]> (<[0%nat := leftOut]> buffer)).
  assert (length processed = length buffer) as Hlen
    by (unfold processed; by rewrite !length_insert).
  assert (getReadPointer 1 processed = Some rightOut) as Hread1.
  { destruct (getReadPointer_inside 1 processed) as (s & -> & Hs);
      [unfold getNumChannels in *; lia|].
    unfold processed in Hs. simpl in Hs.
    rewrite list_lookup_insert_eq in Hs by
      (rewrite length_insert; unfold getNumChannels in Hn; lia).
    congruence. }
  assert (getReadPointer 0 processed = Some leftOut) as Hread0.
  { destruct (getReadPointer_inside 0 processed) as (s & -> & Hs);
      [unfold getNumChannels in *; lia|].
    unfold processed in Hs. simpl in Hs.
    rewrite list_lookup_insert_ne in Hs by done.
    rewrite list_lookup_insert_eq in Hs by (unfold getNumChannels in Hn; lia).
    congruence. }
  cbn [leftChannelFifo rightChannelFifo setChains].
  rewrite (update_reads (leftChannelFifo p) processed rightOut)
    by (by rewrite Hlc).
  rewrite Hpl, result_bind_Ok. cbv beta iota.
  rewrite (update_reads (rightChannelFifo p) processed leftOut)
    by (by rewrite Hrc).
  rewrite Hpr, result_bind_Ok. done.
Qed.

End BlockProcessing.

(** ** The concrete states own their coefficient objects *)

Lemma StagePosition_index_inj a b :
  StagePosition_index a = StagePosition_index b → a = b.
Proof.
  destruct a as [i| |i], b as [j| |j]; simpl;
    try pose proof (fin_to_nat_lt i); try pose proof (fin_to_nat_lt j);
    intros Heq; try lia; try done; f_equal; apply fin_to_nat_inj; lia.
Qed.

Lemma StagePosition_index_lt pos : (StagePosition_index pos < 9)%nat.
Proof. destruct pos as [i| |i]; simpl; try pose proof (fin_to_nat_lt i); lia. Qed.

Lemma MonoChain_at_pointer l pos :
  MonoChain_pointer (MonoChain_at l) pos
  = Some (Pos.of_nat (Pos.to_nat l + StagePosition_index pos)).
Proof.
  destruct pos as [i| |i]; [| simpl; f_equal; lia |];
    repeat (inv_fin i; [simpl; f_equal; lia | intros i]); inv_fin i.
Qed.

Lemma MonoChain_at_distinct l a b :
  a ≠ b → MonoChain_pointer (MonoChain_at l) a ≠ MonoChain_pointer (MonoChain_at l) b.
Proof.
  intros Hab. rewrite !MonoChain_at_pointer. intros [= Heq]. apply Hab.
  apply StagePosition_index_inj. lia.
Qed.

Lemma MonoChain_at_owned_27 : MonoChain_owned (passThrough_store 27) (MonoChain_at 19%positive).
Proof.
  split; [|intros a b; apply MonoChain_at_distinct].
  intros [i| |i]; [|eexists; by vm_compute|];
    repeat (inv_fin i; [eexists; by vm_compute | intros i]); inv_fin i.
Qed.

Lemma prepared_processor_owned :
  Processor_owned (passThrough_store 18) prepared_processor.
Proof.
  split_and!.
  - split; [|intros a b; apply MonoChain_at_distinct].
    intros [i| |i]; [|eexists; by vm_compute|];
      repeat (inv_fin i; [eexists; by vm_compute | intros i]); inv_fin i.
  - split; [|intros a b; apply MonoChain_at_distinct].
    intros [i| |i]; [|eexists; by vm_compute|];
      repeat (inv_fin i; [eexists; by vm_compute | intros i]); inv_fin i.
  - intros a b. cbn [leftChain rightChain prepared_processor].
    rewrite !MonoChain_at_pointer. intros [= Heq].
    pose proof (StagePosition_index_lt a). pose proof (StagePosition_index_lt b). lia.
Qed.

(** X15 for the open plug-in: after [updateChain] the peak filter of the
    mirror chain holds the peak design of the default parameters. *)
Lemma updateChain_realises_the_parameters_witness :
  ∃ h' c',
    updateChain prepared_processor
      {| parametersChanged := true; monoChain := MonoChain_at 19%positive; calls := [] |}
      (passThrough_store 27) = Ok (h', c')
    ∧ deref h' (coefficients (peak (monoChain c')))
      = Ok (makePeakFilter (getChainSettings createParameterLayout) 44100%Q).
Proof.
  destruct (updateChain_realises_the_parameters prepared_processor
              {| parametersChanged := true; monoChain := MonoChain_at 19%positive; calls := [] |}
              (passThrough_store 27) MonoChain_at_owned_27)
    as (h' & c' & Hrun & _ & Hpeak & _).
  exists h', c'. split; [exact Hrun | exact Hpeak].
Defined.

(** X16 for the prepared processor: after [updateFilters] both chains hold
    the designed coefficients at every position. *)
Lemma updateFilters_realises_the_parameters_witness :
  ∃ h' left right,
    updateFilters prepared_processor (passThrough_store 18)
    = Ok (h', setChains left right prepared_processor)
    ∧ ∀ pos v,
        designedCoefficients (getChainSettings createParameterLayout) 44100%Q pos
        = Some v →
        deref h' (MonoChain_pointer left pos) = Ok v
        ∧ deref h' (MonoChain_pointer right pos) = Ok v.
Proof.
  destruct (updateFilters_realises_the_parameters prepared_processor
              (passThrough_store 18) prepared_processor_owned)
    as (h' & left & right & Hrun & _ & Hval & _).
  exists h', left, right. split; [exact Hrun | exact Hval].
Defined.

(** X17 for the prepared processor and a stereo block of two samples. *)
Lemma processBlock_feeds_the_collectors_crosswise_witness :
  ∃ h' p' buffer',
    @processBlock passThrough_numerics stereo_buffer_2 prepared_processor
      (passThrough_store 18) = Ok (h', p', buffer').
Proof.
  destruct (@processBlock_feeds_the_collectors_crosswise passThrough_numerics
              stereo_buffer_2 prepared_processor (passThrough_store 18)
              prepared_processor_wf ltac:(vm_compute; discriminate))
    as (h' & l & r & lb & rb & lf & rf & lp & rp & _ & _ & _ & _ & _ & Hrun).
  do 3 eexists. exact Hrun.
Defined.

(** ** Preparing the processor *)

Section Preparing.

Context `{UndeclaredMember}.

(** X18: [prepareToPlay] with a block size of at least one sample, on a
    processor whose chains refer to coefficient objects, returns and leaves
    the processor as [processBlock] needs it: the chains still refer to
    objects of the store, and each collector is prepared for blocks of
    [samplesPerBlock] samples, with its cursor at 0 and its channel
    unchanged. *)
Theorem prepareToPlay_establishes_Processor_wf sampleRate samplesPerBlock
    (p : SimpleEQAudioProcessor) (h : heap) :
  MonoChain_valid h (leftChain p) → MonoChain_valid h (rightChain p) →
  SingleChannelSampleFifo.channelToUse (leftChannelFifo p) = Left →
  SingleChannelSampleFifo.channelToUse (rightChannelFifo p) = Right →
  getTotalNumInputChannels p = getTotalNumOutputChannels p →
  1 <= samplesPerBlock →
  ∃ h' p', prepareToPlay sampleRate samplesPerBlock p h = Ok (h', p')
    ∧ Processor_wf h' p'
    ∧ SingleChannelSampleFifo.isPrepared (leftChannelFifo p') = true
    ∧ SingleChannelSampleFifo.isPrepared (rightChannelFifo p') = true
    ∧ SingleChannelSampleFifo.getSize (leftChannelFifo p') = samplesPerBlock
    ∧ SingleChannelSampleFifo.getSize (rightChannelFifo p') = samplesPerBlock
    ∧ SingleChannelSampleFifo.fifoIndex (leftChannelFifo p') = 0
    ∧ SingleChannelSampleFifo.fifoIndex (rightChannelFifo p') = 0.
Proof.
  intros Hl Hr Hlc Hrc Hio Hn. unfold prepareToPlay.
  destruct (updateFilters_runs p h Hl Hr) as (h' & l & r & -> & Hl' & Hr').
  rewrite result_bind_Ok. cbv beta iota.
  do 2 eexists. split; [reflexivity|].
  split; [|by split_and!].
  unfold Processor_wf. simpl. split_and!; try done; by apply collector_prepare_wf.
Qed.

End Preparing.

(** X18 for the processor of the examples, prepared for blocks of 512
    samples. *)
Lemma prepareToPlay_establishes_Processor_wf_witness :
  ∃ h' p', @prepareToPlay prepare_read_as_prepared 44100%Q 512
             prepared_processor (passThrough_store 18)
           = Ok (h', p')
           ∧ Processor_wf h' p'.
Proof.
  destruct prepared_processor_wf as (Hl & Hr & _).
  destruct (@prepareToPlay_establishes_Processor_wf prepare_read_as_prepared
              44100%Q 512 prepared_processor
              (passThrough_store 18) Hl Hr eq_refl eq_refl eq_refl ltac:(lia))
    as (h' & p' & Hrun & Hwf & _).
  exists h', p'. split; [exact Hrun | exact Hwf].
Defined.

(** ** The areas of the response curve and the path drawn in them *)

Section Areas.

Lemma response_areas_geometry_aux (width height : Z) :
  0 <= width → 0 <= height →
  Rectangle.getWidth (getAnalysisArea (getLocalBounds width height)) = Z.max (width - 40) 0
  ∧ Rectangle.getX (getAnalysisArea (getLocalBounds width height)) = Z.min 20 width.
Proof.
  intros HW HH.
  unfold getAnalysisArea, getRenderArea, getLocalBounds,
    Rectangle.removeFromTop, Rectangle.removeFromBottom,
    Rectangle.removeFromLeft, Rectangle.removeFromRight.
  cbn [Rectangle.getX Rectangle.getY Rectangle.getWidth Rectangle.getHeight].
  lia.
Qed.

(** X19: the areas of a component [width] wide and [height] high.  The
    render area is the local bounds less 12 at the top, 2 at the bottom and
    20 at each side; the analysis area is 4 less at the top and at the
    bottom.  A side that is too short to give up a strip gives up what it
    has: the areas are never negative in size, the analysis area is
    [max (width - 40, 0)] wide and [max (height - 22, 0)] high, it starts at
    (20, 16) when the component is at least 40 wide and 22 high, and it lies
    within the render area, which lies within the component. *)
Theorem response_areas_geometry (width height : Z) :
  0 <= width → 0 <= height →
  Rectangle.getWidth (getRenderArea (getLocalBounds width height))
  = Z.max (width - 40) 0
  ∧ Rectangle.getHeight (getRenderArea (getLocalBounds width height))
    = Z.max (height - 14) 0
  ∧ Rectangle.getWidth (getAnalysisArea (getLocalBounds width height))
    = Z.max (width - 40) 0
  ∧ Rectangle.getHeight (getAnalysisArea (getLocalBounds width height))
    = Z.max (height - 22) 0
  ∧ (40 <= width →
     Rectangle.getX (getAnalysisArea (getLocalBounds width height)) = 20)
  ∧ (22 <= height →
     Rectangle.getY (getAnalysisArea (getLocalBounds width height)) = 16)
  ∧ Rectangle.within (getAnalysisArea (getLocalBounds width height))
                     (getRenderArea (getLocalBounds width height))
  ∧ Rectangle.within (getRenderArea (getLocalBounds width height))
                     (getLocalBounds width height).
Proof.
  intros HW HH.
  unfold Rectangle.within, Rectangle.getRight, Rectangle.getBottom,
    getAnalysisArea, getRenderArea, getLocalBounds,
    Rectangle.removeFromTop, Rectangle.removeFromBottom,
    Rectangle.removeFromLeft, Rectangle.removeFromRight.
  cbn [Rectangle.getX Rectangle.getY Rectangle.getWidth Rectangle.getHeight].
  lia.
Qed.

Context `{JuceNumerics}.

Lemma imap_lookup_S {A B} (f : nat → A → B) (l : list A) i y :
  imap f l !! i = Some y → ∃ x, l !! i = Some x ∧ y = f i x.
Proof.
  rewrite list_lookup_imap. destruct (l !! i) as [x|]; simpl; [|done].
  intros [= <-]. by exists x.
Qed.

(** X20: the path of the response curve in a component [width] wide and
    [height] high.  When [width <= 40] the analysis area has no column: the
    loop computes no magnitude, whatever the chain is, and [paint] reads the
    first element of the empty vector.  When [width > 40] and every queried
    stage refers to a coefficient object, the path has one point for each
    of the [width - 40] columns, and point [i] is at x-coordinate
    [20 + i]. *)
Theorem paint_path_has_one_point_per_column h chain sampleRate
    (width height : Z) :
  0 <= width → 0 <= height →
  (width <= 40 →
   paint_responseCurve h chain sampleRate (getLocalBounds width height)
   = Err (SampleOutOfBounds 0))
  ∧ (40 < width → queried_valid h chain →
     ∃ path,
       paint_responseCurve h chain sampleRate (getLocalBounds width height)
       = Ok path
       ∧ length path = Z.to_nat (width - 40)
       ∧ ∀ i x y, path !! i = Some (x, y) → x = IZR (20 + Z.of_nat i)).
Proof.
  intros HW HH.
  destruct (response_areas_geometry_aux width height HW HH) as (Hw & Hx).
  unfold paint_responseCurve. cbv zeta. rewrite Hw, Hx. split.
  - intros Hle. replace (Z.max (width - 40) 0) with 0 by lia.
    unfold paint_magnitudes. simpl. done.
  - intros Hlt Hv. replace (Z.max (width - 40) 0) with (width - 40) by lia.
    replace (Z.min 20 width) with 20 by lia.
    destruct (fillMagnitudes_runs h chain sampleRate (width - 40)
                (seqZ 0 (width - 40)) Hv) as (ms & Hrun & Hlen).
    unfold paint_magnitudes. rewrite Hrun, result_bind_Ok.
    rewrite length_seqZ in Hlen.
    destruct ms as [|m ms]; [simpl in Hlen; lia|].
    simpl. eexists. split; [reflexivity|]. split.
    + simpl. rewrite length_imap. simpl in Hlen. lia.
    + intros [|i] x y; simpl.
      * by intros [= <- _].
      * intros (m' & _ & [= -> _])%imap_lookup_S. done.
Qed.

End Areas.

(** X19 for a component of 600 by 160. *)
Lemma response_areas_geometry_witness :
  Rectangle.getWidth (getAnalysisArea (getLocalBounds 600 160)) = 560
  ∧ Rectangle.getHeight (getAnalysisArea (getLocalBounds 600 160)) = 138.
Proof.
  destruct (response_areas_geometry 600 160 ltac:(lia) ltac:(lia))
    as (_ & _ & Hw & Hh & _).
  split; [exact Hw | exact Hh].
Defined.

(** X20 for the fully bypassed chain: no path in a component 30 wide, a
    path of three points in a component 43 wide. *)
Lemma paint_path_has_one_point_per_column_witness :
  @paint_responseCurve passThrough_numerics ∅ bypassed_chain 44100%Q
    (getLocalBounds 30 100) = Err (SampleOutOfBounds 0)
  ∧ ∃ path,
      @paint_responseCurve passThrough_numerics ∅ bypassed_chain 44100%Q
        (getLocalBounds 43 100) = Ok path
      ∧ length path = 3%nat.
Proof.
  destruct (@paint_path_has_one_point_per_column passThrough_numerics
              ∅ bypassed_chain 44100%Q 30 100 ltac:(lia) ltac:(lia)) as [Herr _].
  destruct (@paint_path_has_one_point_per_column passThrough_numerics
              ∅ bypassed_chain 44100%Q 43 100 ltac:(lia) ltac:(lia)) as [_ Hok].
  split; [apply Herr; lia|].
  destruct Hok as (path & Hrun & Hlen & _).
  - lia.
  - split_and!; [done| |];
      intros i; repeat (inv_fin i; [done | intros i]); inv_fin i.
  - exists path. split; [exact Hrun | exact Hlen].
Defined.

(** ** Block after block *)

Section Streaming.

Context `{JuceNumerics}.

(** [ProcessorChain::process] filters the samples; it does not re-seat the
    coefficient pointers of the filters. *)
Hypothesis process_keeps_pointers : ∀ h chain samples,
  MonoChain_valid h chain →
  MonoChain_valid h (MonoChain_process h chain samples).1.

Lemma processBlock_keeps_wf buffer p h :
  Processor_wf h p → 2 <= getNumChannels buffer →
  ∃ h' p' out, processBlock buffer p h = Ok (h', p', out)
    ∧ Processor_wf h' p'
    ∧ getNumChannels out = getNumChannels buffer.
Proof.
  intros (Hl & Hr & Hlf & Hrf & Hlc & Hrc & Hio) Hn.
  unfold processBlock. rewrite Hio, Z.sub_diag.
  change (clearChannels (seqZ (getTotalNumOutputChannels p) 0) buffer) with (Ok buffer).
  rewrite result_bind_Ok.
  destruct (updateFilters_runs p h Hl Hr) as (h' & l & r & -> & Hl' & Hr').
  rewrite result_bind_Ok. cbv beta iota zeta. unfold getSingleChannelBlock.
  cbn [fst snd].
  destruct (getReadPointer_inside 0 buffer) as (leftBlock & -> & _); [lia|].
  destruct (getReadPointer_inside 1 buffer) as (rightBlock & -> & _); [lia|].
  simpl readSamples. rewrite result_bind_Ok.
  cbn [leftChain rightChain setChains].
  pose proof (process_keeps_pointers h' l leftBlock Hl') as Hl''.
  pose proof (process_keeps_pointers h' r rightBlock Hr') as Hr''.
  destruct (MonoChain_process h' l leftBlock) as [leftChain' leftOut].
  rewrite result_bind_Ok.
  destruct (MonoChain_process h' r rightBlock) as [rightChain' rightOut].
  cbn [fst snd] in *.
  set (processed := <[1%nat := rightOut]> (<[0%nat := leftOut]> buffer)).
  assert (getNumChannels processed = getNumChannels buffer) as Hlen
    by (unfold processed, getNumChannels; by rewrite !length_insert).
  cbn [leftChannelFifo rightChannelFifo setChains].
  destruct (getReadPointer_inside 1 processed) as (s1 & Hs1 & _); [lia|].
  rewrite (update_reads (leftChannelFifo p) processed s1) by (by rewrite Hlc).
  destruct (pushSamples_runs s1 (leftChannelFifo p) Hlf)
    as (leftFifo & leftPushed & -> & Hlf' & Hlc').
  rewrite result_bind_Ok. cbv beta iota.
  destruct (getReadPointer_inside 0 processed) as (s0 & Hs0 & _); [lia|].
  rewrite (update_reads (rightChannelFifo p) processed s0) by (by rewrite Hrc).
  destruct (pushSamples_runs s0 (rightChannelFifo p) Hrf)
    as (rightFifo & rightPushed & -> & Hrf' & Hrc').
  rewrite result_bind_Ok. cbv beta iota.
  do 3 eexists. split; [reflexivity|]. split; [|done].
  unfold Processor_wf. simpl. split_and!; try done; congruence.
Qed.

(** X21: [processBlock] keeps the processor as it needs it.  Starting from
    a well-formed processor, any sequence of blocks of at least two
    channels is processed to the end without a fault: every call returns,
    gives back a buffer with as many channels as it was given, and leaves
    the processor well formed for the next call. *)
Theorem processBlocks_never_fault buffers : ∀ p h,
  Processor_wf h p → Forall (λ buffer, 2 <= getNumChannels buffer) buffers →
  ∃ h' p' outs, processBlocks buffers p h = Ok (h', p', outs)
    ∧ Processor_wf h' p'
    ∧ Forall2 (λ buffer out, getNumChannels out = getNumChannels buffer)
              buffers outs.
Proof.
  induction buffers as [|buffer rest IH]; intros p h Hwf Hall.
  - exists h, p, []. by split_and!.
  - apply Forall_cons in Hall as [Hn Hall].
    destruct (processBlock_keeps_wf buffer p h Hwf Hn)
      as (h1 & p1 & out & Hrun & Hwf1 & Hout).
    destruct (IH p1 h1 Hwf1 Hall) as (h2 & p2 & outs & Hrest & Hwf2 & Houts).
    exists h2, p2, (out :: outs). simpl.
    rewrite Hrun, result_bind_Ok. cbv beta iota.
    rewrite Hrest, result_bind_Ok. cbv beta iota.
    split_and!; [done..|]. by constructor.
Qed.

End Streaming.

(** X21 for three stereo blocks through the prepared processor. *)
Lemma processBlocks_never_fault_witness :
  ∃ h' p' outs,
    @processBlocks passThrough_numerics
      [stereo_buffer_2; stereo_buffer_5; stereo_buffer_2]
      prepared_processor (passThrough_store 18) = Ok (h', p', outs)
    ∧ Processor_wf h' p'.
Proof.
  destruct (@processBlocks_never_fault passThrough_numerics
              ltac:(intros h chain samples Hv; exact Hv)
              [stereo_buffer_2; stereo_buffer_5; stereo_buffer_2]
              prepared_processor (passThrough_store 18) prepared_processor_wf
              ltac:(repeat constructor; vm_compute; discriminate))
    as (h' & p' & outs & Hrun & Hwf & _).
  exists h', p', outs. split; [exact Hrun | exact Hwf].
Defined.
